(** * maxGraph: reversible child changes, folding, editing and terminal queries

    A shallow embedding of
    - [packages/core/src/view/undoable_changes/ChildChange.ts],
    - the folding mixin ([isFoldingEnabled], [getFoldableCells],
      [isCellFoldable], [getFoldingImage], [cellsFolded], [swapBounds],
      [updateAlternateBounds]),
    - the editing mixin ([startEditing], [startEditingAtCell], [stopEditing],
      [isEditing], [isCellEditable], [isCellsEditable], [setCellsEditable]),
    - the terminal mixin ([getOpposites]),
    together with the parts of [Cell] and [GraphDataModel] these call.

    JavaScript objects are modelled by their identity: a cell is a key of
    the store, and every field that holds a cell holds its key. *)

From Stdlib Require Import ZArith Lia.
From stdpp Require Import base option list gmap.

Local Open Scope Z_scope.

(** ** JavaScript arrays *)

Module JsArray.

Section Ops.
Context {A : Type} `{EqDecision A}.

(** Position of the first occurrence, as a natural number. *)
Fixpoint find_index (x : A) (l : list A) : option nat :=
  match l with
  | [] => None
  | y :: l' => if decide (y = x) then Some O else S <$> find_index x l'
  end.

(** [Array.prototype.indexOf]: first position or -1. *)
Definition indexOf (x : A) (l : list A) : Z :=
  match find_index x l with
  | Some i => Z.of_nat i
  | None => -1
  end.

(** The start position [splice] computes from its first argument:
    negative values count from the end, and the result is clamped to
    [0 .. length]. *)
Definition splice_start (len : nat) (start : Z) : nat :=
  if start <? 0
  then Z.to_nat (Z.max (Z.of_nat len + start) 0)
  else Z.to_nat (Z.min start (Z.of_nat len)).

(** [l.splice(start, 0, x)] *)
Definition splice_insert (l : list A) (start : Z) (x : A) : list A :=
  let k := splice_start (length l) start in
  take k l ++ x :: drop k l.

(** [l.splice(start, 1)] *)
Definition splice_remove (l : list A) (start : Z) : list A :=
  delete (splice_start (length l) start) l.

(** [l[i]] for a numeric index: [None] stands for [undefined]. *)
Definition at_index (l : list A) (i : Z) : option A :=
  if i <? 0 then None else l !! Z.to_nat i.

(** [l.push(x)] *)
Definition push (l : list A) (x : A) : list A := l ++ [x].
End Ops.

End JsArray.

Import JsArray.

(** ** Cells and the store of cells *)

(** Identity of a [Cell] object. *)
Definition id := nat.

(** Identity of a [Geometry] object. *)
Definition ref := nat.

(** Modelled from the spec: [Cell] (view/cell/Cell.ts) is not among the
    sources. Section 3 gives a cell a parent link, an ordered sequence of
    children, two nullable terminal references, a collapsed flag and a
    geometry; [edges] is its reverse view of the incident edges. *)
Record Cell := mkCell {
  parent : option id;
  children : list id;
  source : option id;
  target : option id;
  edges : list id;
  collapsed : bool;
  geometry : option ref;
}.

(** A cell as [new Cell()] leaves it. *)
Definition new_cell : Cell :=
  mkCell None [] None None [] false None.

Definition with_parent (p : option id) (c : Cell) : Cell :=
  mkCell p (children c) (source c) (target c) (edges c) (collapsed c) (geometry c).
Definition with_children (l : list id) (c : Cell) : Cell :=
  mkCell (parent c) l (source c) (target c) (edges c) (collapsed c) (geometry c).
Definition with_source (t : option id) (c : Cell) : Cell :=
  mkCell (parent c) (children c) t (target c) (edges c) (collapsed c) (geometry c).
Definition with_target (t : option id) (c : Cell) : Cell :=
  mkCell (parent c) (children c) (source c) t (edges c) (collapsed c) (geometry c).
Definition with_edges (l : list id) (c : Cell) : Cell :=
  mkCell (parent c) (children c) (source c) (target c) l (collapsed c) (geometry c).
Definition with_collapsed (b : bool) (c : Cell) : Cell :=
  mkCell (parent c) (children c) (source c) (target c) (edges c) b (geometry c).
Definition with_geometry (g : option ref) (c : Cell) : Cell :=
  mkCell (parent c) (children c) (source c) (target c) (edges c) (collapsed c) g.

(** The store maps the identity of every cell that was ever written to
    its fields; an identity that is not a key denotes a cell in the state
    [new_cell]. *)
Abbreviation Store := (gmap id Cell).

Definition cell (s : Store) (c : id) : Cell := default new_cell (s !! c).

Definition update (s : Store) (c : id) (f : Cell → Cell) : Store :=
  <[c := f (cell s c)]> s.

(** *** Cell methods

    The methods of [Cell] (view/cell/Cell.ts, not among the sources)
    that the modelled code calls. The accessors and the plain setters
    follow section 4.1 (a data holder without book-keeping); the helpers
    [insert], [remove], [insertEdge] and [removeEdge] keep the
    parent/children and the terminal/incident-edges views consistent, as
    section 3 requires. *)
Module CellOps.

(** Modelled from the spec: [Cell.getParent], the read accessor of the
    parent link (section 4.1). *)
Definition getParent (s : Store) (c : id) : option id := parent (cell s c).

(** Modelled from the spec: [Cell.setParent], a plain setter (section 4.1). *)
Definition setParent (s : Store) (c : id) (p : option id) : Store :=
  update s c (with_parent p).

(** Modelled from the spec: [Cell.getChildren], the ordered children. *)
Definition getChildren (s : Store) (c : id) : list id := children (cell s c).

(** Modelled from the spec: [Cell.getChildCount] (children by count). *)
Definition getChildCount (s : Store) (c : id) : nat := length (children (cell s c)).

(** Modelled from the spec: [Cell.getChildAt] (children by index);
    [None] is JavaScript's [undefined] for an index out of range. *)
Definition getChildAt (s : Store) (c : id) (i : Z) : option id :=
  at_index (children (cell s c)) i.

(** Modelled from the spec: [Cell.getIndex] returns the position of a
    child or -1 (section 4.1). *)
Definition getIndex (s : Store) (c : id) (child : id) : Z :=
  indexOf child (children (cell s c)).

(** Modelled from the spec: [Cell.getTerminal], the read accessor of the
    source ([true]) or target ([false]) reference. *)
Definition getTerminal (s : Store) (c : id) (isSource : bool) : option id :=
  if isSource then source (cell s c) else target (cell s c).

(** Modelled from the spec: [Cell.setTerminal], a plain setter
    (section 4.1). *)
Definition setTerminal (s : Store) (c : id) (t : option id) (isSource : bool) : Store :=
  update s c (if isSource then with_source t else with_target t).

(** Modelled from the spec: the incident edges of a cell, the reverse
    view of the terminal references (section 3). *)
Definition getEdges (s : Store) (c : id) : list id := edges (cell s c).

(** Modelled from the spec: [Cell.getEdgeIndex], the position of an edge
    among the incident edges or -1, like [getIndex]. *)
Definition getEdgeIndex (s : Store) (c : id) (edge : id) : Z :=
  indexOf edge (edges (cell s c)).

(** Modelled from the spec: [Cell.isCollapsed], the read accessor of the
    collapsed flag. *)
Definition isCollapsed (s : Store) (c : id) : bool := collapsed (cell s c).

(** Modelled from the spec: [Cell.getGeometry], the read accessor of the
    geometry. *)
Definition getGeometry (s : Store) (c : id) : option ref := geometry (cell s c).

(** Modelled from the spec: [Cell.remove(index)] takes the child at
    [index] out of the list of children and clears its parent link;
    nothing happens for a negative index or one without a child. *)
Definition remove (s : Store) (this : id) (index : Z) : Store :=
  if 0 <=? index then
    match getChildAt s this index with
    | Some child =>
        let s1 := update s this (with_children (splice_remove (children (cell s this)) index)) in
        setParent s1 child None
    | None => s
    end
  else s.

(** Modelled from the spec: [Cell.removeFromParent()] removes the cell
    from the children of its parent, when it has one. *)
Definition removeFromParent (s : Store) (this : id) : Store :=
  match getParent s this with
  | Some p => remove s p (getIndex s p this)
  | None => s
  end.

(** Modelled from the spec: [Cell.insert(child, index)] with an explicit
    index: the child leaves its old parent, gets this cell as parent and
    is spliced into the children at [index]. *)
Definition insert (s : Store) (this : id) (child : id) (index : Z) : Store :=
  let s1 := removeFromParent s child in
  let s2 := setParent s1 child (Some this) in
  update s2 this (with_children (splice_insert (children (cell s2 this)) index child)).

(** Modelled from the spec: [Cell.removeEdge(edge, isOutgoing)] unlists
    the edge, unless its other end is this cell too, and nulls the
    edge's terminal reference. *)
Definition removeEdge (s : Store) (this : id) (edge : id) (isOutgoing : bool) : Store :=
  let s1 :=
    if decide (getTerminal s edge (negb isOutgoing) = Some this) then s
    else
      let index := getEdgeIndex s this edge in
      if 0 <=? index
      then update s this (with_edges (splice_remove (edges (cell s this)) index))
      else s in
  setTerminal s1 edge None isOutgoing.

(** Modelled from the spec: [Cell.removeFromTerminal(isSource)] removes
    the edge from its terminal, when it has one. *)
Definition removeFromTerminal (s : Store) (this : id) (isSource : bool) : Store :=
  match getTerminal s this isSource with
  | Some terminal => removeEdge s terminal this isSource
  | None => s
  end.

(** Modelled from the spec: [Cell.insertEdge(edge, isOutgoing)] detaches
    the edge from its old terminal, makes this cell its terminal and
    lists it once among the incident edges. *)
Definition insertEdge (s : Store) (this : id) (edge : id) (isOutgoing : bool) : Store :=
  let s1 := removeFromTerminal s edge isOutgoing in
  let s2 := setTerminal s1 edge (Some this) isOutgoing in
  if bool_decide (length (edges (cell s2 this)) = O)
     || negb (bool_decide (getTerminal s2 edge (negb isOutgoing) = Some this))
     || (getEdgeIndex s2 this edge <? 0)
  then update s2 this (with_edges (push (edges (cell s2 this)) edge))
  else s2.

End CellOps.

Import CellOps.

(** ** Numbers and geometry objects *)

(** JavaScript numbers are IEEE doubles. The modelled code uses the
    operations below; no property proved here depends on their values,
    so they are an interface. *)
Class Number (num : Type) := {
  num_zero : num;
  num_add : num → num → num;
  num_sub : num → num → num;
  num_mul : num → num → num;
  num_half : num → num;        (* v / 2 *)
  num_max : num → num → num;   (* Math.max(v, w) *)
  num_positive : num → bool;   (* v > 0 *)
  num_is_zero : num → bool;    (* v === 0 *)
  toRadians : num → num;
  num_cos : num → num;         (* Math.cos *)
  num_sin : num → num;         (* Math.sin *)
}.

(** [Rectangle] (view/geometry/Rectangle.ts, not among the sources). *)
Module Rectangle.

(** Modelled from the spec: the fields of [Rectangle], a position and a
    size. *)
Record t (num : Type) := mk {
  x : num;
  y : num;
  width : num;
  height : num;
}.
Arguments mk {num}.
Arguments x {num}.
Arguments y {num}.
Arguments width {num}.
Arguments height {num}.

Definition with_height {num} (h : num) (r : t num) : t num :=
  mk (x r) (y r) (width r) h.

(** Modelled from the spec: [Rectangle.getCenterX], the position plus
    half the width. *)
Definition getCenterX {num} `{Number num} (r : t num) : num :=
  num_add (x r) (num_half (width r)).

(** Modelled from the spec: [Rectangle.getCenterY], the position plus
    half the height. *)
Definition getCenterY {num} `{Number num} (r : t num) : num :=
  num_add (y r) (num_half (height r)).

End Rectangle.

(** [Geometry] (view/geometry/Geometry.ts, not among the sources). *)
Module Geometry.

(** Modelled from the spec: the fields of [Geometry] the modelled code
    uses; section 3 gives a geometry a position, a size and optional
    alternate bounds used when collapsed. *)
Record t (num : Type) := mk {
  x : num;
  y : num;
  width : num;
  height : num;
  alternateBounds : option (Rectangle.t num);
}.
Arguments mk {num}.
Arguments x {num}.
Arguments y {num}.
Arguments width {num}.
Arguments height {num}.
Arguments alternateBounds {num}.

(** Modelled from the spec: [Geometry.getCenterX], inherited from
    [Rectangle]. *)
Definition getCenterX {num} `{Number num} (g : t num) : num :=
  num_add (x g) (num_half (width g)).

(** Modelled from the spec: [Geometry.getCenterY], inherited from
    [Rectangle]. *)
Definition getCenterY {num} `{Number num} (g : t num) : num :=
  num_add (y g) (num_half (height g)).

Definition with_alternateBounds {num} (ab : option (Rectangle.t num)) (g : t num) : t num :=
  mk (x g) (y g) (width g) (height g) ab.

(** Modelled from the spec: [Geometry.swap()] exchanges the bounds with
    the alternate bounds when there are any (the geometry swap of
    section 6). *)
Definition swap {num} (g : t num) : t num :=
  match alternateBounds g with
  | Some ab =>
      let old := Rectangle.mk (x g) (y g) (width g) (height g) in
      mk (Rectangle.x ab) (Rectangle.y ab) (Rectangle.width ab) (Rectangle.height ab)
         (Some old)
  | None => g
  end.

End Geometry.

(** ** The graph: cells, geometry objects, transaction state *)

(** Modelled from the spec: the collapse and geometry change records of
    section 3, each storing the single previous value it replaces. *)
Inductive Change :=
| CollapseChange (cell : id) (previous : bool)
| GeometryChange (cell : id) (previous : option ref).

(** The events the modelled code fires, with their payload:
    [CELLS_FOLDED] of the graph and [CHANGE], the notification of the
    data model that carries the records of a committed edit
    (section 4.3). *)
Inductive Event :=
| CELLS_FOLDED (cells : list id) (collapse recurse : bool)
| CHANGE (changes : list Change).

(** Modelled from the spec: the state of the graph and its data model
    that the modelled code reads or writes; the transaction fields
    follow sections 3 and 4.3. *)
Record Graph (num : Type) := mkGraph {
  store : Store;                          (* the cells *)
  heap : gmap ref (Geometry.t num);       (* the Geometry objects *)
  rectangles : gmap ref (Rectangle.t num); (* the Rectangle objects handed out *)
  updateLevel : nat;                      (* nesting of update scopes *)
  currentEdit : list Change;              (* records of the open transaction *)
  edits : list (list Change);             (* committed transactions *)
  events : list Event;                    (* events fired, in order *)
  cellsEditable : bool;
  collapseToPreferredSize : bool;         (* options.collapseToPreferredSize *)
}.
Arguments mkGraph {num}.
Arguments store {num}.
Arguments heap {num}.
Arguments rectangles {num}.
Arguments updateLevel {num}.
Arguments currentEdit {num}.
Arguments edits {num}.
Arguments events {num}.
Arguments cellsEditable {num}.
Arguments collapseToPreferredSize {num}.

Definition with_store {num} (s : Store) (g : Graph num) : Graph num :=
  mkGraph s (heap g) (rectangles g) (updateLevel g) (currentEdit g) (edits g) (events g)
    (cellsEditable g) (collapseToPreferredSize g).
Definition with_heap {num} (h : gmap ref (Geometry.t num)) (g : Graph num) : Graph num :=
  mkGraph (store g) h (rectangles g) (updateLevel g) (currentEdit g) (edits g) (events g)
    (cellsEditable g) (collapseToPreferredSize g).
Definition with_rectangles {num} (rs : gmap ref (Rectangle.t num)) (g : Graph num)
  : Graph num :=
  mkGraph (store g) (heap g) rs (updateLevel g) (currentEdit g) (edits g) (events g)
    (cellsEditable g) (collapseToPreferredSize g).
Definition with_transaction {num} (lvl : nat) (cur : list Change) (done : list (list Change))
    (g : Graph num) : Graph num :=
  mkGraph (store g) (heap g) (rectangles g) lvl cur done (events g)
    (cellsEditable g) (collapseToPreferredSize g).
Definition with_events {num} (evs : list Event) (g : Graph num) : Graph num :=
  mkGraph (store g) (heap g) (rectangles g) (updateLevel g) (currentEdit g) (edits g) evs
    (cellsEditable g) (collapseToPreferredSize g).

(** Every change record created so far, oldest first. *)
Definition records {num} (g : Graph num) : list Change :=
  concat (edits g) ++ currentEdit g.

(** The part of a cell's resolved style the modelled code reads. *)
Record CellStateStyle (num : Type) := mkStyle {
  foldable : option bool;
  editable : option bool;
  startSize : option num;
  rotation : option num;
}.
Arguments mkStyle {num}.
Arguments foldable {num}.
Arguments editable {num}.
Arguments startSize {num}.
Arguments rotation {num}.

(** The methods of [Graph] the mixins call and the sources do not
    contain (the [PartialGraph] types of the mixins).
    [getPreferredSizeForCell] returns a Rectangle object, by its
    identity, or null. *)
Class PartialGraph (num : Type) := {
  getCurrentCellStyle : Graph num → id → CellStateStyle num;
  getPreferredSizeForCell : Graph num → id → option ref;
  isExtendParent : Graph num → id → bool;
  extendParent : Graph num → id → Graph num;
  constrainChild : Graph num → id → Graph num;
  isCellLocked : Graph num → id → bool;
}.

(** *** The data model

    [GraphDataModel] (view/GraphDataModel.ts) is not among the sources. *)
Module GraphDataModel.

(** Modelled from the spec: [parentForCellChanged(cell, parent, index)]
    performs the reparent, moving the cell to the new parent at the new
    index or detaching it when the parent is null, and returns the
    previous parent, which the self-inverting record stores. The model's
    table of contained cells is left out: no modelled code reads it. *)
Definition parentForCellChanged (s : Store) (c : id) (parent : option id) (index : Z)
  : Store * option id :=
  let previous := getParent s c in
  let s' :=
    match parent with
    | Some p =>
        if negb (bool_decide (parent = previous)) || negb (getIndex s p c =? index)
        then insert s p c index
        else s
    | None =>
        match previous with
        | Some q => remove s q (getIndex s q c)
        | None => s
        end
    end in
  (s', previous).

(** Modelled from the spec: [terminalForCellChanged(cell, terminal,
    isSource)] connects the cell to the new terminal, or disconnects it
    from the previous one when the terminal is null, keeping the
    incident edges consistent, and returns the previous terminal. *)
Definition terminalForCellChanged (s : Store) (c : id) (terminal : option id) (isSource : bool)
  : Store * option id :=
  let previous := getTerminal s c isSource in
  let s' :=
    match terminal with
    | Some t => insertEdge s t c isSource
    | None =>
        match previous with
        | Some q => removeEdge s q c isSource
        | None => s
        end
    end in
  (s', previous).

(** *** Transactions and attribute setters *)

(** Modelled from the spec: [beginUpdate] (section 4.3) increments the
    nesting counter. *)
Definition beginUpdate {num} (g : Graph num) : Graph num :=
  with_transaction (S (updateLevel g)) (currentEdit g) (edits g) g.

(** Modelled from the spec: [endUpdate] (section 4.3) decrements the
    counter and, reaching zero, commits the accumulated records as one
    edit, fires the one notification that carries them and opens a new
    empty sequence. A sequence without records is neither committed nor
    notified (zero records, zero notifications). At level zero it would
    be the underflow the spec makes fatal; every [endUpdate] below
    follows its [beginUpdate]. *)
Definition endUpdate {num} (g : Graph num) : Graph num :=
  match Nat.pred (updateLevel g) with
  | O =>
      match currentEdit g with
      | [] => with_transaction O [] (edits g) g
      | _ :: _ =>
          with_events (events g ++ [CHANGE (currentEdit g)])
            (with_transaction O [] (edits g ++ [currentEdit g]) g)
      end
  | S l => with_transaction (S l) (currentEdit g) (edits g) g
  end.

(** Modelled from the spec: [batchUpdate(fn)] (section 4.3) runs the
    callback inside an update scope. A callback that does not return
    ([None]) has no resulting state. *)
Definition batchUpdate {num} (g : Graph num) (fn : Graph num → option (Graph num))
  : option (Graph num) :=
  g' ← fn (beginUpdate g); Some (endUpdate g').

(** Modelled from the spec: a change record's [execute] writes the new
    value into the cell. *)
Definition apply_change {num} (g : Graph num) (cell : id) (f : Cell → Cell) : Graph num :=
  with_store (update (store g) cell f) g.

(** Modelled from the spec: an applied change is added to the record
    sequence inside an update scope of its own (section 4.3: each
    operation is wrapped in a transaction if not already inside one). *)
Definition record_change {num} (g : Graph num) (ch : Change) : Graph num :=
  let g1 := beginUpdate g in
  endUpdate (with_transaction (updateLevel g1) (currentEdit g1 ++ [ch]) (edits g1) g1).

(** Modelled from the spec: [setCollapsed(cell, collapsed)] is a no-op
    for the current value and otherwise creates and applies the collapse
    change (section 4.3). *)
Definition setCollapsed {num} (g : Graph num) (cell : id) (collapsed : bool) : Graph num :=
  if eqb collapsed (isCollapsed (store g) cell) then g
  else
    let previous := isCollapsed (store g) cell in
    record_change (apply_change g cell (with_collapsed collapsed))
      (CollapseChange cell previous).

(** Modelled from the spec: [setGeometry(cell, geometry)] is a no-op for
    the geometry object the cell already has and otherwise creates and
    applies the geometry change (section 4.3). *)
Definition setGeometry {num} (g : Graph num) (cell : id) (geometry : option ref) : Graph num :=
  if decide (geometry = getGeometry (store g) cell) then g
  else
    let previous := getGeometry (store g) cell in
    record_change (apply_change g cell (with_geometry geometry))
      (GeometryChange cell previous).

(** Modelled from the spec: [filterCells(cells, predicate)] returns a
    new ordered sequence containing only the cells that satisfy the
    predicate (section 4.3). *)
Definition filterCells (cells : list id) (filter : id → bool) : list id :=
  List.filter filter cells.


End GraphDataModel.

Import GraphDataModel.

(** ** ChildChange *)

Module ChildChange.

(** The fields of a record; [model] is the store that is threaded
    through [execute]. *)
Record t := mk {
  parent : option id;
  child : id;
  previous : option id;
  index : Z;
  previousIndex : Z;
}.

(** [new ChildChange(model, parent, child, index = 0)] *)
Definition new (parent : option id) (child : id) (index : option Z) : t :=
  let index := default 0 index in
  {| parent := parent; previous := parent; child := child;
     index := index; previousIndex := index |}.

(** A sequential loop over indices; the body may fail (a call on
    [undefined], or the recursion budget is used up). The second
    component collects what the body logs. *)
Fixpoint for_each (body : Store → nat → option (Store * list id))
    (indices : list nat) (s : Store) : option (Store * list id) :=
  match indices with
  | [] => Some (s, [])
  | i :: rest =>
      '(s1, l1) ← body s i;
      '(s2, l2) ← for_each body rest s1;
      Some (s2, l1 ++ l2)
  end.

(** The part of [connect] before the loop over the children (lines
    83-103). *)
Definition connect_terminals (s : Store) (cell : id) (isConnect : bool) : Store :=
  let source := getTerminal s cell true in
  let target := getTerminal s cell false in
  let s1 :=
    match source with
    | Some src =>
        if isConnect
        then fst (terminalForCellChanged s cell (Some src) true)
        else fst (terminalForCellChanged s cell None true)
    | None => s
    end in
  let s2 :=
    match target with
    | Some tgt =>
        if isConnect
        then fst (terminalForCellChanged s1 cell (Some tgt) false)
        else fst (terminalForCellChanged s1 cell None false)
    | None => s1
    end in
  let s3 := setTerminal s2 cell source true in
  setTerminal s3 cell target false.

(** [connect(cell, isConnect)]. The recursion follows the children
    links of the store, so it is bounded by [fuel]; [None] means the
    budget did not suffice. Next to the store the function returns the
    cells [connect] was invoked on, in the order of the invocations. *)
Fixpoint connect (fuel : nat) (s : Store) (cell : id) (isConnect : bool)
  : option (Store * list id) :=
  match fuel with
  | O => None
  | S fuel' =>
      let s' := connect_terminals s cell isConnect in
      let childCount := getChildCount s' cell in
      '(s'', visited) ←
        for_each
          (λ s1 i, ch ← getChildAt s1 cell (Z.of_nat i); connect fuel' s1 ch isConnect)
          (seq 0 childCount) s';
      Some (s'', cell :: visited)
  end.

(** [execute()] *)
Definition execute (fuel : nat) (s : Store) (r : t) : option (Store * t) :=
  let tmp := getParent s (child r) in
  let tmp2 := match tmp with Some p => getIndex s p (child r) | None => 0 end in
  s1 ← (if previous r is None then fst <$> connect fuel s (child r) false else Some s);
  let '(s2, tmp) := parentForCellChanged s1 (child r) (previous r) (previousIndex r) in
  s3 ← (if previous r is Some _ then fst <$> connect fuel s2 (child r) true else Some s2);
  Some (s3, {| parent := previous r; previous := tmp; child := child r;
               index := previousIndex r; previousIndex := tmp2 |}).

End ChildChange.

(** ** The folding mixin *)

Module FoldingMixin.

Section Folding.
Context {num : Type} `{Number num} `{PartialGraph num}.

(** [fireEvent(new EventObject(...))] *)
Definition fireEvent (g : Graph num) (ev : Event) : Graph num :=
  with_events (events g ++ [ev]) g.

(** [isCellFoldable(cell, collapse)] *)
Definition isCellFoldable (g : Graph num) (cell : id) (collapse : bool) : bool :=
  let style := getCurrentCellStyle g cell in
  (0 <? Z.of_nat (getChildCount (store g) cell)) && default true (foldable style).

(** [getFoldableCells(cells, collapse = false)] *)
Definition getFoldableCells (g : Graph num) (cells : list id) (collapse : bool) : list id :=
  filterCells cells (λ cell, isCellFoldable g cell collapse).

(** [updateAlternateBounds(cell = null, geo = null, willCollapse = false)];
    [geo] is the identity of the geometry object that is written. With
    a preferred size, [bounds] is the Rectangle object
    [getPreferredSizeForCell] returned, and the assignment to
    [bounds.height] writes that object; a reference to no object stands
    for null. *)
Definition updateAlternateBounds (g : Graph num) (cell : option id) (geo : option ref)
    (willCollapse : bool) : Graph num :=
  match cell, geo with
  | Some cell, Some r =>
      match heap g !! r with
      | Some geo0 =>
          let style := getCurrentCellStyle g cell in
          let '(g1, geo1) :=
            match Geometry.alternateBounds geo0 with
            | None =>
                let '(g1, bounds) :=
                  if collapseToPreferredSize g then
                    match getPreferredSizeForCell g cell with
                    | Some t =>
                        match rectangles g !! t with
                        | Some tmp =>
                            match startSize style with
                            | Some startSize =>
                                if num_positive startSize
                                then
                                  let bounds :=
                                    Rectangle.with_height
                                      (num_max (Rectangle.height tmp) startSize) tmp in
                                  (with_rectangles (<[t := bounds]> (rectangles g)) g,
                                   (Rectangle.width bounds, Rectangle.height bounds))
                                else (g, (Rectangle.width tmp, Rectangle.height tmp))
                            | None => (g, (Rectangle.width tmp, Rectangle.height tmp))
                            end
                        | None => (g, (Geometry.width geo0, Geometry.height geo0))
                        end
                    | None => (g, (Geometry.width geo0, Geometry.height geo0))
                    end
                  else (g, (Geometry.width geo0, Geometry.height geo0)) in
                (g1,
                 Geometry.with_alternateBounds
                   (Some (Rectangle.mk num_zero num_zero bounds.1 bounds.2)) geo0)
            | Some _ => (g, geo0)
            end in
          let geo2 :=
            match Geometry.alternateBounds geo1 with
            | Some ab =>
                let ab1 := Rectangle.mk (Geometry.x geo1) (Geometry.y geo1)
                             (Rectangle.width ab) (Rectangle.height ab) in
                let alpha := toRadians (default num_zero (rotation style)) in
                let ab2 :=
                  if num_is_zero alpha then ab1
                  else
                    let dx := num_sub (Rectangle.getCenterX ab1) (Geometry.getCenterX geo1) in
                    let dy := num_sub (Rectangle.getCenterY ab1) (Geometry.getCenterY geo1) in
                    let cos := num_cos alpha in
                    let sin := num_sin alpha in
                    let dx2 := num_sub (num_mul cos dx) (num_mul sin dy) in
                    let dy2 := num_add (num_mul sin dx) (num_mul cos dy) in
                    Rectangle.mk (num_add (Rectangle.x ab1) (num_sub dx2 dx))
                                 (num_add (Rectangle.y ab1) (num_sub dy2 dy))
                                 (Rectangle.width ab1) (Rectangle.height ab1) in
                Geometry.with_alternateBounds (Some ab2) geo1
            | None => geo1
            end in
          with_heap (<[r := geo2]> (heap g1)) g1
      | None => g
      end
  | _, _ => g
  end.

(** Modelled from the spec: [Geometry.clone()] (not among the sources)
    returns a new object with the same contents. *)
Definition clone (g : Graph num) (geo : Geometry.t num) : Graph num * ref :=
  let r := fresh (dom (heap g)) in
  (with_heap (<[r := geo]> (heap g)) g, r).

(** [geo.swap()] applied to the object [r]. *)
Definition swap_at (g : Graph num) (r : ref) : Graph num :=
  with_heap (alter Geometry.swap r (heap g)) g.

(** [swapBounds(cell, willCollapse = false)] *)
Definition swapBounds (g : Graph num) (cell : id) (willCollapse : bool) : Graph num :=
  match getGeometry (store g) cell with
  | Some r0 =>
      match heap g !! r0 with
      | Some geo0 =>
          let '(g1, geo) := clone g geo0 in
          let g2 := updateAlternateBounds g1 (Some cell) (Some geo) willCollapse in
          let g3 := swap_at g2 geo in
          setGeometry g3 cell (Some geo)
      | None => g
      end
  | None => g
  end.

(** The guarded block of the loop in [cellsFolded], for one cell;
    [rec] is the recursive call on the children. *)
Definition fold_cell (rec : Graph num → list id → option (Graph num))
    (collapse recurse checkFoldable : bool) (g : Graph num) (c : id)
  : option (Graph num) :=
  if (negb checkFoldable || isCellFoldable g c collapse)
     && negb (eqb collapse (isCollapsed (store g) c))
  then
    let g1 := setCollapsed g c collapse in
    let g2 := swapBounds g1 c collapse in
    let g3 := if isExtendParent g2 c then extendParent g2 c else g2 in
    g4 ← (if recurse then rec g3 (getChildren (store g3) c) else Some g3);
    Some (constrainChild g4 c)
  else Some g.

(** The loop [for (let i = 0; i < cells.length; i += 1)]. *)
Fixpoint fold_loop (rec : Graph num → list id → option (Graph num))
    (collapse recurse checkFoldable : bool) (cells : list id) (g : Graph num)
  : option (Graph num) :=
  match cells with
  | [] => Some g
  | c :: rest =>
      g' ← fold_cell rec collapse recurse checkFoldable g c;
      fold_loop rec collapse recurse checkFoldable rest g'
  end.

(** [cellsFolded(cells = null, collapse = false, recurse = false,
    checkFoldable = false)]. The recursion follows the children links,
    so it is bounded by [fuel]. *)
Fixpoint cellsFolded (fuel : nat) (g : Graph num) (cells : option (list id))
    (collapse recurse checkFoldable : bool) : option (Graph num) :=
  match fuel with
  | O => None
  | S fuel' =>
      match cells with
      | Some cs =>
          if bool_decide (0 < length cs)%nat then
            batchUpdate g (λ g1,
              g2 ← fold_loop (λ g' children, cellsFolded fuel' g' (Some children) collapse recurse false)
                     collapse recurse checkFoldable cs g1;
              Some (fireEvent g2 (CELLS_FOLDED cs collapse recurse)))
          else Some g
      | None => Some g
      end
  end.

End Folding.

End FoldingMixin.

(** ** The editing mixin *)

Module EditingMixin.

Section Editing.
Context {num : Type} `{PartialGraph num}.

(** [isCellsEditable()] *)
Definition isCellsEditable (g : Graph num) : bool := cellsEditable g.

(** [setCellsEditable(value)] *)
Definition setCellsEditable (g : Graph num) (value : bool) : Graph num :=
  mkGraph (store g) (heap g) (rectangles g) (updateLevel g) (currentEdit g) (edits g)
    (events g) value (collapseToPreferredSize g).

(** [isCellEditable(cell)]; [style.editable || false] is [false] for a
    missing key. *)
Definition isCellEditable (g : Graph num) (cell : id) : bool :=
  let style := getCurrentCellStyle g cell in
  isCellsEditable g && negb (isCellLocked g cell) && default false (editable style).

End Editing.

End EditingMixin.

(** ** The terminal mixin *)

Module TerminalMixin.

(** The view as [getOpposites] sees it: the state of an edge, when there
    is one, and the visible terminals a state or the view reports. *)
Class View (CellState : Type) := {
  getState : id → option CellState;
  state_getVisibleTerminal : CellState → bool → option id;
  view_getVisibleTerminal : id → bool → option id;
}.

Section Terminal.
Context {CellState : Type} `{View CellState}.

(** One iteration of the loop: [terminals] is the result array, [dict]
    the [Dictionary<Cell, boolean>] used for lookup. *)
Definition opposite_step (terminal : option id) (includeSources includeTargets : bool)
    (acc : list id * gmap id bool) (edge : id) : list id * gmap id bool :=
  let '(terminals, dict) := acc in
  let state := getState edge in
  let source :=
    match state with
    | Some st => state_getVisibleTerminal st true
    | None => view_getVisibleTerminal edge true
    end in
  let target :=
    match state with
    | Some st => state_getVisibleTerminal st false
    | None => view_getVisibleTerminal edge false
    end in
  if bool_decide (source = terminal) && bool_decide (is_Some target)
     && negb (bool_decide (target = terminal)) && includeTargets
  then
    match target with
    | Some tgt =>
        if negb (default false (dict !! tgt))
        then (push terminals tgt, <[tgt := true]> dict)
        else (terminals, dict)
    | None => (terminals, dict)
    end
  else if bool_decide (target = terminal) && bool_decide (is_Some source)
          && negb (bool_decide (source = terminal)) && includeSources
  then
    match source with
    | Some src =>
        if negb (default false (dict !! src))
        then (push terminals src, <[src := true]> dict)
        else (terminals, dict)
    | None => (terminals, dict)
    end
  else (terminals, dict).

(** [getOpposites(edges, terminal = null, includeSources = true,
    includeTargets = true)] *)
Definition getOpposites (edges : list id) (terminal : option id)
    (includeSources includeTargets : bool) : list id :=
  (foldl (opposite_step terminal includeSources includeTargets) ([], ∅) edges).1.

End Terminal.

End TerminalMixin.

(** ** Specification-side notions for the cell tree *)

(** Cells reached from [c] along children links, parents before
    children, children in index order; [fuel] bounds the depth. *)
Fixpoint preorder (fuel : nat) (s : Store) (c : id) : list id :=
  match fuel with
  | O => []
  | S fuel' => c :: flat_map (preorder fuel' s) (children (cell s c))
  end.

(** The subtree below [c] is finite and at most [fuel] levels deep. *)
Fixpoint within (fuel : nat) (s : Store) (c : id) : bool :=
  match fuel with
  | O => false
  | S fuel' => forallb (within fuel' s) (children (cell s c))
  end.

(** The parent links and the lists of children describe the same
    forest, and no cell is listed twice under one parent. *)
Definition wf_tree (s : Store) : Prop :=
  ∀ c p, (c ∈ children (cell s p) ↔ parent (cell s c) = Some p)
         ∧ NoDup (children (cell s p)).

(** No cell is listed twice among the incident edges of a cell. *)
Definition wf_edges (s : Store) : Prop :=
  ∀ t, NoDup (edges (cell s t)).

(** Executable check of [wf_tree] over the keys of the store. *)
Definition wf_treeb (s : Store) : bool :=
  forallb (λ kv : id * Cell,
      bool_decide (NoDup (children kv.2))
      && forallb (λ ch, bool_decide (parent (cell s ch) = Some kv.1)) (children kv.2)
      && match parent kv.2 with
         | Some p => bool_decide (kv.1 ∈ children (cell s p))
         | None => true
         end) (map_to_list s).

(** Executable check of [wf_edges]. *)
Definition wf_edgesb (s : Store) : bool :=
  forallb (λ kv : id * Cell, bool_decide (NoDup (edges kv.2))) (map_to_list s).

(** The first occurrence of [x] taken out of [l]; what
    [l.splice(l.indexOf(x), 1)] leaves when the index is not negative. *)
Definition detach {A} `{EqDecision A} (x : A) (l : list A) : list A :=
  match find_index x l with
  | Some i => delete i l
  | None => l
  end.

(** The list of children of [x] after [c] moved to [newp] at [j]. *)
Definition children_after (s : Store) (c : id) (newp : option id) (j : Z) (x : id) : list id :=
  let l0 := if decide (parent (cell s c) = Some x)
            then detach c (children (cell s x)) else children (cell s x) in
  if decide (newp = Some x) then splice_insert l0 j c else l0.

(** Views of a cell: its terminal fields, its place in the tree, and the
    remaining fields apart from the incident edges. *)
Definition terminals (c : Cell) : option id * option id := (source c, target c).
Definition shape (c : Cell) : option id * list id := (parent c, children c).
Definition looks (c : Cell) : bool * option ref :=
  (collapsed c, geometry c).

(** [with_source] or [with_target], by the flag [setTerminal] takes. *)
Definition with_terminal (b : bool) (o : option id) : Cell → Cell :=
  if b then with_source o else with_target o.

Definition terminal_of (b : bool) (cl : Cell) : option id :=
  if b then source cl else target cl.

(** The incident edges of [t] after [t.removeEdge(e, b)]. *)
Definition edges_less (s : Store) (t e : id) (b : bool) : list id :=
  if decide (getTerminal s e (negb b) = Some t) then edges (cell s t)
  else detach e (edges (cell s t)).

(** The store after the two [terminalForCellChanged] calls of
    [connect], before the terminal fields are written back. *)
Definition after_terminal_changes (s : Store) (c : id) (isConnect : bool) : Store :=
  let s1 :=
    match getTerminal s c true with
    | Some src => if isConnect then insertEdge s src c true else removeEdge s src c true
    | None => s
    end in
  match getTerminal s c false with
  | Some tgt => if isConnect then insertEdge s1 tgt c false else removeEdge s1 tgt c false
  | None => s1
  end.

(** No field other than the incident-edge lists differs. *)
Definition same_fields (s s' : Store) : Prop :=
  ∀ x, shape (cell s' x) = shape (cell s x)
       ∧ terminals (cell s' x) = terminals (cell s x)
       ∧ looks (cell s' x) = looks (cell s x).

(** The loop body of [connect]. *)
Definition connect_child (rec : Store → id → option (Store * list id)) (cell : id)
    (s1 : Store) (i : nat) : option (Store * list id) :=
  ch ← getChildAt s1 cell (Z.of_nat i); rec s1 ch.

(** The cell [o], when there is one, does not lie in the subtree below
    [c]: the no-cycle precondition the data model validates before it
    creates a child change. *)
Definition outside (n : nat) (s : Store) (c : id) (o : option id) : Prop :=
  ∀ q, o = Some q → q ∉ preorder n s c.

(** The record [execute] leaves behind. *)
Definition executed (s : Store) (r : ChildChange.t) : ChildChange.t :=
  {| ChildChange.parent := ChildChange.previous r;
     ChildChange.previous := getParent s (ChildChange.child r);
     ChildChange.child := ChildChange.child r;
     ChildChange.index := ChildChange.previousIndex r;
     ChildChange.previousIndex :=
       match getParent s (ChildChange.child r) with
       | Some p => getIndex s p (ChildChange.child r)
       | None => 0
       end |}.

(** The loop invariant of [getOpposites]: no duplicates, every
    collected cell is registered in the dictionary, none is the given
    terminal. *)
Definition opposites_inv (terminal : option id) (acc : list id * gmap id bool) : Prop :=
  NoDup acc.1
  ∧ (∀ x, x ∈ acc.1 → default false (acc.2 !! x) = true)
  ∧ (∀ x, x ∈ acc.1 → Some x ≠ terminal).

(** ** Example documents *)

(** The scenario of section 8, extended by an edge inside the removed
    subtree: root 1 with children A = 2 and C = 4, B = 3 a child of A,
    and the edge E = 5, a child of B, from B to C. *)
Definition example_store : Store :=
  let s := insert ∅ 1%nat 2%nat 0 in
  let s := insert s 1%nat 4%nat 1 in
  let s := insert s 2%nat 3%nat 0 in
  let s := insert s 3%nat 5%nat 0 in
  let s := insertEdge s 3%nat 5%nat true in
  insertEdge s 4%nat 5%nat false.

(** The example document with a second edge F = 6, a child of the
    root, that also runs from B to C. *)
Definition two_edge_store : Store :=
  let s := insert example_store 1%nat 6%nat 2 in
  let s := insertEdge s 3%nat 6%nat true in
  insertEdge s 4%nat 6%nat false.

(** Integers as numbers, for evaluating examples without rotation: the
    cosine and the sine are only taken of a non-zero angle. *)
Definition Number_Z : Number Z :=
  {| num_zero := 0; num_add := Z.add; num_sub := Z.sub; num_mul := Z.mul;
     num_half := λ v, v / 2; num_max := Z.max;
     num_positive := λ v, 0 <? v; num_is_zero := λ v, v =? 0;
     toRadians := λ v, v; num_cos := λ _, 1; num_sin := λ _, 0 |}.

(** A graph whose cells have the default style, are not locked and are
    neither extended nor constrained. *)
Definition plain_graph : PartialGraph Z :=
  {| getCurrentCellStyle := λ _ _, mkStyle None None None None;
     getPreferredSizeForCell := λ _ _, None;
     isExtendParent := λ _ _, false;
     extendParent := λ g _, g;
     constrainChild := λ g _, g;
     isCellLocked := λ _ _, false |}.

(** A graph whose cells have a start size of 30 and the Rectangle
    object 7 as preferred size. *)
Definition sized_graph : PartialGraph Z :=
  {| getCurrentCellStyle := λ _ _, mkStyle None None (Some 30) None;
     getPreferredSizeForCell := λ _ _, Some 7%nat;
     isExtendParent := λ _ _, false;
     extendParent := λ g _, g;
     constrainChild := λ g _, g;
     isCellLocked := λ _ _, false |}.

(** The example document as a graph; A = 2 has a geometry object. *)
Definition example_graph : Graph Z :=
  mkGraph (update example_store 2%nat (with_geometry (Some 0%nat)))
    {[ 0%nat := Geometry.mk 10 20 100 50 None ]}
    ∅ 0 [] [] [] true true.

(** A view without cell states that reports the terminal fields of the
    example document. *)
Definition example_view : TerminalMixin.View unit :=
  {| TerminalMixin.getState := λ _, None;
     TerminalMixin.state_getVisibleTerminal := λ _ _, None;
     TerminalMixin.view_getVisibleTerminal := λ e b, getTerminal example_store e b |}.

(** Only the place in the tree differs: terminals, incident edges,
    collapsed flag and geometry are the same. *)
Definition same_links (s s' : Store) : Prop :=
  ∀ x, edges (cell s' x) = edges (cell s x)
       ∧ terminals (cell s' x) = terminals (cell s x)
       ∧ looks (cell s' x) = looks (cell s x).

(** ** Folding images *)

Module FoldingImages.

(** The part of [options] that [getFoldingImage] reads. *)
Record Options (Image : Type) := mkOptions {
  foldingEnabled : bool;
  collapsedImage : Image;
  expandedImage : Image;
}.
Arguments mkOptions {Image}.
Arguments foldingEnabled {Image}.
Arguments collapsedImage {Image}.
Arguments expandedImage {Image}.

Section Images.
Context {num : Type} `{Number num} `{PartialGraph num} {Image : Type}.

(** Modelled from the spec: a cell is a node or an edge (section 1);
    [isEdge] is the test [Cell.isEdge()], which the sources do not
    contain. *)
Variable isEdge : id → bool.

(** [isFoldingEnabled()] *)
Definition isFoldingEnabled (options : Options Image) : bool := foldingEnabled options.

(** [getFoldingImage(state)]; of the cell state only [state.cell] is
    read. *)
Definition getFoldingImage (options : Options Image) (g : Graph num) (state : option id)
  : option Image :=
  match state with
  | Some c =>
      if isFoldingEnabled options && negb (isEdge c) then
        let tmp := isCollapsed (store g) c in
        if FoldingMixin.isCellFoldable g c (negb tmp)
        then Some (if tmp then collapsedImage options else expandedImage options)
        else None
      else None
  | None => None
  end.

End Images.

End FoldingImages.

(** ** Starting and stopping the in-place editor *)

Module CellEditing.

(** The events the editing mixin fires, with their payload. *)
Inductive EditingEvent (MouseEvent : Type) :=
| START_EDITING (cell : id) (event : option MouseEvent)
| EDITING_STARTED (cell : id) (event : option MouseEvent)
| EDITING_STOPPED (cancel : bool).
Arguments START_EDITING {MouseEvent}.
Arguments EDITING_STARTED {MouseEvent}.
Arguments EDITING_STOPPED {MouseEvent}.

(** The plugin [CellEditorHandler] (handler/CellEditorHandler.ts is not
    among the sources) as the mixin uses it, and [isMultiTouchEvent] of
    util/EventUtils. *)
Class CellEditorHandler (Handler MouseEvent : Type) := {
  handler_startEditing : Handler → id → option MouseEvent → Handler;
  handler_stopEditing : Handler → bool → Handler;
  getEditingCell : Handler → option id;
  isMultiTouchEvent : MouseEvent → bool;
}.

(** What the editing functions read and write besides the graph: the
    plugin registered under the name CellEditorHandler, if any, the
    first selection cell, and the events fired so far. *)
Record Editor (Handler MouseEvent : Type) := mkEditor {
  plugin : option Handler;
  selectionCell : option id;
  fired : list (EditingEvent MouseEvent);
}.
Arguments mkEditor {Handler MouseEvent}.
Arguments plugin {Handler MouseEvent}.
Arguments selectionCell {Handler MouseEvent}.
Arguments fired {Handler MouseEvent}.

Section Editing.
Context {num : Type} `{PartialGraph num}.
Context {Handler MouseEvent : Type} `{CellEditorHandler Handler MouseEvent}.

(** [fireEvent(new EventObject(...))] *)
Definition fireEvent (ed : Editor Handler MouseEvent) (ev : EditingEvent MouseEvent)
  : Editor Handler MouseEvent :=
  mkEditor (plugin ed) (selectionCell ed) (fired ed ++ [ev]).

(** [cellEditorHandler?.m(...)]: the call is made when the plugin is
    there. *)
Definition with_plugin (f : Handler → Handler) (ed : Editor Handler MouseEvent)
  : Editor Handler MouseEvent :=
  mkEditor (f <$> plugin ed) (selectionCell ed) (fired ed).

(** [getSelectionCell()] *)
Definition getSelectionCell (ed : Editor Handler MouseEvent) : option id :=
  selectionCell ed.

(** [startEditingAtCell(cell = null, evt)]. In the branch without a
    cell the selection cell is assigned to the local variable and the
    function returns. *)
Definition startEditingAtCell (g : Graph num) (ed : Editor Handler MouseEvent)
    (cell : option id) (evt : option MouseEvent) : Editor Handler MouseEvent :=
  if match evt with
     | Some e => negb (isMultiTouchEvent e)
     | None => true
     end
  then
    match cell with
    | None =>
        let cell := getSelectionCell ed in
        let cell :=
          match cell with
          | Some c => if negb (EditingMixin.isCellEditable g c) then None else Some c
          | None => None
          end in
        ed
    | Some c =>
        let ed1 := fireEvent ed (START_EDITING c evt) in
        let ed2 := with_plugin (λ h, handler_startEditing h c evt) ed1 in
        fireEvent ed2 (EDITING_STARTED c evt)
    end
  else ed.

(** [startEditing(evt)] *)
Definition startEditing (g : Graph num) (ed : Editor Handler MouseEvent)
    (evt : option MouseEvent) : Editor Handler MouseEvent :=
  startEditingAtCell g ed None evt.

(** [stopEditing(cancel = false)] *)
Definition stopEditing (ed : Editor Handler MouseEvent) (cancel : bool)
  : Editor Handler MouseEvent :=
  let ed1 := with_plugin (λ h, handler_stopEditing h cancel) ed in
  fireEvent ed1 (EDITING_STOPPED cancel).

(** [isEditing(cell = null)] *)
Definition isEditing (ed : Editor Handler MouseEvent) (cell : option id) : bool :=
  let editingCell := plugin ed ≫= getEditingCell in
  match cell with
  | None => bool_decide (is_Some editingCell)
  | Some c => bool_decide (Some c = editingCell)
  end.

End Editing.

End CellEditing.

(** ** Specification-side notions for folding and terminals *)

(** The bounds of a geometry, without its alternate bounds. *)
Definition bounds_of {num} (geo : Geometry.t num) : Rectangle.t num :=
  Rectangle.mk (Geometry.x geo) (Geometry.y geo) (Geometry.width geo) (Geometry.height geo).

(** The size of a rectangle. *)
Definition size_of {num} (r : Rectangle.t num) : num * num :=
  (Rectangle.width r, Rectangle.height r).

(** The geometry object of a cell, if the cell has one. *)
Definition geometry_of {num} (g : Graph num) (c : id) : option (Geometry.t num) :=
  getGeometry (store g) c ≫= λ r, heap g !! r.

(** The cell a change record is about. *)
Definition change_cell (ch : Change) : id :=
  match ch with
  | CollapseChange c _ => c
  | GeometryChange c _ => c
  end.

(** From [g] to [g'] nothing happened to the cell [c]: its fields are
    the same, its geometry object, if it has one, is the same object
    with the same contents, and every change record added is about
    another cell. *)
Definition untouched {num} (c : id) (g g' : Graph num) : Prop :=
  cell (store g') c = cell (store g) c
  ∧ (∀ geo, geometry_of g c = Some geo → geometry_of g' c = Some geo)
  ∧ ∃ news, records g' = records g ++ news
            ∧ Forall (λ ch, change_cell ch ≠ c) news.

(** From [g] to [g'], inside an update scope: the scope is as deep as
    it was, nothing was committed, records were only added, and when
    none was added no collapsed flag changed. *)
Definition scoped {num} (g g' : Graph num) : Prop :=
  updateLevel g' = updateLevel g
  ∧ edits g' = edits g
  ∧ ∃ news, currentEdit g' = currentEdit g ++ news
            ∧ (news = [] → ∀ x, isCollapsed (store g') x = isCollapsed (store g) x).

(** The example graph holding the Rectangle object 7. *)
Definition sized_example_graph : Graph Z :=
  with_rectangles {[ 7%nat := Rectangle.mk 0 0 80 20 ]} example_graph.

(** The example graph with C = 4 collapsed already. *)
Definition mixed_graph : Graph Z :=
  with_store (update (store example_graph) 4%nat (with_collapsed true)) example_graph.

(** The style of [c] has no rotation in any state of the graph:
    [toRadians(style.rotation || 0)] is zero. *)
Definition unrotated {num} `{Number num} `{PartialGraph num} (c : id) : Prop :=
  ∀ g : Graph num,
    num_is_zero (toRadians (default num_zero (rotation (getCurrentCellStyle g c)))) = true.

(** The visible source or target of an edge as [getOpposites] obtains
    it: from the state of the edge if there is one, from the view
    otherwise. *)
Definition visible_terminal {CellState : Type} `{TerminalMixin.View CellState}
    (edge : id) (isSource : bool) : option id :=
  match TerminalMixin.getState edge with
  | Some st => TerminalMixin.state_getVisibleTerminal st isSource
  | None => TerminalMixin.view_getVisibleTerminal edge isSource
  end.

(** The edge [e] contributes [x] as an opposite of [terminal]. *)
Definition opposite_via {CellState : Type} `{TerminalMixin.View CellState}
    (terminal : option id) (includeSources includeTargets : bool) (e x : id) : Prop :=
  Some x ≠ terminal
  ∧ ((visible_terminal e true = terminal ∧ visible_terminal e false = Some x
      ∧ includeTargets = true)
     ∨ (visible_terminal e false = terminal ∧ visible_terminal e true = Some x
        ∧ includeSources = true)).

(** The loop invariant of [getOpposites] for membership: the
    dictionary registers exactly the collected cells. *)
Definition opposites_dict (acc : list id * gmap id bool) : Prop :=
  ∀ x, default false (acc.2 !! x) = true ↔ x ∈ acc.1.

(** * Proofs *)

Section ArrayFacts.
Context {A : Type} `{EqDecision A}.
Implicit Types (x y : A) (l : list A).

Lemma find_index_Some x l i :
  find_index x l = Some i → l !! i = Some x ∧ x ∉ take i l.
Proof.
  revert i. induction l as [|y l IH]; intros i; simpl; [done|].
  destruct (decide (y = x)) as [->|Hne].
  - intros [= <-]. split; [done|]. simpl. apply not_elem_of_nil.
  - destruct (find_index x l) as [k|] eqn:E; simpl; [|done].
    intros [= <-]. destruct (IH k eq_refl) as [H1 H2]. split; [done|].
    simpl. rewrite elem_of_cons. intros [->|?]; done.
Qed.

Lemma find_index_None x l : find_index x l = None ↔ x ∉ l.
Proof.
  induction l as [|y l IH]; simpl.
  - split; [intros _; apply not_elem_of_nil|done].
  - destruct (decide (y = x)) as [->|Hne].
    + split; [done|]. intros H. exfalso. apply H. left.
    + rewrite not_elem_of_cons. destruct (find_index x l); simpl.
      * split; [done|]. intros [_ H]. by apply IH in H.
      * split; [|done]. intros _. split; [done|]. by apply IH.
Qed.

Lemma find_index_elem x l : x ∈ l → ∃ i, find_index x l = Some i.
Proof.
  intros H. destruct (find_index x l) as [i|] eqn:E; [eauto|].
  by apply find_index_None in E.
Qed.

Lemma find_index_middle x l1 l2 :
  x ∉ l1 → find_index x (l1 ++ x :: l2) = Some (length l1).
Proof.
  induction l1 as [|y l1 IH]; simpl; intros H.
  - by rewrite decide_True.
  - apply not_elem_of_cons in H as [H1 H2].
    rewrite decide_False by done. by rewrite IH.
Qed.

Lemma splice_start_nat len (i : nat) :
  (i ≤ len)%nat → splice_start len (Z.of_nat i) = i.
Proof.
  intros H. unfold splice_start.
  destruct (Z.ltb_spec (Z.of_nat i) 0); lia.
Qed.

Lemma splice_start_le len z : (splice_start len z ≤ len)%nat.
Proof. unfold splice_start. destruct (Z.ltb_spec z 0); lia. Qed.

Lemma delete_middle l1 x l2 : delete (length l1) (l1 ++ x :: l2) = l1 ++ l2.
Proof. induction l1; simpl; [done|]. by f_equal. Qed.

Lemma indexOf_found x l i : find_index x l = Some i → indexOf x l = Z.of_nat i.
Proof. unfold indexOf. by intros ->. Qed.

Lemma indexOf_missing x l : x ∉ l → indexOf x l = -1.
Proof. intros H. apply find_index_None in H. unfold indexOf. by rewrite H. Qed.

Lemma indexOf_nonneg x l : 0 ≤ indexOf x l ↔ x ∈ l.
Proof.
  unfold indexOf. destruct (find_index x l) as [i|] eqn:E.
  - split; [|lia]. intros _. apply find_index_Some in E as [E _].
    by eapply list_elem_of_lookup_2.
  - apply find_index_None in E. split; [lia|done].
Qed.

Lemma splice_remove_found x l i :
  find_index x l = Some i → splice_remove l (Z.of_nat i) = delete i l.
Proof.
  intros H. apply find_index_Some in H as [H _].
  apply lookup_lt_Some in H. unfold splice_remove.
  rewrite splice_start_nat; [done|lia].
Qed.

Lemma splice_remove_indexOf x l :
  0 ≤ indexOf x l → splice_remove l (indexOf x l) = detach x l.
Proof.
  unfold indexOf, detach. destruct (find_index x l) as [i|] eqn:E; [|lia].
  intros _. by eapply splice_remove_found.
Qed.

Lemma at_index_indexOf x l : x ∈ l → at_index l (indexOf x l) = Some x.
Proof.
  intros [i E]%find_index_elem. rewrite (indexOf_found _ _ _ E).
  unfold at_index. destruct (Z.ltb_spec (Z.of_nat i) 0); [lia|].
  rewrite Nat2Z.id. by apply find_index_Some in E as [? _].
Qed.

Lemma detach_missing x l : x ∉ l → detach x l = l.
Proof. intros H. apply find_index_None in H. unfold detach. by rewrite H. Qed.

Lemma detach_sublist x l : sublist (detach x l) l.
Proof.
  unfold detach. destruct (find_index x l); [apply sublist_delete|done].
Qed.

Lemma detach_elem_ne x z l : z ≠ x → z ∈ detach x l ↔ z ∈ l.
Proof.
  intros Hne. unfold detach. destruct (find_index x l) as [i|] eqn:E; [|done].
  apply find_index_Some in E as [E _].
  rewrite <- (take_drop_middle l i x E) at 2.
  rewrite delete_take_drop, !elem_of_app, elem_of_cons. intuition done.
Qed.

Lemma detach_NoDup x l : NoDup l → x ∉ detach x l.
Proof.
  intros Hnd. unfold detach. destruct (find_index x l) as [i|] eqn:E.
  - apply find_index_Some in E as [E _].
    rewrite <- (take_drop_middle l i x E) in Hnd.
    apply NoDup_app in Hnd as (_ & H1 & H2). apply NoDup_cons in H2 as [H2 _].
    rewrite delete_take_drop, elem_of_app. intros [H|H]; [|done].
    apply (H1 x H). left.
  - by apply find_index_None.
Qed.

(** Inserting a new element with [splice] and removing its first
    occurrence gives the list back. *)
Lemma detach_splice_insert x l j : x ∉ l → detach x (splice_insert l j x) = l.
Proof.
  intros H. unfold detach, splice_insert.
  set (k := splice_start (length l) j).
  assert (Hk : (k ≤ length l)%nat) by apply splice_start_le.
  assert (Hx : x ∉ take k l).
  { intros Hin. apply H. by eapply subseteq_take. }
  rewrite (find_index_middle _ _ _ Hx).
  rewrite delete_middle. apply take_drop.
Qed.

(** Removing the first occurrence and inserting it again at its old
    index gives the list back. *)
Lemma splice_insert_detach x l :
  x ∈ l → splice_insert (detach x l) (indexOf x l) x = l.
Proof.
  intros [i E]%find_index_elem. unfold detach.
  rewrite (indexOf_found _ _ _ E), E.
  apply find_index_Some in E as [E _].
  pose proof (lookup_lt_Some _ _ _ E) as Hlt.
  unfold splice_insert. rewrite length_delete by eauto.
  rewrite splice_start_nat by lia.
  rewrite delete_take_drop.
  rewrite take_app_le by (rewrite length_take; lia).
  rewrite take_take, Nat.min_id.
  rewrite drop_app_ge by (rewrite length_take; lia).
  rewrite length_take, Nat.min_l by lia. rewrite Nat.sub_diag, drop_0.
  by apply take_drop_middle.
Qed.

Lemma elem_of_splice_insert x z l j : z ∈ splice_insert l j x ↔ z = x ∨ z ∈ l.
Proof.
  unfold splice_insert. set (k := splice_start (length l) j).
  rewrite <- (take_drop k l) at 3. rewrite !elem_of_app, elem_of_cons. tauto.
Qed.

End ArrayFacts.

(** ** The store *)

Section StoreFacts.
Implicit Types (s : Store) (c p x : id).

Lemma cell_update s c f x :
  cell (update s c f) x = if decide (x = c) then f (cell s c) else cell s x.
Proof.
  unfold cell, update. destruct (decide (x = c)) as [->|Hne].
  - by rewrite lookup_insert_eq.
  - by rewrite lookup_insert_ne.
Qed.

Lemma cell_update_eq s c f : cell (update s c f) c = f (cell s c).
Proof. rewrite cell_update. by rewrite decide_True. Qed.

Lemma cell_update_ne s c f x : x ≠ c → cell (update s c f) x = cell s x.
Proof. intros. rewrite cell_update. by rewrite decide_False. Qed.

Lemma cell_empty x : cell ∅ x = new_cell.
Proof. unfold cell. by rewrite lookup_empty. Qed.

Lemma wf_treeb_correct s : wf_treeb s = true → wf_tree s.
Proof.
  unfold wf_treeb. rewrite forallb_forall. intros H c p.
  assert (Hkey : ∀ k v, s !! k = Some v →
            NoDup (children v)
            ∧ (∀ ch, ch ∈ children v → parent (cell s ch) = Some k)
            ∧ (∀ q, parent v = Some q → k ∈ children (cell s q))).
  { intros k v Hkv. apply elem_of_map_to_list in Hkv.
    apply list_elem_of_In, H in Hkv. simpl in Hkv.
    apply andb_prop in Hkv as [Hkv H3]. apply andb_prop in Hkv as [H1 H2].
    apply bool_decide_eq_true in H1. split; [done|]. split.
    - intros ch Hch. rewrite forallb_forall in H2.
      apply list_elem_of_In, H2 in Hch. by apply bool_decide_eq_true in Hch.
    - intros q Hq. rewrite Hq in H3. by apply bool_decide_eq_true in H3. }
  split; [split|].
  - intros Hin. unfold cell in Hin at 1. destruct (s !! p) as [v|] eqn:E; simpl in Hin.
    + by apply (Hkey p v E).
    + by apply elem_of_nil in Hin.
  - intros Hp. unfold cell in Hp at 1. destruct (s !! c) as [v|] eqn:E; simpl in Hp.
    + by apply (Hkey c v E).
    + done.
  - unfold cell. destruct (s !! p) as [v|] eqn:E; simpl.
    + by apply (Hkey p v E).
    + apply NoDup_nil_2.
Qed.

Lemma wf_edgesb_correct s : wf_edgesb s = true → wf_edges s.
Proof.
  unfold wf_edgesb. rewrite forallb_forall. intros H t.
  unfold cell. destruct (s !! t) as [v|] eqn:E; simpl; [|apply NoDup_nil_2].
  apply elem_of_map_to_list, list_elem_of_In, H in E.
  by apply bool_decide_eq_true in E.
Qed.

End StoreFacts.

(** Closes an equation between two cells that are built from the fields
    of cells of the store. *)
Ltac cell_eta :=
  simplify_eq;
  unfold with_parent, with_children, with_source, with_target, with_edges,
    with_collapsed, with_geometry in *; simpl in *;
  repeat match goal with
         | |- context [cell ?s ?y] =>
             let E := fresh "E" in let cy := fresh "cy" in
             remember (cell s y) as cy eqn:E; destruct cy;
             repeat match goal with
                    | H : context [cell s y] |- _ => rewrite <- E in H
                    end;
             simpl in *
         end;
  simplify_eq; try done.

(** ** Reparenting *)

Section Reparent.
Implicit Types (s : Store) (c p x : id).

Lemma setParent_cell s c (o : option id) x :
  cell (setParent s c o) x = if decide (x = c) then with_parent o (cell s c) else cell s x.
Proof. apply cell_update. Qed.

(** [remove] at the index of a listed child. *)
Lemma remove_listed s p c :
  c ∈ children (cell s p) → p ≠ c →
  ∀ x, cell (remove s p (getIndex s p c)) x
       = if decide (x = c) then with_parent None (cell s c)
         else if decide (x = p) then with_children (detach c (children (cell s p))) (cell s p)
         else cell s x.
Proof.
  intros Hin Hne x. unfold remove, getIndex, getChildAt.
  pose proof (proj2 (indexOf_nonneg c (children (cell s p))) Hin) as Hidx.
  destruct (Z.leb_spec 0 (indexOf c (children (cell s p)))); [|lia].
  rewrite at_index_indexOf by done.
  rewrite splice_remove_indexOf by done.
  rewrite setParent_cell, !cell_update.
  repeat case_decide; subst; try done.
Qed.

Lemma remove_unlisted s p c :
  c ∉ children (cell s p) → remove s p (getIndex s p c) = s.
Proof.
  intros Hin. unfold remove, getIndex. rewrite indexOf_missing by done. done.
Qed.

(** The effect of [parentForCellChanged] on every cell, for a child
    whose parent link and listing agree. *)
Lemma parentForCellChanged_spec s c newp j :
  (∀ p, parent (cell s c) = Some p → c ∈ children (cell s p)) →
  parent (cell s c) ≠ Some c → newp ≠ Some c →
  (parentForCellChanged s c newp j).2 = parent (cell s c)
  ∧ ∀ x, cell (parentForCellChanged s c newp j).1 x
         = with_children (children_after s c newp j x)
             (if decide (x = c) then with_parent newp (cell s x) else cell s x).
Proof.
  intros Hlisted Hself Hnew. split; [done|]. intros x.
  unfold parentForCellChanged, children_after, getParent. simpl.
  destruct newp as [p|].
  - (* attach or move *)
    assert (Hpc : p ≠ c) by congruence.
    destruct (negb (bool_decide (Some p = parent (cell s c)))
              || negb (getIndex s p c =? j)) eqn:Hcond.
    + unfold insert, removeFromParent, getParent.
      destruct (parent (cell s c)) as [q|] eqn:Hq.
      * assert (Hqc : q ≠ c) by congruence.
        pose proof (remove_listed s q c (Hlisted q eq_refl) Hqc) as Hrem.
        unfold setParent. rewrite !cell_update, !Hrem.
        repeat (case_decide; simplify_eq; try done); cell_eta.
      * unfold setParent. rewrite !cell_update.
        repeat (case_decide; simplify_eq; try done); cell_eta.
    + apply orb_false_elim in Hcond as [H1 H2].
      apply negb_false_iff, bool_decide_eq_true in H1.
      apply negb_false_iff, Z.eqb_eq in H2.
      rewrite <- H1. subst j. unfold getIndex.
      destruct (decide (x = p)) as [->|Hxp].
      * rewrite !decide_True by done. rewrite decide_False by done.
        rewrite splice_insert_detach by (apply Hlisted; done). cell_eta.
      * rewrite !(decide_False (P := Some p = Some x)) by congruence.
        case_decide; cell_eta.
  - (* detach *)
    destruct (parent (cell s c)) as [q|] eqn:Hq.
    + assert (Hqc : q ≠ c) by congruence.
      rewrite (remove_listed s q c (Hlisted q eq_refl) Hqc).
      repeat (case_decide; simplify_eq; try done); cell_eta.
    + repeat (case_decide; simplify_eq; try done); cell_eta.
Qed.

End Reparent.

(** ** Terminals and incident edges *)

Section Connectivity.
Implicit Types (s : Store) (c e t x z : id) (b : bool).

Lemma setTerminal_cell s c o b x :
  cell (setTerminal s c o b) x
  = if decide (x = c) then with_terminal b o (cell s c) else cell s x.
Proof. unfold setTerminal. rewrite cell_update. by destruct b. Qed.

Lemma terminal_of_with_terminal b b' o cl :
  terminal_of b' (with_terminal b o cl)
  = if decide (b' = b) then o else terminal_of b' cl.
Proof. by destruct b, b'. Qed.

Lemma edges_with_terminal b o cl : edges (with_terminal b o cl) = edges cl.
Proof. by destruct b. Qed.

Lemma shape_with_terminal b o cl : shape (with_terminal b o cl) = shape cl.
Proof. by destruct b. Qed.

Lemma looks_with_terminal b o cl : looks (with_terminal b o cl) = looks cl.
Proof. by destruct b. Qed.

Lemma removeEdge_cell s t e b x :
  cell (removeEdge s t e b) x
  = (if decide (x = e) then with_terminal b None else λ cl, cl)
      ((if decide (x = t) then with_edges (edges_less s t e b) else λ cl, cl) (cell s x)).
Proof.
  unfold removeEdge, edges_less, getEdgeIndex.
  rewrite setTerminal_cell.
  destruct (decide (getTerminal s e (negb b) = Some t)) as [Ht|Ht].
  - repeat case_decide; subst; try done; cell_eta.
  - destruct (Z.leb_spec 0 (indexOf e (edges (cell s t)))) as [Hi|Hi].
    + rewrite splice_remove_indexOf by done. rewrite !cell_update.
      repeat case_decide; subst; done.
    + rewrite detach_missing by (rewrite <- indexOf_nonneg; lia).
      repeat case_decide; subst; try done; cell_eta.
Qed.

Lemma removeEdge_shape s t e b x :
  shape (cell (removeEdge s t e b) x) = shape (cell s x)
  ∧ looks (cell (removeEdge s t e b) x) = looks (cell s x).
Proof.
  rewrite removeEdge_cell.
  repeat case_decide; rewrite ?shape_with_terminal, ?looks_with_terminal; done.
Qed.

Lemma removeEdge_terminal s t e b x b' :
  terminal_of b' (cell (removeEdge s t e b) x)
  = if decide (x = e ∧ b' = b) then None else terminal_of b' (cell s x).
Proof.
  rewrite removeEdge_cell.
  repeat case_decide; rewrite ?terminal_of_with_terminal;
    repeat case_decide; destruct_and?; subst; try done; naive_solver.
Qed.

Lemma removeEdge_edges s t e b x :
  edges (cell (removeEdge s t e b) x)
  = if decide (x = t) then edges_less s t e b else edges (cell s x).
Proof.
  rewrite removeEdge_cell.
  repeat case_decide; rewrite ?edges_with_terminal; done.
Qed.

Lemma edges_less_sublist s t e b : sublist (edges_less s t e b) (edges (cell s t)).
Proof. unfold edges_less. case_decide; [done|apply detach_sublist]. Qed.

Lemma edges_less_ne s t e b z : z ≠ e → z ∈ edges_less s t e b ↔ z ∈ edges (cell s t).
Proof. intros. unfold edges_less. case_decide; [done|by apply detach_elem_ne]. Qed.

End Connectivity.

Section InsertEdge.
Implicit Types (s : Store) (c e t x z : id) (b : bool).

Lemma getTerminal_terminal_of s c b : getTerminal s c b = terminal_of b (cell s c).
Proof. done. Qed.

Lemma removeFromTerminal_shape s e b x :
  shape (cell (removeFromTerminal s e b) x) = shape (cell s x)
  ∧ looks (cell (removeFromTerminal s e b) x) = looks (cell s x).
Proof.
  unfold removeFromTerminal. destruct (getTerminal s e b); [|done].
  apply removeEdge_shape.
Qed.

Lemma removeFromTerminal_terminal s e b x b' :
  terminal_of b' (cell (removeFromTerminal s e b) x)
  = if decide (x = e ∧ b' = b) then None else terminal_of b' (cell s x).
Proof.
  unfold removeFromTerminal. destruct (getTerminal s e b) as [q|] eqn:E.
  - apply removeEdge_terminal.
  - case_decide as H; [|done]. destruct H as [-> ->]. by rewrite <- E.
Qed.

Lemma removeFromTerminal_ne s e b x z :
  z ≠ e → z ∈ edges (cell (removeFromTerminal s e b) x) ↔ z ∈ edges (cell s x).
Proof.
  intros Hne. unfold removeFromTerminal. destruct (getTerminal s e b) as [q|]; [|done].
  rewrite removeEdge_edges. case_decide; subst; [by apply edges_less_ne|done].
Qed.

Lemma removeFromTerminal_keep s e b x :
  e ∈ edges (cell s x) →
  getTerminal s e b ≠ Some x ∨ getTerminal s e (negb b) = Some x →
  e ∈ edges (cell (removeFromTerminal s e b) x).
Proof.
  intros Hin Hcase. unfold removeFromTerminal.
  destruct (getTerminal s e b) as [q|] eqn:E; [|done].
  rewrite removeEdge_edges. case_decide as Hx; [|done]. subst q.
  destruct Hcase as [?|Hother]; [done|].
  unfold edges_less. by rewrite decide_True.
Qed.

Lemma insertEdge_shape s t e b x :
  shape (cell (insertEdge s t e b) x) = shape (cell s x)
  ∧ looks (cell (insertEdge s t e b) x) = looks (cell s x).
Proof.
  unfold insertEdge.
  assert (H2 : ∀ y, shape (cell (setTerminal (removeFromTerminal s e b) e (Some t) b) y)
                    = shape (cell s y)
                  ∧ looks (cell (setTerminal (removeFromTerminal s e b) e (Some t) b) y)
                    = looks (cell s y)).
  { intros y. rewrite setTerminal_cell. case_decide; subst;
      rewrite ?shape_with_terminal, ?looks_with_terminal;
      apply removeFromTerminal_shape. }
  match goal with |- context [if ?g then _ else _] => destruct g end; [|apply H2].
  rewrite cell_update. case_decide; subst; [|apply H2].
  destruct (H2 t) as [<- <-]. done.
Qed.

Lemma insertEdge_terminal s t e b x b' :
  terminal_of b' (cell (insertEdge s t e b) x)
  = if decide (x = e ∧ b' = b) then Some t else terminal_of b' (cell s x).
Proof.
  unfold insertEdge.
  assert (H2 : ∀ y, terminal_of b' (cell (setTerminal (removeFromTerminal s e b) e (Some t) b) y)
                    = if decide (y = e ∧ b' = b) then Some t else terminal_of b' (cell s y)).
  { intros y. rewrite setTerminal_cell.
    destruct (decide (y = e)) as [->|Hy].
    - rewrite terminal_of_with_terminal, removeFromTerminal_terminal.
      repeat case_decide; destruct_and?; subst; try done; naive_solver.
    - rewrite removeFromTerminal_terminal.
      repeat case_decide; destruct_and?; subst; try done. }
  match goal with |- context [if ?g then _ else _] => destruct g end; [|apply H2].
  rewrite cell_update. destruct (decide (x = t)) as [->|Hxt]; [|apply H2].
  rewrite <- H2. by destruct b'.
Qed.

Lemma setTerminal_edges s c o b x :
  edges (cell (setTerminal s c o b) x) = edges (cell s x).
Proof.
  rewrite setTerminal_cell. case_decide; subst; [|done]. apply edges_with_terminal.
Qed.

Lemma insertEdge_in s t e b : e ∈ edges (cell (insertEdge s t e b) t).
Proof.
  unfold insertEdge.
  set (s2 := setTerminal (removeFromTerminal s e b) e (Some t) b).
  destruct (bool_decide _ || negb _ || (getEdgeIndex s2 t e <? 0)) eqn:Hc.
  - rewrite cell_update_eq. simpl. unfold push. rewrite elem_of_app, list_elem_of_singleton.
    by right.
  - apply orb_false_elim in Hc as [_ Hc]. apply Z.ltb_ge in Hc.
    by apply indexOf_nonneg in Hc.
Qed.

Lemma insertEdge_ne s t e b x z :
  z ≠ e → z ∈ edges (cell (insertEdge s t e b) x) ↔ z ∈ edges (cell s x).
Proof.
  intros Hne. unfold insertEdge.
  set (s2 := setTerminal (removeFromTerminal s e b) e (Some t) b).
  assert (H2 : ∀ y, z ∈ edges (cell s2 y) ↔ z ∈ edges (cell s y)).
  { intros y. unfold s2. rewrite setTerminal_edges. by apply removeFromTerminal_ne. }
  match goal with |- context [if ?g then _ else _] => destruct g end; [|apply H2].
  rewrite cell_update. case_decide; subst; [|apply H2].
  simpl. unfold push. rewrite elem_of_app, list_elem_of_singleton, H2.
  split; [intros [?|?]; [done|by subst]|by left].
Qed.

Lemma insertEdge_keep s t e b x :
  e ∈ edges (cell s x) →
  getTerminal s e b ≠ Some x ∨ getTerminal s e (negb b) = Some x →
  e ∈ edges (cell (insertEdge s t e b) x).
Proof.
  intros Hin Hcase. unfold insertEdge.
  set (s2 := setTerminal (removeFromTerminal s e b) e (Some t) b).
  assert (H2 : e ∈ edges (cell s2 x)).
  { unfold s2. rewrite setTerminal_edges. by apply removeFromTerminal_keep. }
  match goal with |- context [if ?g then _ else _] => destruct g end; [|apply H2].
  rewrite cell_update. case_decide; subst; [|apply H2].
  simpl. unfold push. rewrite elem_of_app. by left.
Qed.

End InsertEdge.

(** ** One step of the cascade *)

Section ConnectTerminals.
Implicit Types (s : Store) (c e t x z : id) (b : bool).

Lemma connect_terminals_unfold s c isConnect :
  ChildChange.connect_terminals s c isConnect
  = setTerminal (setTerminal (after_terminal_changes s c isConnect) c
                   (getTerminal s c true) true) c (getTerminal s c false) false.
Proof.
  unfold ChildChange.connect_terminals, after_terminal_changes, terminalForCellChanged.
  destruct isConnect; cbn [fst].
  - destruct (getTerminal s c true) as [src|] eqn:Es;
      destruct (getTerminal s c false) as [tgt|] eqn:Et; done.
  - destruct (getTerminal s c true) as [src|] eqn:Es.
    + destruct (getTerminal s c false) as [tgt|] eqn:Et; [|done].
      assert (getTerminal (removeEdge s src c true) c false = Some tgt) as ->; [|done].
      rewrite getTerminal_terminal_of, removeEdge_terminal.
      rewrite decide_False by (intros [_ ?]; done). done.
    + destruct (getTerminal s c false) as [tgt|] eqn:Et; done.
Qed.

Lemma after_terminal_changes_shape s c isConnect x :
  shape (cell (after_terminal_changes s c isConnect) x) = shape (cell s x)
  ∧ looks (cell (after_terminal_changes s c isConnect) x) = looks (cell s x).
Proof.
  unfold after_terminal_changes.
  destruct (getTerminal s c true) as [src|], (getTerminal s c false) as [tgt|], isConnect;
    repeat first [ rewrite (proj1 (insertEdge_shape _ _ _ _ _))
                 | rewrite (proj2 (insertEdge_shape _ _ _ _ _))
                 | rewrite (proj1 (removeEdge_shape _ _ _ _ _))
                 | rewrite (proj2 (removeEdge_shape _ _ _ _ _)) ]; done.
Qed.

Lemma after_terminal_changes_other s c isConnect x b :
  x ≠ c →
  terminal_of b (cell (after_terminal_changes s c isConnect) x) = terminal_of b (cell s x).
Proof.
  intros Hne. unfold after_terminal_changes.
  destruct (getTerminal s c true) as [src|], (getTerminal s c false) as [tgt|], isConnect;
    rewrite ?insertEdge_terminal, ?removeEdge_terminal;
    repeat (rewrite decide_False by (intros [? _]; done));
    rewrite ?insertEdge_terminal, ?removeEdge_terminal;
    repeat (rewrite decide_False by (intros [? _]; done)); done.
Qed.

(** The part of claim C8 that is local to one cell: [connect] leaves no
    field but the incident-edge lists changed. *)
Lemma connect_terminals_fields s c isConnect x :
  shape (cell (ChildChange.connect_terminals s c isConnect) x) = shape (cell s x)
  ∧ terminals (cell (ChildChange.connect_terminals s c isConnect) x) = terminals (cell s x)
  ∧ looks (cell (ChildChange.connect_terminals s c isConnect) x) = looks (cell s x).
Proof.
  rewrite connect_terminals_unfold, !setTerminal_cell.
  destruct (after_terminal_changes_shape s c isConnect x) as [Hs Hl].
  destruct (decide (x = c)) as [->|Hne].
  - split; [|split].
    + by rewrite !shape_with_terminal, decide_True.
    + rewrite decide_True by done. unfold terminals, getTerminal. simpl. done.
    + by rewrite !looks_with_terminal, decide_True.
  - split; [done|]. split; [|done].
    pose proof (after_terminal_changes_other s c isConnect x true Hne) as H1.
    pose proof (after_terminal_changes_other s c isConnect x false Hne) as H2.
    unfold terminals. simpl in *. by rewrite H1, H2.
Qed.

Lemma connect_terminals_edges s c isConnect x :
  edges (cell (ChildChange.connect_terminals s c isConnect) x)
  = edges (cell (after_terminal_changes s c isConnect) x).
Proof. by rewrite connect_terminals_unfold, !setTerminal_edges. Qed.

(** Only the membership of [c] itself changes. *)
Lemma connect_terminals_ne s c isConnect x z :
  z ≠ c →
  z ∈ edges (cell (ChildChange.connect_terminals s c isConnect) x) ↔ z ∈ edges (cell s x).
Proof.
  intros Hne. rewrite connect_terminals_edges. unfold after_terminal_changes.
  destruct (getTerminal s c true) as [src|], (getTerminal s c false) as [tgt|], isConnect;
    rewrite ?insertEdge_ne, ?removeEdge_edges by done;
    repeat (case_decide; subst; rewrite ?edges_less_ne by done);
    rewrite ?insertEdge_ne, ?removeEdge_edges by done;
    repeat (case_decide; subst; rewrite ?edges_less_ne by done); done.
Qed.

(** Disconnecting only shortens incident-edge lists. *)
Lemma disconnect_terminals_sublist s c x :
  sublist (edges (cell (ChildChange.connect_terminals s c false) x)) (edges (cell s x)).
Proof.
  rewrite connect_terminals_edges. unfold after_terminal_changes.
  assert (Hre : ∀ s' t e b y,
            sublist (edges (cell (removeEdge s' t e b) y)) (edges (cell s' y))).
  { intros. rewrite removeEdge_edges. case_decide; subst; [apply edges_less_sublist|done]. }
  destruct (getTerminal s c true) as [src|], (getTerminal s c false) as [tgt|];
    try done; try apply Hre.
  etrans; apply Hre.
Qed.

(** After the disconnecting step the cell is no longer listed with any
    of its terminals. *)
Lemma disconnect_terminals_severed s c b t :
  wf_edges s → getTerminal s c b = Some t →
  c ∉ edges (cell (ChildChange.connect_terminals s c false) t).
Proof.
  intros Hwf Hb. rewrite connect_terminals_edges. unfold after_terminal_changes.
  destruct (getTerminal s c false) as [tgt|] eqn:Et.
  - (* the target is processed second, when the source field is null *)
    set (s1 := match getTerminal s c true with
               | Some src => removeEdge s src c true | None => s end).
    assert (Hs1 : getTerminal s1 c true = None).
    { unfold s1. destruct (getTerminal s c true) as [src|] eqn:Es; [|done].
      rewrite getTerminal_terminal_of, removeEdge_terminal. by rewrite decide_True. }
    assert (Hsub : ∀ y, sublist (edges (cell s1 y)) (edges (cell s y))).
    { intros y. unfold s1. destruct (getTerminal s c true) as [src|]; [|done].
      rewrite removeEdge_edges. case_decide; subst; [apply edges_less_sublist|done]. }
    rewrite removeEdge_edges.
    destruct (decide (t = tgt)) as [->|Hne].
    + unfold edges_less. cbn [negb]. rewrite Hs1. rewrite decide_False by done.
      apply detach_NoDup. eapply sublist_NoDup; [apply Hwf|apply Hsub].
    + destruct b; [|congruence].
      unfold s1. rewrite Hb. rewrite removeEdge_edges, decide_True by done.
      unfold edges_less. cbn [negb]. rewrite Et.
      rewrite decide_False by congruence. apply detach_NoDup, Hwf.
  - destruct b; [|congruence]. rewrite Hb.
    rewrite removeEdge_edges, decide_True by done.
    unfold edges_less. cbn [negb]. rewrite Et. rewrite decide_False by done.
    apply detach_NoDup, Hwf.
Qed.

(** After the connecting step the cell is listed with each of its
    terminals. *)
Lemma connect_terminals_listed s c b t :
  getTerminal s c b = Some t →
  c ∈ edges (cell (ChildChange.connect_terminals s c true) t).
Proof.
  intros Hb. rewrite connect_terminals_edges. unfold after_terminal_changes.
  destruct (getTerminal s c false) as [tgt|] eqn:Et.
  - destruct b.
    + rewrite Hb. apply insertEdge_keep; [apply insertEdge_in|].
      right. cbn [negb]. rewrite getTerminal_terminal_of, insertEdge_terminal.
      by rewrite decide_True.
    + simplify_eq. apply insertEdge_in.
  - destruct b; [|congruence]. rewrite Hb. apply insertEdge_in.
Qed.

End ConnectTerminals.

(** ** The cascade *)

Section Cascade.
Implicit Types (s : Store) (c e t x z : id) (b : bool).

Lemma same_fields_refl s : same_fields s s.
Proof. by intros x. Qed.

Lemma same_fields_trans s1 s2 s3 :
  same_fields s1 s2 → same_fields s2 s3 → same_fields s1 s3.
Proof.
  intros H12 H23 x. destruct (H12 x) as (?&?&?), (H23 x) as (?&?&?).
  repeat split; congruence.
Qed.

Lemma same_fields_children s s' x :
  same_fields s s' → children (cell s' x) = children (cell s x).
Proof. intros H. destruct (H x) as (Hs&_). by inversion Hs. Qed.

Lemma same_fields_parent s s' x :
  same_fields s s' → parent (cell s' x) = parent (cell s x).
Proof. intros H. destruct (H x) as (Hs&_). by inversion Hs. Qed.

Lemma same_fields_terminal s s' x b :
  same_fields s s' → getTerminal s' x b = getTerminal s x b.
Proof.
  intros H. destruct (H x) as (_&Ht&_). unfold getTerminal.
  inversion Ht. by destruct b.
Qed.

Lemma connect_terminals_same s c b : same_fields s (ChildChange.connect_terminals s c b).
Proof. intros x. apply connect_terminals_fields. Qed.

Lemma preorder_ext n s s' c :
  (∀ x, children (cell s' x) = children (cell s x)) →
  preorder n s' c = preorder n s c.
Proof.
  intros H. revert c. induction n as [|n IH]; intros c; simpl; [done|].
  rewrite H. f_equal. induction (children (cell s c)) as [|y l IHl]; simpl; [done|].
  by rewrite IH, IHl.
Qed.

Lemma within_ext n s s' c :
  (∀ x, children (cell s' x) = children (cell s x)) →
  within n s' c = within n s c.
Proof.
  intros H. revert c. induction n as [|n IH]; intros c; simpl; [done|].
  rewrite H. induction (children (cell s c)) as [|y l IHl]; simpl; [done|].
  by rewrite IH, IHl.
Qed.

Lemma connect_S n s c b :
  ChildChange.connect (S n) s c b
  = '(s'', visited) ←
      ChildChange.for_each (connect_child (λ s1 ch, ChildChange.connect n s1 ch b) c)
        (seq 0 (getChildCount (ChildChange.connect_terminals s c b) c))
        (ChildChange.connect_terminals s c b);
    Some (s'', c :: visited).
Proof. done. Qed.

Lemma forallb_within_ext n s s' (l : list id) :
  (∀ x, children (cell s' x) = children (cell s x)) →
  forallb (within n s') l = forallb (within n s) l.
Proof.
  intros H. induction l as [|y l IH]; simpl; [done|].
  by rewrite (within_ext n s s'), IH.
Qed.

Lemma for_each_cons body (i : nat) rest s :
  ChildChange.for_each body (i :: rest) s
  = '(s1, l1) ← body s i;
    '(s2, l2) ← ChildChange.for_each body rest s1;
    Some (s2, l1 ++ l2).
Proof. done. Qed.

Lemma getChildAt_nat s c (i : nat) : getChildAt s c (Z.of_nat i) = children (cell s c) !! i.
Proof.
  unfold getChildAt, at_index. destruct (Z.ltb_spec (Z.of_nat i) 0); [lia|].
  by rewrite Nat2Z.id.
Qed.

(** Totality: when the subtree below [c] is at most [n] deep, [connect]
    returns, visits the subtree in preorder and changes no field except
    incident-edge lists. *)
Lemma connect_total n : ∀ s c b,
  within n s c = true →
  ∃ s', ChildChange.connect n s c b = Some (s', preorder n s c) ∧ same_fields s s'.
Proof.
  induction n as [|n IH]; intros s c b Hw; [done|].
  rewrite connect_S. simpl in Hw |- *.
  set (s0 := ChildChange.connect_terminals s c b).
  assert (H0 : same_fields s s0) by apply connect_terminals_same.
  assert (Hloop : ∀ rest k s1,
            same_fields s s1 →
            drop k (children (cell s c)) = rest →
            forallb (within n s) rest = true →
            ∃ s2, ChildChange.for_each (connect_child (λ s1 ch, ChildChange.connect n s1 ch b) c)
                    (seq k (length rest)) s1
                  = Some (s2, flat_map (preorder n s) rest)
                  ∧ same_fields s s2).
  { induction rest as [|y rest IHrest]; intros k s1 H1 Hdrop Hall.
    - exists s1. done.
    - simpl in Hall. apply andb_prop in Hall as [Hy Hall].
      assert (Hk : children (cell s c) !! k = Some y).
      { rewrite <- (Nat.add_0_r k), <- lookup_drop, Hdrop. done. }
      assert (Hch : ∀ x, children (cell s1 x) = children (cell s x))
        by (intros; by apply same_fields_children).
      destruct (IH s1 y b) as (s2 & Hc & H12).
      { by rewrite (within_ext n s s1). }
      cbn [length seq flat_map ChildChange.for_each]. unfold connect_child in *.
      rewrite getChildAt_nat, Hch, Hk. simpl. rewrite Hc. simpl.
      destruct (IHrest (S k) s2) as (s3 & Hrest & H3).
      + by eapply same_fields_trans.
      + rewrite (drop_S _ _ _ Hk) in Hdrop. by inversion Hdrop.
      + done.
      + rewrite Hrest. simpl. exists s3. split; [|done].
        by rewrite (preorder_ext n s s1). }
  destruct (Hloop (children (cell s c)) 0%nat s0 H0 eq_refl Hw) as (s2 & Hfe & H2).
  unfold getChildCount. rewrite (same_fields_children s s0 c H0).
  rewrite Hfe. simpl. by exists s2.
Qed.

End Cascade.

Section CascadeInvariant.
Implicit Types (s : Store) (c e t x z : id) (b : bool).

Variable b : bool.
Variable I : Store → Prop.
Variable Q : Store → id → Prop.
Hypothesis I_step : ∀ s c, I s → I (ChildChange.connect_terminals s c b).
Hypothesis Q_here : ∀ s c, I s → Q (ChildChange.connect_terminals s c b) c.
Hypothesis Q_step : ∀ s c x, I s → Q s x → Q (ChildChange.connect_terminals s c b) x.

(** An invariant [I] of the single steps is an invariant of the
    cascade, and a property [Q] that a step establishes for its cell and
    later steps preserve holds afterwards for every visited cell. *)
Lemma connect_visited n : ∀ s c s' tr,
  I s → ChildChange.connect n s c b = Some (s', tr) →
  I s' ∧ (∀ x, Q s x → Q s' x) ∧ (∀ x, x ∈ tr → Q s' x).
Proof.
  induction n as [|n IH]; intros s c s' tr HI Hc; [done|].
  rewrite connect_S in Hc.
  set (s0 := ChildChange.connect_terminals s c b) in *.
  assert (Hloop : ∀ idx s1 s2 l,
            I s1 →
            ChildChange.for_each
              (connect_child (λ s1 ch, ChildChange.connect n s1 ch b) c) idx s1
            = Some (s2, l) →
            I s2 ∧ (∀ x, Q s1 x → Q s2 x) ∧ (∀ x, x ∈ l → Q s2 x)).
  { induction idx as [|i idx IHidx]; intros s1 s2 l H1 Hfe.
    - simpl in Hfe. simplify_eq. split; [done|]. split; [done|].
      intros x Hx. by apply elem_of_nil in Hx.
    - rewrite for_each_cons in Hfe.
      destruct (connect_child _ c s1 i) as [[s1' l1]|] eqn:E1; [|done].
      simpl in Hfe.
      destruct (ChildChange.for_each _ idx s1') as [[s2' l2]|] eqn:E2; [|done].
      simpl in Hfe. simplify_eq.
      unfold connect_child in E1.
      destruct (getChildAt s1 c (Z.of_nat i)) as [ch|]; [|done]. simpl in E1.
      destruct (IH _ _ _ _ H1 E1) as (HI1 & HQ1 & Hl1).
      destruct (IHidx _ _ _ HI1 E2) as (HI2 & HQ2 & Hl2).
      split; [done|]. split; [by auto|].
      intros x [Hx|Hx]%elem_of_app; auto. }
  destruct (ChildChange.for_each _ _ s0) as [[s2 l]|] eqn:E; [|done].
  simpl in Hc. simplify_eq.
  destruct (Hloop _ _ _ _ (I_step s c HI) E) as (HI2 & HQ2 & Hl2).
  split; [done|]. split.
  - intros x Hx. apply HQ2. by apply Q_step.
  - intros x [->|Hx]%elem_of_cons; [|by auto].
    apply HQ2. by apply Q_here.
Qed.

End CascadeInvariant.

Section CascadeEdges.
Implicit Types (s : Store) (c e t x z : id) (b : bool).

(** A partial-correctness companion of [connect_total]. *)
Lemma connect_same_fields n s c b s' tr :
  ChildChange.connect n s c b = Some (s', tr) → same_fields s s'.
Proof.
  intros Hc.
  apply (connect_visited b (same_fields s) (λ _ _, True)) in Hc as [H _];
    [done| |done|done|apply same_fields_refl].
  intros s1 c1 H1. eapply same_fields_trans; [done|apply connect_terminals_same].
Qed.

(** Detaching: every visited cell is unlisted from its terminals. *)
Lemma disconnect_severed n s c s' tr :
  wf_edges s → ChildChange.connect n s c false = Some (s', tr) →
  wf_edges s'
  ∧ ∀ x b t, x ∈ tr → getTerminal s x b = Some t → x ∉ edges (cell s' t).
Proof.
  intros Hwf Hc.
  apply (connect_visited false
           (λ s1, wf_edges s1 ∧ same_fields s s1)
           (λ s1 x, ∀ b t, getTerminal s x b = Some t → x ∉ edges (cell s1 t)))
    in Hc as ([H1 _] & _ & H3).
  - split; [done|]. intros x b t Hx Hb. by apply (H3 x Hx b t).
  - intros s1 c1 [Hw1 Hs1]. split.
    + intros t. eapply sublist_NoDup; [apply Hw1|apply disconnect_terminals_sublist].
    + eapply same_fields_trans; [done|apply connect_terminals_same].
  - intros s1 c1 [Hw1 Hs1] b t Hb.
    apply (disconnect_terminals_severed s1 c1 b t Hw1).
    by rewrite (same_fields_terminal s s1).
  - intros s1 c1 x [Hw1 Hs1] HQ b t Hb Hin. apply (HQ b t Hb).
    eapply elem_of_sublist; [done|apply disconnect_terminals_sublist].
  - split; [done|apply same_fields_refl].
Qed.

(** Attaching: every visited cell is listed with its terminals. *)
Lemma connect_listed n s c s' tr :
  ChildChange.connect n s c true = Some (s', tr) →
  ∀ x b t, x ∈ tr → getTerminal s x b = Some t → x ∈ edges (cell s' t).
Proof.
  intros Hc.
  apply (connect_visited true
           (λ s1, same_fields s s1)
           (λ s1 x, ∀ b t, getTerminal s x b = Some t → x ∈ edges (cell s1 t)))
    in Hc as (_ & _ & H3).
  - intros x b t Hx Hb. by apply (H3 x Hx b t).
  - intros s1 c1 Hs1. eapply same_fields_trans; [done|apply connect_terminals_same].
  - intros s1 c1 Hs1 b t Hb.
    apply (connect_terminals_listed s1 c1 b t).
    by rewrite (same_fields_terminal s s1).
  - intros s1 c1 x Hs1 HQ b t Hb.
    destruct (decide (x = c1)) as [->|Hne].
    + apply (connect_terminals_listed s1 c1 b t).
      by rewrite (same_fields_terminal s s1).
    + rewrite connect_terminals_ne by done. by apply (HQ b t).
  - apply same_fields_refl.
Qed.

End CascadeEdges.

(** ** Executing a child change *)

Section Execute.
Implicit Types (s : Store) (c e t x z : id) (b : bool) (r : ChildChange.t).

Lemma within_local n : ∀ s s' c,
  (∀ x, x ∈ preorder n s c → children (cell s' x) = children (cell s x)) →
  within n s c = true →
  within n s' c = true ∧ preorder n s' c = preorder n s c.
Proof.
  induction n as [|n IH]; intros s s' c Hloc Hw; [done|].
  simpl in *. rewrite (Hloc c) by left.
  assert (Hsub : ∀ y, y ∈ children (cell s c) →
            ∀ x, x ∈ preorder n s y → children (cell s' x) = children (cell s x)).
  { intros y Hy x Hx. apply Hloc. right. apply list_elem_of_In, in_flat_map.
    exists y. split; by apply list_elem_of_In. }
  revert Hw Hsub. generalize (children (cell s c)) as l.
  induction l as [|y l IHl]; intros Hw Hsub; simpl in *; [done|].
  apply andb_prop in Hw as [Hy Hl].
  destruct (IH s s' y) as [-> Hp]; [apply Hsub; left|done|].
  destruct IHl as [-> Hq]; [done|intros y' Hy'; apply Hsub; by right|].
  split; [done|]. f_equal. rewrite Hp. f_equal. by inversion Hq.
Qed.

Lemma preorder_head n s c : within n s c = true → c ∈ preorder n s c.
Proof. destruct n; [done|]. intros _. left. Qed.

Lemma children_after_unrelated s c newp j x :
  parent (cell s c) ≠ Some x → newp ≠ Some x →
  children_after s c newp j x = children (cell s x).
Proof. intros. unfold children_after. by rewrite !decide_False. Qed.

Lemma children_after_ext s s' c newp j x :
  same_fields s s' → children_after s' c newp j x = children_after s c newp j x.
Proof.
  intros H. unfold children_after.
  by rewrite (same_fields_parent s s'), (same_fields_children s s').
Qed.

(** What one [execute] does, for a child whose parent link and listing
    agree and a target outside the child's subtree. *)
Lemma execute_spec n s r :
  let c := ChildChange.child r in
  (∀ p, parent (cell s c) = Some p → c ∈ children (cell s p)) →
  within n s c = true →
  outside n s c (parent (cell s c)) →
  outside n s c (ChildChange.previous r) →
  ∃ s1, ChildChange.execute n s r = Some (s1, executed s r)
    ∧ (∀ x, parent (cell s1 x)
            = if decide (x = c) then ChildChange.previous r else parent (cell s x))
    ∧ (∀ x, children (cell s1 x)
            = children_after s c (ChildChange.previous r) (ChildChange.previousIndex r) x)
    ∧ (∀ x, terminals (cell s1 x) = terminals (cell s x))
    ∧ (∀ x, looks (cell s1 x) = looks (cell s x))
    ∧ within n s1 c = true
    ∧ preorder n s1 c = preorder n s c
    ∧ (∀ s' tr, ChildChange.previous r = None →
         ChildChange.connect n s c false = Some (s', tr) →
         ∀ x, edges (cell s1 x) = edges (cell s' x))
    ∧ (ChildChange.previous r ≠ None →
         ∀ x b t, x ∈ preorder n s c → getTerminal s x b = Some t →
                  x ∈ edges (cell s1 t)).
Proof.
  intros c Hlisted Hw Hout1 Hout2.
  pose proof (preorder_head n s c Hw) as Hhead.
  assert (Hself : parent (cell s c) ≠ Some c).
  { intros E. by apply (Hout1 c E). }
  assert (Hnew : ChildChange.previous r ≠ Some c).
  { intros E. by apply (Hout2 c E). }
  unfold ChildChange.execute. fold c.
  destruct (ChildChange.previous r) as [p|] eqn:Eprev.
  - (* attach or move: reparent first, then reconnect *)
    cbn [mbind option_bind].
    destruct (parentForCellChanged_spec s c (Some p) (ChildChange.previousIndex r)
                Hlisted Hself Hnew) as [Hprev Hcell].
    destruct (parentForCellChanged s c (Some p) (ChildChange.previousIndex r))
      as [s2 tmp] eqn:Epf. simpl in Hprev, Hcell. subst tmp.
    assert (Hch2 : ∀ x, children (cell s2 x)
                        = children_after s c (Some p) (ChildChange.previousIndex r) x).
    { intros x. rewrite Hcell. done. }
    assert (Hloc : ∀ x, x ∈ preorder n s c → children (cell s2 x) = children (cell s x)).
    { intros x Hx. rewrite Hch2. apply children_after_unrelated.
      - intros E. by apply (Hout1 x E).
      - intros E. by apply (Hout2 x E). }
    destruct (within_local n s s2 c Hloc Hw) as [Hw2 Hp2].
    destruct (connect_total n s2 c true Hw2) as (s3 & Hc & Hsame).
    rewrite Hc. cbn [fmap option_fmap option_map mbind option_bind fst]. exists s3. split.
    { unfold executed. fold c. rewrite Eprev. done. }
    split; [|split; [|split; [|split; [|split; [|split; [|split]]]]]].
    + intros x. rewrite (same_fields_parent s2 s3), Hcell by done.
      case_decide; done.
    + intros x. by rewrite (same_fields_children s2 s3).
    + intros x. destruct (Hsame x) as (_ & -> & _). rewrite Hcell.
      case_decide; done.
    + intros x. destruct (Hsame x) as (_ & _ & ->). rewrite Hcell.
      case_decide; done.
    + rewrite <- Hw2. apply within_ext. intros x. by apply same_fields_children.
    + rewrite <- Hp2. apply preorder_ext. intros x. by apply same_fields_children.
    + done.
    + intros _ x b t Hx Hb.
      apply (connect_listed n s2 c s3 _ Hc x b t).
      * by rewrite Hp2.
      * rewrite <- Hb. unfold getTerminal. rewrite Hcell. case_decide; by destruct b.
  - (* detach: disconnect first, then reparent *)
    destruct (connect_total n s c false Hw) as (s0 & Hc & Hsame).
    rewrite Hc. cbn [fmap option_fmap option_map mbind option_bind fst].
    assert (Hlisted0 : ∀ p, parent (cell s0 c) = Some p → c ∈ children (cell s0 p)).
    { intros p. rewrite (same_fields_parent s s0), (same_fields_children s s0) by done.
      apply Hlisted. }
    assert (Hself0 : parent (cell s0 c) ≠ Some c)
      by (by rewrite (same_fields_parent s s0)).
    destruct (parentForCellChanged_spec s0 c None (ChildChange.previousIndex r)
                Hlisted0 Hself0 Hnew) as [Hprev Hcell].
    destruct (parentForCellChanged s0 c None (ChildChange.previousIndex r))
      as [s2 tmp] eqn:Epf. simpl in Hprev, Hcell. subst tmp.
    exists s2. split.
    { unfold executed, getParent. fold c.
      rewrite Eprev, (same_fields_parent s s0) by done. done. }
    assert (Hch2 : ∀ x, children (cell s2 x)
                        = children_after s c None (ChildChange.previousIndex r) x).
    { intros x. rewrite Hcell. simpl. by apply children_after_ext. }
    assert (Hloc : ∀ x, x ∈ preorder n s c → children (cell s2 x) = children (cell s x)).
    { intros x Hx. rewrite Hch2. apply children_after_unrelated; [|done].
      intros E. by apply (Hout1 x E). }
    destruct (within_local n s s2 c Hloc Hw) as [Hw2 Hp2].
    split; [|split; [|split; [|split; [|split; [|split; [|split]]]]]]; try done.
    + intros x. rewrite Hcell. rewrite <- (same_fields_parent s s0 x Hsame).
      case_decide; done.
    + intros x. destruct (Hsame x) as (_ & <- & _). rewrite Hcell.
      case_decide; done.
    + intros x. destruct (Hsame x) as (_ & _ & <-). rewrite Hcell.
      case_decide; done.
    + intros s' tr _ Hc' x. simplify_eq. rewrite Hcell. case_decide; done.
Qed.

End Execute.

Section Acyclic.
Implicit Types (s : Store) (c p x y : id).

Lemma within_mono n : ∀ s c, within n s c = true → within (S n) s c = true.
Proof.
  induction n as [|n IH]; intros s c Hw; [done|].
  change (forallb (within (S n) s) (children (cell s c)) = true).
  simpl in Hw. rewrite forallb_forall in Hw |- *. intros y Hy. by apply IH, Hw.
Qed.

Lemma preorder_fuel n : ∀ s c,
  within n s c = true → preorder (S n) s c = preorder n s c.
Proof.
  induction n as [|n IH]; intros s c Hw; [done|].
  change (c :: flat_map (preorder (S n) s) (children (cell s c))
          = c :: flat_map (preorder n s) (children (cell s c))).
  simpl in Hw. f_equal.
  induction (children (cell s c)) as [|y l IHl]; [done|].
  simpl in Hw. apply andb_prop in Hw as [Hy Hl].
  cbn [flat_map]. by rewrite IH, IHl.
Qed.

Lemma within_descendant n : ∀ s c x,
  within n s c = true → x ∈ preorder n s c → within n s x = true.
Proof.
  induction n as [|n IH]; intros s c x Hw Hx; [done|].
  cbn [preorder] in Hx. apply elem_of_cons in Hx as [->|Hx]; [done|].
  apply list_elem_of_In, in_flat_map in Hx as (y & Hy & Hx).
  simpl in Hw. rewrite forallb_forall in Hw.
  apply within_mono, (IH s y); [by apply Hw|by apply list_elem_of_In].
Qed.

(** In a well-formed forest of finite depth a cell's parent is not one
    of its descendants. *)
Lemma parent_outside n s c :
  wf_tree s → within n s c = true → outside n s c (parent (cell s c)).
Proof.
  intros Hwf Hw p Hp Hin.
  assert (Hchild : c ∈ children (cell s p)) by by apply (Hwf c p).
  induction n as [|n IH]; [done|]. apply IH.
  - (* the subtree is one level shallower than assumed *)
    cbn [preorder] in Hin. apply elem_of_cons in Hin as [->|Hin].
    + simpl in Hw. rewrite forallb_forall in Hw. by apply Hw, list_elem_of_In.
    + apply list_elem_of_In, in_flat_map in Hin as (y & Hy & Hin).
      simpl in Hw. rewrite forallb_forall in Hw.
      assert (Hwp : within n s p = true).
      { apply (within_descendant n s y); [by apply Hw|by apply list_elem_of_In]. }
      destruct n as [|n]; [done|]. apply within_mono.
      simpl in Hwp. rewrite forallb_forall in Hwp. by apply Hwp, list_elem_of_In.
  - assert (Hwn : within n s c = true).
    { cbn [preorder] in Hin. apply elem_of_cons in Hin as [->|Hin].
      + simpl in Hw. rewrite forallb_forall in Hw. by apply Hw, list_elem_of_In.
      + apply list_elem_of_In, in_flat_map in Hin as (y & Hy & Hin).
        simpl in Hw. rewrite forallb_forall in Hw.
        assert (Hwp : within n s p = true).
        { apply (within_descendant n s y); [by apply Hw|by apply list_elem_of_In]. }
        destruct n as [|n]; [done|]. apply within_mono.
        simpl in Hwp. rewrite forallb_forall in Hwp. by apply Hwp, list_elem_of_In. }
    by rewrite <- (preorder_fuel n s c Hwn).
Qed.

End Acyclic.

Section ExecuteTwice.
Implicit Types (s : Store) (c e t x z : id) (b : bool) (r : ChildChange.t).

(** Moving the child away and back restores every list of children. *)
Lemma children_round_trip s c newp j x :
  wf_tree s →
  (let l1 := children_after s c newp j x in
   let l0 := if decide (newp = Some x) then detach c l1 else l1 in
   if decide (parent (cell s c) = Some x)
   then splice_insert l0
          (match parent (cell s c) with
           | Some p => getIndex s p c
           | None => 0
           end) c
   else l0) = children (cell s x).
Proof.
  intros Hwf. destruct (Hwf c x) as [Hiff Hnd].
  unfold children_after. cbn zeta.
  destruct (decide (parent (cell s c) = Some x)) as [HP|HP].
  - rewrite HP. unfold getIndex.
    assert (Hin : c ∈ children (cell s x)) by by apply Hiff.
    destruct (decide (newp = Some x)) as [Hn|Hn].
    + rewrite detach_splice_insert by by apply detach_NoDup.
      by apply splice_insert_detach.
    + by apply splice_insert_detach.
  - assert (Hin : c ∉ children (cell s x)) by (intros Hin; by apply HP, Hiff).
    destruct (decide (newp = Some x)) as [Hn|Hn]; [|done].
    by apply detach_splice_insert.
Qed.

(** Two executions in a row: both return, and every parent link, list
    of children and terminal field is as before the first. The last three
    parts describe the incident-edge lists in between and afterwards. *)
Lemma execute_twice n s r :
  let c := ChildChange.child r in
  wf_tree s →
  within n s c = true →
  outside n s c (ChildChange.previous r) →
  ∃ s1 s2,
    ChildChange.execute n s r = Some (s1, executed s r)
    ∧ ChildChange.execute n s1 (executed s r) = Some (s2, executed s1 (executed s r))
    ∧ (∀ x, parent (cell s1 x)
            = if decide (x = c) then ChildChange.previous r else parent (cell s x))
    ∧ (∀ x, parent (cell s2 x) = parent (cell s x))
    ∧ (∀ x, children (cell s2 x) = children (cell s x))
    ∧ (∀ x, terminals (cell s1 x) = terminals (cell s x))
    ∧ (∀ x, terminals (cell s2 x) = terminals (cell s x))
    ∧ (ChildChange.previous r = None → wf_edges s →
         ∀ x b t, x ∈ preorder n s c → getTerminal s x b = Some t →
                  x ∉ edges (cell s1 t))
    ∧ (ChildChange.previous r ≠ None →
         ∀ x b t, x ∈ preorder n s c → getTerminal s x b = Some t →
                  x ∈ edges (cell s1 t))
    ∧ (getParent s c ≠ None →
         ∀ x b t, x ∈ preorder n s c → getTerminal s x b = Some t →
                  x ∈ edges (cell s2 t)).
Proof.
  intros c Hwf Hw Hout2.
  pose proof (parent_outside n s c Hwf Hw) as Hout1.
  assert (Hlisted : ∀ p, parent (cell s c) = Some p → c ∈ children (cell s p)).
  { intros p Hp. by apply (Hwf c p). }
  destruct (execute_spec n s r Hlisted Hw Hout1 Hout2)
    as (s1 & He1 & Hpar1 & Hch1 & Ht1 & _ & Hw1 & Hp1 & Hsev1 & Hlst1).
  fold c in Hpar1, Hch1, Hw1, Hp1, Hsev1, Hlst1.
  assert (Hc1 : parent (cell s1 c) = ChildChange.previous r).
  { rewrite Hpar1. by rewrite decide_True. }
  destruct (execute_spec n s1 (executed s r))
    as (s2 & He2 & Hpar2 & Hch2 & Ht2 & _ & _ & _ & _ & Hlst2).
  { simpl. fold c. intros p Hp. rewrite Hc1 in Hp.
    rewrite Hch1. unfold children_after. rewrite (decide_True (P := _ = Some p)) by done.
    apply elem_of_splice_insert. by left. }
  { done. }
  { simpl. fold c. rewrite Hc1. intros q Hq. rewrite Hp1. by apply Hout2. }
  { simpl. fold c. intros q Hq. rewrite Hp1. by apply Hout1. }
  simpl in Hpar2, Hch2, Hlst2. fold c in Hpar2, Hch2, Hlst2.
  assert (Hterm1 : ∀ x b, getTerminal s1 x b = getTerminal s x b).
  { intros x b. unfold getTerminal. specialize (Ht1 x). inversion Ht1. by destruct b. }
  exists s1, s2. split; [done|]. split; [done|]. split; [done|].
  split; [|split; [|split; [done|split; [|split; [|split]]]]].
  - intros x. rewrite Hpar2, Hpar1. case_decide; by subst.
  - intros x. rewrite Hch2. unfold children_after at 1.
    rewrite Hc1, Hch1. apply (children_round_trip s c _ _ x Hwf).
  - intros x. by rewrite Ht2.
  - intros Hnone Hwfe x b t Hx Hb.
    destruct (connect_total n s c false Hw) as (s' & Hc & _).
    rewrite (Hsev1 s' _ Hnone Hc).
    by apply (proj2 (disconnect_severed n s c s' _ Hwfe Hc) x b t).
  - done.
  - intros Hattached x b t Hx Hb. apply (Hlst2 Hattached x b t).
    + by rewrite Hp1.
    + by rewrite Hterm1.
Qed.

End ExecuteTwice.


(** ** Transactions *)

Section Transactions.
Context {num : Type}.
Implicit Types (g : Graph num).

Lemma records_endUpdate g : records (endUpdate g) = records g.
Proof.
  unfold endUpdate, records.
  destruct (Nat.pred (updateLevel g)); [|done].
  destruct (currentEdit g) as [|ch l]; simpl; [done|].
  rewrite concat_app. simpl. by rewrite !app_nil_r.
Qed.

Lemma store_endUpdate g : store (endUpdate g) = store g.
Proof.
  unfold endUpdate. destruct (Nat.pred (updateLevel g)); [|done].
  by destruct (currentEdit g).
Qed.

Lemma heap_endUpdate g : heap (endUpdate g) = heap g.
Proof.
  unfold endUpdate. destruct (Nat.pred (updateLevel g)); [|done].
  by destruct (currentEdit g).
Qed.

Lemma rectangles_endUpdate g : rectangles (endUpdate g) = rectangles g.
Proof.
  unfold endUpdate. destruct (Nat.pred (updateLevel g)); [|done].
  by destruct (currentEdit g).
Qed.

Lemma records_record_change g ch : records (record_change g ch) = records g ++ [ch].
Proof.
  unfold record_change. rewrite records_endUpdate.
  unfold records, beginUpdate. simpl. by rewrite app_assoc.
Qed.

Lemma store_record_change g ch : store (record_change g ch) = store g.
Proof. unfold record_change. by rewrite store_endUpdate. Qed.

Lemma heap_record_change g ch : heap (record_change g ch) = heap g.
Proof. unfold record_change. by rewrite heap_endUpdate. Qed.

Lemma rectangles_record_change g ch : rectangles (record_change g ch) = rectangles g.
Proof. unfold record_change. by rewrite rectangles_endUpdate. Qed.

Lemma records_begin_fire_end g ev :
  records (endUpdate (FoldingMixin.fireEvent (beginUpdate g) ev)) = records g.
Proof. by rewrite records_endUpdate. Qed.

Lemma isCollapsed_setCollapsed g c v x :
  isCollapsed (store (setCollapsed g c v)) x
  = if decide (x = c) then v else isCollapsed (store g) x.
Proof.
  unfold setCollapsed.
  destruct (eqb v (isCollapsed (store g) c)) eqn:E.
  - apply eqb_prop in E. case_decide; by subst.
  - rewrite store_record_change. unfold apply_change, isCollapsed. simpl.
    rewrite cell_update. case_decide; done.
Qed.

Lemma isCollapsed_setGeometry g c o x :
  isCollapsed (store (setGeometry g c o)) x = isCollapsed (store g) x.
Proof.
  unfold setGeometry. case_decide; [done|].
  rewrite store_record_change. unfold apply_change, isCollapsed. simpl.
  rewrite cell_update. case_decide; by subst.
Qed.

End Transactions.

(** ** Alternate bounds *)

Section AlternateBounds.
Context {num : Type} `{Number num} `{PartialGraph num}.
Implicit Types (g : Graph num) (c : id) (r : ref).

(** The object [updateAlternateBounds] leaves behind: the geometry with
    its own bounds and with alternate bounds [ab]. *)
Lemma updateAlternateBounds_object g c r w geo :
  heap g !! r = Some geo →
  ∃ ab,
    heap (FoldingMixin.updateAlternateBounds g (Some c) (Some r) w) !! r
    = Some (Geometry.with_alternateBounds (Some ab) geo)
    ∧ (∀ ab0, Geometry.alternateBounds geo = Some ab0 → size_of ab = size_of ab0)
    ∧ (Geometry.alternateBounds geo = None → collapseToPreferredSize g = false →
       size_of ab = size_of (bounds_of geo))
    ∧ (∀ t tmp, Geometry.alternateBounds geo = None → collapseToPreferredSize g = true →
       getPreferredSizeForCell g c = Some t → rectangles g !! t = Some tmp →
       Rectangle.width ab = Rectangle.width tmp
       ∧ (startSize (getCurrentCellStyle g c) = None →
          Rectangle.height ab = Rectangle.height tmp))
    ∧ (num_is_zero (toRadians (default num_zero (rotation (getCurrentCellStyle g c)))) = true →
       Rectangle.x ab = Geometry.x geo ∧ Rectangle.y ab = Geometry.y geo).
Proof.
  intros Hr. unfold FoldingMixin.updateAlternateBounds. rewrite Hr.
  destruct geo as [x y wd ht alt].
  repeat case_match; simplify_eq/=;
    (eexists; split; [apply lookup_insert_eq|]);
    cbn [Geometry.alternateBounds Geometry.with_alternateBounds
         Geometry.x Geometry.y Geometry.width Geometry.height] in *;
    simplify_eq/=; repeat split; intros; simplify_eq/=; try done.
Qed.

End AlternateBounds.

(** ** Swapping bounds *)

Section SwapBounds.
Context {num : Type} `{Number num} `{PartialGraph num}.
Implicit Types (g : Graph num) (c : id) (r : ref).

Lemma updateAlternateBounds_frame g oc r w :
  store (FoldingMixin.updateAlternateBounds g oc (Some r) w) = store g
  ∧ records (FoldingMixin.updateAlternateBounds g oc (Some r) w) = records g
  ∧ ∀ r', r' ≠ r →
      heap (FoldingMixin.updateAlternateBounds g oc (Some r) w) !! r' = heap g !! r'.
Proof.
  unfold FoldingMixin.updateAlternateBounds.
  destruct oc as [c|]; [|done]. destruct (heap g !! r) as [geo0|]; [|done].
  repeat case_match; simplify_eq;
    (split; [done|]; split; [done|]; intros r' Hne; simpl; by rewrite lookup_insert_ne).
Qed.

(** The one Rectangle object [updateAlternateBounds] can write is the
    one [getPreferredSizeForCell] returns: its height is raised to a
    positive start size. *)
Lemma updateAlternateBounds_rectangles g c r w :
  rectangles (FoldingMixin.updateAlternateBounds g (Some c) (Some r) w) = rectangles g
  ∨ ∃ t tmp size,
      getPreferredSizeForCell g c = Some t
      ∧ rectangles g !! t = Some tmp
      ∧ startSize (getCurrentCellStyle g c) = Some size
      ∧ num_positive size = true
      ∧ rectangles (FoldingMixin.updateAlternateBounds g (Some c) (Some r) w)
        = <[t := Rectangle.with_height (num_max (Rectangle.height tmp) size) tmp]>
            (rectangles g).
Proof.
  unfold FoldingMixin.updateAlternateBounds.
  destruct (heap g !! r) as [geo0|]; [|by left].
  repeat case_match; simplify_eq; try (by left);
    right; do 3 eexists; repeat split; done.
Qed.

Lemma swap_at_frame g r :
  store (FoldingMixin.swap_at g r) = store g
  ∧ records (FoldingMixin.swap_at g r) = records g
  ∧ ∀ r', r' ≠ r → heap (FoldingMixin.swap_at g r) !! r' = heap g !! r'.
Proof.
  split; [done|]. split; [done|]. intros r' Hne. simpl. by rewrite lookup_alter_ne.
Qed.

(** [swapBounds] on a cell without geometry does nothing. *)
Lemma swapBounds_no_geometry g c w :
  getGeometry (store g) c = None → FoldingMixin.swapBounds g c w = g.
Proof. unfold FoldingMixin.swapBounds. by intros ->. Qed.

(** [swapBounds] on a cell with geometry: one [setGeometry] with a new
    object; no existing object is written. *)
Lemma swapBounds_geometry g c w r0 geo0 :
  getGeometry (store g) c = Some r0 → heap g !! r0 = Some geo0 →
  let g' := FoldingMixin.swapBounds g c w in
  ∃ r', heap g !! r' = None
        ∧ getGeometry (store g') c = Some r'
        ∧ records g' = records g ++ [GeometryChange c (Some r0)]
        ∧ (∀ r, r ≠ r' → heap g' !! r = heap g !! r)
        ∧ (∀ x, cell (store g') x
                = if decide (x = c) then with_geometry (Some r') (cell (store g) c)
                  else cell (store g) x).
Proof.
  intros Hgeo Hobj. unfold FoldingMixin.swapBounds. rewrite Hgeo, Hobj.
  unfold FoldingMixin.clone.
  set (r' := fresh (dom (heap g))).
  assert (Hfresh : heap g !! r' = None).
  { apply not_elem_of_dom. apply is_fresh. }
  assert (Hne : r' ≠ r0) by congruence.
  set (g1 := with_heap (<[r' := geo0]> (heap g)) g).
  destruct (updateAlternateBounds_frame g1 (Some c) r' w) as (Hs2 & Hr2 & Hh2).
  set (g2 := FoldingMixin.updateAlternateBounds g1 (Some c) (Some r') w) in *.
  destruct (swap_at_frame g2 r') as (Hs3 & Hr3 & Hh3).
  set (g3 := FoldingMixin.swap_at g2 r') in *.
  assert (Hstore3 : store g3 = store g) by (by rewrite Hs3, Hs2).
  exists r'. cbn zeta. unfold setGeometry. rewrite Hstore3, Hgeo.
  rewrite decide_False by congruence.
  split; [done|]. split; [|split; [|split]].
  - rewrite store_record_change. unfold apply_change, getGeometry. simpl.
    by rewrite cell_update_eq.
  - rewrite records_record_change. f_equal.
    unfold apply_change, records. simpl. fold (records g2). by rewrite Hr2.
  - intros r Hr. rewrite heap_record_change. unfold apply_change. simpl.
    rewrite Hh3, Hh2 by done. unfold g1. simpl. by rewrite lookup_insert_ne.
  - intros x. rewrite store_record_change. unfold apply_change. simpl.
    rewrite cell_update. by rewrite Hs2.
Qed.

(** [swapBounds] on a cell with geometry, in full: the object set is
    new and holds the swap of a copy of the cell's geometry whose
    alternate bounds were updated. *)
Lemma swapBounds_clone g c w r0 geo0 :
  getGeometry (store g) c = Some r0 → heap g !! r0 = Some geo0 →
  let g' := FoldingMixin.swapBounds g c w in
  ∃ r' ab,
    heap g !! r' = None
    ∧ getGeometry (store g') c = Some r'
    ∧ heap g' !! r'
      = Some (Geometry.swap (Geometry.with_alternateBounds (Some ab) geo0))
    ∧ (∀ ab0, Geometry.alternateBounds geo0 = Some ab0 → size_of ab = size_of ab0)
    ∧ records g' = records g ++ [GeometryChange c (Some r0)]
    ∧ (∀ r, r ≠ r' → heap g' !! r = heap g !! r)
    ∧ (∀ x, cell (store g') x
            = if decide (x = c) then with_geometry (Some r') (cell (store g) c)
              else cell (store g) x)
    ∧ (∀ t, getPreferredSizeForCell (FoldingMixin.clone g geo0).1 c ≠ Some t →
            rectangles g' !! t = rectangles g !! t).
Proof.
  intros Hgeo Hobj. unfold FoldingMixin.swapBounds. rewrite Hgeo, Hobj.
  unfold FoldingMixin.clone.
  set (r' := fresh (dom (heap g))).
  assert (Hfresh : heap g !! r' = None).
  { apply not_elem_of_dom. apply is_fresh. }
  assert (Hne : r' ≠ r0) by congruence.
  set (g1 := with_heap (<[r' := geo0]> (heap g)) g).
  assert (H1 : heap g1 !! r' = Some geo0) by apply lookup_insert_eq.
  destruct (updateAlternateBounds_object g1 c r' w geo0 H1) as (ab & Hab & Hsize & _).
  destruct (updateAlternateBounds_frame g1 (Some c) r' w) as (Hs2 & Hr2 & Hh2).
  pose proof (updateAlternateBounds_rectangles g1 c r' w) as Hrect.
  set (g2 := FoldingMixin.updateAlternateBounds g1 (Some c) (Some r') w) in *.
  destruct (swap_at_frame g2 r') as (Hs3 & Hr3 & Hh3).
  set (g3 := FoldingMixin.swap_at g2 r') in *.
  assert (Hstore3 : store g3 = store g) by (by rewrite Hs3, Hs2).
  exists r', ab. cbn zeta. unfold setGeometry. rewrite Hstore3, Hgeo.
  rewrite decide_False by congruence.
  split; [done|]. split; [|split; [|split; [done|split; [|split; [|split]]]]].
  - rewrite store_record_change. unfold apply_change, getGeometry. simpl.
    by rewrite cell_update_eq.
  - rewrite heap_record_change. unfold apply_change. simpl.
    by rewrite lookup_alter_eq, Hab.
  - rewrite records_record_change. f_equal.
    unfold apply_change, records. simpl. fold (records g2). by rewrite Hr2.
  - intros r Hr. rewrite heap_record_change. unfold apply_change. simpl.
    rewrite Hh3, Hh2 by done. unfold g1. simpl. by rewrite lookup_insert_ne.
  - intros x. rewrite store_record_change. unfold apply_change. simpl.
    rewrite cell_update. by rewrite Hs2.
  - intros t Ht. rewrite rectangles_record_change. unfold apply_change. simpl.
    destruct Hrect as [->|(t' & tmp & size & Hp & _ & _ & _ & ->)]; [done|].
    rewrite lookup_insert_ne; [done|]. intros ->. by apply Ht.
Qed.

Lemma isCollapsed_swapBounds g c w x :
  isCollapsed (store (FoldingMixin.swapBounds g c w)) x = isCollapsed (store g) x.
Proof.
  destruct (getGeometry (store g) c) as [r0|] eqn:Hgeo;
    [|by rewrite swapBounds_no_geometry].
  destruct (heap g !! r0) as [geo0|] eqn:Hobj.
  - destruct (swapBounds_geometry g c w r0 geo0 Hgeo Hobj) as (r' & _ & _ & _ & _ & Hc).
    unfold isCollapsed. rewrite Hc. case_decide; by subst.
  - unfold FoldingMixin.swapBounds. by rewrite Hgeo, Hobj.
Qed.

End SwapBounds.

(** ** Folding cells *)

Section CellsFolded.
Context {num : Type} `{Number num} `{PartialGraph num}.
Implicit Types (g : Graph num) (c x : id).

(** What the proofs need of the two collaborators that resize and move
    cells: they do not touch collapsed flags. *)
Hypothesis extendParent_collapsed : ∀ g c x,
  isCollapsed (store (extendParent g c)) x = isCollapsed (store g) x.
Hypothesis constrainChild_collapsed : ∀ g c x,
  isCollapsed (store (constrainChild g c)) x = isCollapsed (store g) x.

Variables collapse recurse : bool.

Lemma fold_cell_settled rec chk g c :
  isCollapsed (store g) c = collapse →
  FoldingMixin.fold_cell rec collapse recurse chk g c = Some g.
Proof.
  intros Hc. unfold FoldingMixin.fold_cell. rewrite Hc.
  rewrite eqb_reflx. cbn [negb]. by rewrite andb_false_r.
Qed.

Lemma fold_cell_keeps rec chk c g x g' :
  (∀ g1 l g2, isCollapsed (store g1) c = collapse → rec g1 l = Some g2 →
              isCollapsed (store g2) c = collapse) →
  isCollapsed (store g) c = collapse →
  FoldingMixin.fold_cell rec collapse recurse chk g x = Some g' →
  isCollapsed (store g') c = collapse.
Proof.
  intros Hrec Hc Hf. unfold FoldingMixin.fold_cell in Hf.
  destruct (_ && _); [|by injection Hf as <-].
  set (g1 := setCollapsed g x collapse) in *.
  set (g2 := FoldingMixin.swapBounds g1 x collapse) in *.
  set (g3 := if isExtendParent g2 x then extendParent g2 x else g2) in *.
  assert (H3 : isCollapsed (store g3) c = collapse).
  { assert (H2 : isCollapsed (store g2) c = collapse).
    { unfold g2. rewrite isCollapsed_swapBounds. unfold g1.
      rewrite isCollapsed_setCollapsed. case_decide; done. }
    unfold g3. destruct (isExtendParent g2 x); [|done].
    by rewrite extendParent_collapsed. }
  destruct recurse.
  - destruct (rec g3 _) as [g4|] eqn:E; [|done]. simpl in Hf. injection Hf as <-.
    rewrite constrainChild_collapsed. by eapply Hrec.
  - simpl in Hf. injection Hf as <-. by rewrite constrainChild_collapsed.
Qed.

Lemma fold_loop_keeps rec chk c l : ∀ g g',
  (∀ g1 l g2, isCollapsed (store g1) c = collapse → rec g1 l = Some g2 →
              isCollapsed (store g2) c = collapse) →
  isCollapsed (store g) c = collapse →
  FoldingMixin.fold_loop rec collapse recurse chk l g = Some g' →
  isCollapsed (store g') c = collapse.
Proof.
  induction l as [|x l IH]; intros g g' Hrec Hc Hl; simpl in Hl; [by injection Hl as <-|].
  destruct (FoldingMixin.fold_cell rec collapse recurse chk g x) as [g1|] eqn:E; [|done].
  simpl in Hl. eapply IH; [done| |done]. by eapply fold_cell_keeps.
Qed.

Lemma cellsFolded_keeps c fuel : ∀ g cells chk g',
  isCollapsed (store g) c = collapse →
  FoldingMixin.cellsFolded fuel g cells collapse recurse chk = Some g' →
  isCollapsed (store g') c = collapse.
Proof.
  induction fuel as [|fuel IH]; intros g cells chk g' Hc Hf; [done|].
  cbn [FoldingMixin.cellsFolded] in Hf. destruct cells as [cs|]; [|by injection Hf as <-].
  case_bool_decide; [|by injection Hf as <-].
  unfold batchUpdate in Hf.
  match type of Hf with
  | context [FoldingMixin.fold_loop ?r _ _ _ _ _] =>
      destruct (FoldingMixin.fold_loop r collapse recurse chk cs (beginUpdate g))
        as [g2|] eqn:E; [|done]
  end.
  simpl in Hf. injection Hf as <-. rewrite store_endUpdate. simpl.
  eapply (fold_loop_keeps _ _ _ _ (beginUpdate g)); [|exact Hc|exact E].
  intros g1 l1 g3 Hg1 Hr. exact (IH g1 (Some l1) false g3 Hg1 Hr).
Qed.

Lemma fold_loop_app rec chk l1 l2 : ∀ g,
  FoldingMixin.fold_loop rec collapse recurse chk (l1 ++ l2) g
  = FoldingMixin.fold_loop rec collapse recurse chk l1 g
    ≫= FoldingMixin.fold_loop rec collapse recurse chk l2.
Proof.
  induction l1 as [|x l1 IH]; intros g; simpl; [done|].
  destruct (FoldingMixin.fold_cell rec collapse recurse chk g x); simpl; [apply IH|done].
Qed.

(** A cell whose flag already has the requested value can be taken out
    of the list without changing what the loop does. *)
Lemma fold_loop_skip fuel chk c l1 l2 g :
  isCollapsed (store g) c = collapse →
  let rec := λ g' children,
    FoldingMixin.cellsFolded fuel g' (Some children) collapse recurse false in
  FoldingMixin.fold_loop rec collapse recurse chk (l1 ++ c :: l2) g
  = FoldingMixin.fold_loop rec collapse recurse chk (l1 ++ l2) g.
Proof.
  intros Hc rec. rewrite !fold_loop_app.
  destruct (FoldingMixin.fold_loop rec collapse recurse chk l1 g) as [g1|] eqn:E; [|done].
  simpl. rewrite fold_cell_settled; [done|].
  eapply fold_loop_keeps; [|exact Hc|exact E].
  intros g2 l g3 H2 Hr. exact (cellsFolded_keeps c fuel g2 (Some l) false g3 H2 Hr).
Qed.

Lemma fold_loop_settled rec chk l : ∀ g,
  (∀ x, x ∈ l → isCollapsed (store g) x = collapse) →
  FoldingMixin.fold_loop rec collapse recurse chk l g = Some g.
Proof.
  induction l as [|x l IH]; intros g Hall; simpl; [done|].
  rewrite fold_cell_settled by (apply Hall; left). simpl.
  apply IH. intros y Hy. apply Hall. by right.
Qed.

(** A call in which every listed cell already has the requested flag
    only fires its event. *)
Lemma cellsFolded_settled fuel chk g cs :
  cs ≠ [] →
  (∀ y, y ∈ cs → isCollapsed (store g) y = collapse) →
  FoldingMixin.cellsFolded (S fuel) g (Some cs) collapse recurse chk
  = Some (endUpdate (FoldingMixin.fireEvent (beginUpdate g)
                       (CELLS_FOLDED cs collapse recurse))).
Proof.
  intros Hne Hall. cbn [FoldingMixin.cellsFolded].
  rewrite bool_decide_eq_true_2 by (destruct cs; [done|simpl; lia]).
  unfold batchUpdate. rewrite fold_loop_settled by done. done.
Qed.

End CellsFolded.

(** *** Totality of [cellsFolded] *)

Section CellsFoldedTotal.
Context {num : Type} `{Number num} `{PartialGraph num}.
Implicit Types (g : Graph num) (c x : id).

Hypothesis extendParent_children : ∀ g c x,
  children (cell (store (extendParent g c)) x) = children (cell (store g) x).
Hypothesis constrainChild_children : ∀ g c x,
  children (cell (store (constrainChild g c)) x) = children (cell (store g) x).

Variables collapse recurse : bool.

Lemma cellsFolded_S fuel g cells chk :
  FoldingMixin.cellsFolded (S fuel) g cells collapse recurse chk
  = match cells with
    | Some cs =>
        if bool_decide (0 < length cs)%nat then
          batchUpdate g (λ g1,
            g2 ← FoldingMixin.fold_loop
                   (λ g' children,
                      FoldingMixin.cellsFolded fuel g' (Some children) collapse recurse false)
                   collapse recurse chk cs g1;
            Some (FoldingMixin.fireEvent g2 (CELLS_FOLDED cs collapse recurse)))
        else Some g
    | None => Some g
    end.
Proof. done. Qed.

Lemma children_setCollapsed g c v x :
  children (cell (store (setCollapsed g c v)) x) = children (cell (store g) x).
Proof.
  unfold setCollapsed. destruct (eqb v _); [done|].
  rewrite store_record_change. unfold apply_change. simpl.
  rewrite cell_update. case_decide; by subst.
Qed.

Lemma children_swapBounds g c w x :
  children (cell (store (FoldingMixin.swapBounds g c w)) x) = children (cell (store g) x).
Proof.
  destruct (getGeometry (store g) c) as [r0|] eqn:Hgeo;
    [|by rewrite swapBounds_no_geometry].
  destruct (heap g !! r0) as [geo0|] eqn:Hobj.
  - destruct (swapBounds_geometry g c w r0 geo0 Hgeo Hobj) as (r' & _ & _ & _ & _ & Hc).
    rewrite Hc. case_decide; by subst.
  - unfold FoldingMixin.swapBounds. by rewrite Hgeo, Hobj.
Qed.

(** With one unit of fuel more than the depth of the listed subtrees
    [cellsFolded] returns, and it leaves the lists of children alone. *)
Lemma cellsFolded_total fuel : ∀ g cs chk,
  forallb (within fuel (store g)) cs = true →
  ∃ g', FoldingMixin.cellsFolded (S fuel) g (Some cs) collapse recurse chk = Some g'
        ∧ ∀ x, children (cell (store g') x) = children (cell (store g) x).
Proof.
  induction fuel as [|fuel IH]; intros g cs chk Hw.
  - destruct cs; [|done]. by exists g.
  - rewrite cellsFolded_S.
    case_bool_decide; [|by exists g].
    unfold batchUpdate.
    set (rec := λ g' children,
           FoldingMixin.cellsFolded (S fuel) g' (Some children) collapse recurse false).
    assert (Hloop : ∀ l g1,
              forallb (within (S fuel) (store g1)) l = true →
              ∃ g2, FoldingMixin.fold_loop rec collapse recurse chk l g1 = Some g2
                    ∧ ∀ x, children (cell (store g2) x) = children (cell (store g1) x)).
    { induction l as [|y l IHl]; intros g1 Hl; [by exists g1|].
      simpl in Hl. apply andb_prop in Hl as [Hy Hl].
      assert (Hcell : ∃ g2, FoldingMixin.fold_cell rec collapse recurse chk g1 y = Some g2
                ∧ ∀ x, children (cell (store g2) x) = children (cell (store g1) x)).
      { unfold FoldingMixin.fold_cell. destruct (_ && _); [|by exists g1].
        set (ga := setCollapsed g1 y collapse).
        set (gb := FoldingMixin.swapBounds ga y collapse).
        set (gc := if isExtendParent gb y then extendParent gb y else gb).
        assert (Hc : ∀ x, children (cell (store gc) x) = children (cell (store g1) x)).
        { intros x. unfold gc. destruct (isExtendParent gb y).
          - rewrite extendParent_children. unfold gb, ga.
            by rewrite children_swapBounds, children_setCollapsed.
          - unfold gb, ga. by rewrite children_swapBounds, children_setCollapsed. }
        destruct recurse.
        - destruct (IH gc (getChildren (store gc) y) false) as (gd & Hd & Hdc).
          { unfold getChildren. rewrite Hc.
            by rewrite (forallb_within_ext fuel (store g1) (store gc)). }
          unfold rec. rewrite Hd. simpl. eexists. split; [done|].
          intros x. by rewrite constrainChild_children, Hdc.
        - simpl. eexists. split; [done|]. intros x. by rewrite constrainChild_children. }
      destruct Hcell as (g2 & Hg2 & Hc2). simpl. rewrite Hg2. simpl.
      destruct (IHl g2) as (g3 & Hg3 & Hc3).
      { by rewrite (forallb_within_ext (S fuel) (store g1) (store g2)). }
      exists g3. split; [done|]. intros x. by rewrite Hc3. }
    destruct (Hloop cs (beginUpdate g) Hw) as (g2 & Hg2 & Hc2).
    rewrite Hg2. simpl. eexists. split; [done|].
    intros x. rewrite store_endUpdate. simpl. by rewrite Hc2.
Qed.

End CellsFoldedTotal.

(** ** Opposite terminals *)

(** *** A settled cell is left alone *)

Section FoldSettled.
Context {num : Type} `{Number num} `{PartialGraph num}.
Implicit Types (g : Graph num) (x y : id).

Variable c : id.

(** What the proofs need of the two collaborators: whatever cell they
    are called for, they leave the cell [c] alone. *)
Hypothesis Hext_c : ∀ g y, untouched c g (extendParent g y).
Hypothesis Hcon_c : ∀ g y, untouched c g (constrainChild g y).

Variables collapse recurse : bool.

Lemma untouched_refl g : untouched c g g.
Proof.
  split; [done|]. split; [done|]. exists []. by rewrite app_nil_r.
Qed.

Lemma untouched_trans g1 g2 g3 :
  untouched c g1 g2 → untouched c g2 g3 → untouched c g1 g3.
Proof.
  intros (Hc1 & Hg1 & n1 & Hr1 & Hn1) (Hc2 & Hg2 & n2 & Hr2 & Hn2).
  split; [congruence|]. split; [by intros geo Hgeo; apply Hg2, Hg1|].
  exists (n1 ++ n2). split; [by rewrite Hr2, Hr1, app_assoc|].
  by apply Forall_app.
Qed.

Lemma untouched_collapsed g g' :
  untouched c g g' → isCollapsed (store g') c = isCollapsed (store g) c.
Proof. intros (Hc & _). unfold isCollapsed. by rewrite Hc. Qed.

Lemma untouched_record g g' :
  store g' = store g → heap g' = heap g → records g' = records g →
  untouched c g g'.
Proof.
  intros Hs Hh Hr. unfold untouched, geometry_of. rewrite Hs, Hh, Hr.
  split; [done|]. split; [done|]. exists []. by rewrite app_nil_r.
Qed.

Lemma untouched_setCollapsed g y v : y ≠ c → untouched c g (setCollapsed g y v).
Proof.
  intros Hy. unfold setCollapsed. destruct (eqb v _); [apply untouched_refl|].
  unfold untouched, geometry_of.
  rewrite store_record_change, heap_record_change, records_record_change.
  unfold apply_change, getGeometry. simpl.
  rewrite cell_update_ne by done.
  split; [done|]. split; [done|].
  eexists. split; [done|]. apply Forall_singleton. simpl. done.
Qed.

Lemma untouched_swapBounds g y w : y ≠ c → untouched c g (FoldingMixin.swapBounds g y w).
Proof.
  intros Hy.
  destruct (getGeometry (store g) y) as [r0|] eqn:Hgeo;
    [|rewrite swapBounds_no_geometry by done; apply untouched_refl].
  destruct (heap g !! r0) as [geo0|] eqn:Hobj.
  - destruct (swapBounds_geometry g y w r0 geo0 Hgeo Hobj)
      as (r' & Hfresh & _ & Hrec & Hheap & Hcell).
    cbn zeta in Hrec, Hheap, Hcell.
    assert (Hc : cell (store (FoldingMixin.swapBounds g y w)) c = cell (store g) c).
    { rewrite Hcell. by rewrite decide_False. }
    split; [done|]. split.
    + unfold geometry_of, getGeometry. rewrite Hc. intros geo Hg.
      destruct (geometry (cell (store g) c)) as [r|]; [|done]. simpl in *.
      rewrite Hheap; [done|]. intros ->. congruence.
    + eexists. split; [exact Hrec|]. apply Forall_singleton. simpl. done.
  - unfold FoldingMixin.swapBounds. rewrite Hgeo, Hobj. apply untouched_refl.
Qed.

Lemma untouched_fold_cell rec chk g y g' :
  (∀ g1 l g2, isCollapsed (store g1) c = collapse → rec g1 l = Some g2 →
              untouched c g1 g2) →
  isCollapsed (store g) c = collapse →
  FoldingMixin.fold_cell rec collapse recurse chk g y = Some g' →
  untouched c g g'.
Proof.
  intros Hrec Hc Hf. unfold FoldingMixin.fold_cell in Hf.
  destruct (_ && _) eqn:Eg; [|injection Hf as <-; apply untouched_refl].
  apply andb_prop in Eg as [_ Eg]. apply negb_true_iff in Eg.
  assert (Hy : y ≠ c).
  { intros ->. rewrite Hc in Eg. by rewrite eqb_reflx in Eg. }
  pose proof (untouched_setCollapsed g y collapse Hy) as U1.
  set (g1 := setCollapsed g y collapse) in *.
  pose proof (untouched_swapBounds g1 y collapse Hy) as U2.
  set (g2 := FoldingMixin.swapBounds g1 y collapse) in *.
  set (g3 := if isExtendParent g2 y then extendParent g2 y else g2) in *.
  assert (U3 : untouched c g g3).
  { apply (untouched_trans _ g1); [done|]. apply (untouched_trans _ g2); [done|].
    unfold g3. destruct (isExtendParent g2 y); [apply Hext_c|apply untouched_refl]. }
  destruct recurse.
  - destruct (rec g3 _) as [g4|] eqn:E4; [|done]. simpl in Hf. injection Hf as <-.
    apply (untouched_trans _ g3); [done|]. apply (untouched_trans _ g4); [|apply Hcon_c].
    eapply Hrec; [|exact E4]. by rewrite (untouched_collapsed g g3).
  - simpl in Hf. injection Hf as <-.
    apply (untouched_trans _ g3); [done|]. apply Hcon_c.
Qed.

Lemma untouched_fold_loop rec chk l : ∀ g g',
  (∀ g1 l g2, isCollapsed (store g1) c = collapse → rec g1 l = Some g2 →
              untouched c g1 g2) →
  isCollapsed (store g) c = collapse →
  FoldingMixin.fold_loop rec collapse recurse chk l g = Some g' →
  untouched c g g'.
Proof.
  induction l as [|y l IH]; intros g g' Hrec Hc Hl; simpl in Hl.
  { injection Hl as <-. apply untouched_refl. }
  destruct (FoldingMixin.fold_cell rec collapse recurse chk g y) as [g1|] eqn:E; [|done].
  simpl in Hl. pose proof (untouched_fold_cell rec chk g y g1 Hrec Hc E) as U1.
  apply (untouched_trans _ g1); [done|].
  apply IH; [done| |done]. by rewrite (untouched_collapsed g g1).
Qed.

(** Whatever the list, [cellsFolded] leaves a cell alone whose flag has
    the requested value. *)
Lemma untouched_cellsFolded fuel : ∀ g cells chk g',
  isCollapsed (store g) c = collapse →
  FoldingMixin.cellsFolded fuel g cells collapse recurse chk = Some g' →
  untouched c g g'.
Proof.
  induction fuel as [|fuel IH]; intros g cells chk g' Hc Hf; [done|].
  rewrite cellsFolded_S in Hf.
  destruct cells as [cs|]; [|injection Hf as <-; apply untouched_refl].
  case_bool_decide; [|injection Hf as <-; apply untouched_refl].
  unfold batchUpdate in Hf.
  match type of Hf with
  | context [FoldingMixin.fold_loop ?r _ _ _ _ _] =>
      destruct (FoldingMixin.fold_loop r collapse recurse chk cs (beginUpdate g))
        as [g2|] eqn:E; [|done]
  end.
  simpl in Hf. injection Hf as <-.
  apply (untouched_trans _ (beginUpdate g)); [by apply untouched_record|].
  apply (untouched_trans _ g2).
  - eapply untouched_fold_loop; [|exact Hc|exact E].
    intros g1 l1 g3 Hg1 Hr. exact (IH g1 (Some l1) false g3 Hg1 Hr).
  - apply untouched_record.
    + by rewrite store_endUpdate.
    + by rewrite heap_endUpdate.
    + by rewrite records_endUpdate.
Qed.

End FoldSettled.

Section Opposites.
Context {CellState : Type} `{TerminalMixin.View CellState}.

Lemma opposites_inv_push terminal ts (d : gmap id bool) x :
  opposites_inv terminal (ts, d) →
  Some x ≠ terminal →
  opposites_inv terminal
    (if negb (default false (d !! x)) then (push ts x, <[x := true]> d) else (ts, d)).
Proof.
  intros (Hnd & Hd & Ht) Hx.
  destruct (default false (d !! x)) eqn:E; simpl; [done|].
  assert (Hfresh : x ∉ ts).
  { intros Hin. apply Hd in Hin. simpl in Hin. congruence. }
  unfold push. split; [|split]; simpl.
  - apply NoDup_app. split; [done|]. split; [|apply NoDup_singleton].
    intros y Hy ->%list_elem_of_singleton. done.
  - intros y [Hy| ->%list_elem_of_singleton]%elem_of_app.
    + rewrite lookup_insert_ne by (intros ->; done). by apply Hd.
    + by rewrite lookup_insert_eq.
  - intros y [Hy| ->%list_elem_of_singleton]%elem_of_app; [by apply Ht|done].
Qed.

Lemma opposite_step_inv terminal incS incT acc e :
  opposites_inv terminal acc →
  opposites_inv terminal (TerminalMixin.opposite_step terminal incS incT acc e).
Proof.
  intros Hinv. destruct acc as [ts d]. unfold TerminalMixin.opposite_step.
  set (source := match TerminalMixin.getState e with
                 | Some st => TerminalMixin.state_getVisibleTerminal st true
                 | None => TerminalMixin.view_getVisibleTerminal e true end).
  set (target := match TerminalMixin.getState e with
                 | Some st => TerminalMixin.state_getVisibleTerminal st false
                 | None => TerminalMixin.view_getVisibleTerminal e false end).
  destruct (bool_decide (source = terminal) && bool_decide (is_Some target)
            && negb (bool_decide (target = terminal)) && incT) eqn:E1.
  - apply andb_prop in E1 as [E1 _]. apply andb_prop in E1 as [_ E1].
    apply negb_true_iff, bool_decide_eq_false in E1.
    destruct target as [tgt|]; [|done]. by apply opposites_inv_push.
  - destruct (bool_decide (target = terminal) && bool_decide (is_Some source)
              && negb (bool_decide (source = terminal)) && incS) eqn:E2; [|done].
    apply andb_prop in E2 as [E2 _]. apply andb_prop in E2 as [_ E2].
    apply negb_true_iff, bool_decide_eq_false in E2.
    destruct source as [src|]; [|done]. by apply opposites_inv_push.
Qed.

Lemma getOpposites_inv edges terminal incS incT :
  opposites_inv terminal
    (foldl (TerminalMixin.opposite_step terminal incS incT) ([], ∅) edges).
Proof.
  assert (Hgen : ∀ acc, opposites_inv terminal acc →
            opposites_inv terminal
              (foldl (TerminalMixin.opposite_step terminal incS incT) acc edges)).
  { induction edges as [|e edges IH]; intros acc Hacc; simpl; [done|].
    by apply IH, opposite_step_inv. }
  apply Hgen. split; [apply NoDup_nil_2|]. split; intros x Hx; by apply elem_of_nil in Hx.
Qed.

End Opposites.

(** ** Child changes and the shape of the document *)

Section TreeInvariant.
Implicit Types (s : Store) (c p x : id) (r : ChildChange.t).

Lemma NoDup_splice_insert (l : list id) (j : Z) (x : id) :
  x ∉ l → NoDup l → NoDup (splice_insert l j x).
Proof.
  intros Hx Hnd. unfold splice_insert.
  set (k := splice_start (length l) j).
  rewrite <- (take_drop k l) in Hx, Hnd.
  apply NoDup_app in Hnd as (H1 & H2 & H3).
  rewrite elem_of_app in Hx.
  apply NoDup_app. split; [done|]. split.
  - intros y Hy [->|Hin]%elem_of_cons; [tauto|by apply (H2 y)].
  - apply NoDup_cons. split; [tauto|done].
Qed.

Lemma indexOf_splice_insert (l : list id) (j : Z) (x : id) :
  x ∉ l → indexOf x (splice_insert l j x) = Z.of_nat (splice_start (length l) j).
Proof.
  intros Hx. unfold splice_insert.
  set (k := splice_start (length l) j).
  assert (Hk : (k ≤ length l)%nat) by apply splice_start_le.
  assert (Hx' : x ∉ take k l) by (intros Hin; apply Hx; by eapply subseteq_take).
  rewrite (indexOf_found _ _ _ (find_index_middle x (take k l) (drop k l) Hx')).
  by rewrite length_take, Nat.min_l.
Qed.

(** Inserting again at the index the element landed on gives the same
    list. *)
Lemma splice_insert_landed (l : list id) (j : Z) (x : id) :
  x ∉ l →
  splice_insert l (indexOf x (splice_insert l j x)) x = splice_insert l j x.
Proof.
  intros Hx. rewrite indexOf_splice_insert by done.
  unfold splice_insert.
  by rewrite (splice_start_nat _ _ (splice_start_le (length l) j)).
Qed.

Lemma wf_tree_ext s s' :
  (∀ x, parent (cell s' x) = parent (cell s x)) →
  (∀ x, children (cell s' x) = children (cell s x)) →
  wf_tree s → wf_tree s'.
Proof. intros Hp Hc Hwf c p. rewrite Hp, Hc. apply Hwf. Qed.

(** The child is not listed under [x] once it is detached from it. *)
Lemma detached_unlisted s c x :
  wf_tree s →
  c ∉ (if decide (parent (cell s c) = Some x)
       then detach c (children (cell s x)) else children (cell s x)).
Proof.
  intros Hwf. destruct (Hwf c x) as [Hiff Hnd]. case_decide as HP.
  - by apply detach_NoDup.
  - intros Hin. by apply HP, Hiff.
Qed.

(** Moving a child keeps the forest well-formed. *)
Lemma wf_tree_moved s s1 c newp j :
  wf_tree s →
  (∀ x, parent (cell s1 x) = if decide (x = c) then newp else parent (cell s x)) →
  (∀ x, children (cell s1 x) = children_after s c newp j x) →
  wf_tree s1.
Proof.
  intros Hwf Hpar Hch c' p. rewrite Hpar, Hch.
  destruct (Hwf c' p) as [Hiff Hnd].
  pose proof (detached_unlisted s c p Hwf) as Hun.
  unfold children_after.
  set (l0 := if decide (parent (cell s c) = Some p)
             then detach c (children (cell s p)) else children (cell s p)) in *.
  assert (Hnd0 : NoDup l0).
  { unfold l0. case_decide; [|done].
    eapply sublist_NoDup; [exact Hnd|apply detach_sublist]. }
  assert (Hother : c' ≠ c → c' ∈ l0 ↔ parent (cell s c') = Some p).
  { intros Hne. unfold l0. case_decide; [|done]. by rewrite detach_elem_ne. }
  split.
  - destruct (decide (c' = c)) as [->|Hne].
    + destruct (decide (newp = Some p)) as [Hn|Hn].
      * split; [done|]. intros _. apply elem_of_splice_insert. by left.
      * split; [done|]. intros E. by destruct Hn.
    + destruct (decide (newp = Some p)) as [Hn|Hn]; [|by apply Hother].
      rewrite elem_of_splice_insert. rewrite (Hother Hne). split; [|by right].
      intros [?|?]; done.
  - destruct (decide (newp = Some p)); [|done]. by apply NoDup_splice_insert.
Qed.

(** One [execute] on a well-formed forest: the result, with the shape
    of the forest afterwards. *)
Lemma execute_once n s r :
  let c := ChildChange.child r in
  wf_tree s →
  within n s c = true →
  outside n s c (ChildChange.previous r) →
  ∃ s1, ChildChange.execute n s r = Some (s1, executed s r)
    ∧ (∀ x, parent (cell s1 x)
            = if decide (x = c) then ChildChange.previous r else parent (cell s x))
    ∧ (∀ x, children (cell s1 x)
            = children_after s c (ChildChange.previous r) (ChildChange.previousIndex r) x)
    ∧ (∀ x, terminals (cell s1 x) = terminals (cell s x))
    ∧ (∀ x, looks (cell s1 x) = looks (cell s x))
    ∧ within n s1 c = true
    ∧ preorder n s1 c = preorder n s c
    ∧ wf_tree s1.
Proof.
  intros c Hwf Hw Hout.
  pose proof (parent_outside n s c Hwf Hw) as Hout1.
  assert (Hlisted : ∀ p, parent (cell s c) = Some p → c ∈ children (cell s p)).
  { intros p Hp. by apply (Hwf c p). }
  destruct (execute_spec n s r Hlisted Hw Hout1 Hout)
    as (s1 & He & Hpar & Hch & Ht & Hl & Hw1 & Hp1 & _).
  exists s1. repeat (split; [done|]).
  by eapply wf_tree_moved.
Qed.

End TreeInvariant.

Section Redo.
Implicit Types (s : Store) (c p x : id) (r : ChildChange.t).

Lemma children_after_same s s' c newp j x :
  (∀ y, parent (cell s' y) = parent (cell s y)) →
  (∀ y, children (cell s' y) = children (cell s y)) →
  children_after s' c newp j x = children_after s c newp j x.
Proof. intros Hp Hc. unfold children_after. by rewrite Hp, Hc. Qed.

(** Three executions in a row: the third one repeats the move of the
    first. *)
Lemma execute_thrice n s r :
  let c := ChildChange.child r in
  wf_tree s →
  within n s c = true →
  outside n s c (ChildChange.previous r) →
  ∃ s1 s2 s3,
    ChildChange.execute n s r = Some (s1, executed s r)
    ∧ ChildChange.execute n s1 (executed s r) = Some (s2, executed s1 (executed s r))
    ∧ ChildChange.execute n s2 (executed s1 (executed s r))
      = Some (s3, executed s2 (executed s1 (executed s r)))
    ∧ (∀ x, parent (cell s3 x) = parent (cell s1 x))
    ∧ (∀ x, children (cell s3 x) = children (cell s1 x))
    ∧ (∀ x, terminals (cell s3 x) = terminals (cell s1 x)).
Proof.
  intros c Hwf Hw Hout.
  destruct (execute_twice n s r Hwf Hw Hout)
    as (s1 & s2 & He1 & He2 & Hpar1 & Hpar2 & Hch2 & Ht1 & Ht2 & _).
  destruct (execute_once n s r Hwf Hw Hout) as (s1' & He1' & _ & Hch1 & _).
  rewrite He1 in He1'. injection He1' as <-.
  fold c in Hpar1, Hch1.
  assert (Hc1 : parent (cell s1 c) = ChildChange.previous r).
  { rewrite Hpar1. by rewrite decide_True. }
  set (r2 := executed s1 (executed s r)).
  assert (Hprev2 : ChildChange.previous r2 = ChildChange.previous r) by exact Hc1.
  destruct (execute_once n s2 r2) as (s3 & He3 & Hpar3 & Hch3 & Ht3 & _).
  { by apply (wf_tree_ext s). }
  { change (within n s2 c = true). by rewrite (within_ext n s s2). }
  { change (outside n s2 c (ChildChange.previous r2)). rewrite Hprev2.
    intros q Hq. rewrite (preorder_ext n s s2) by done. by apply Hout. }
  change (ChildChange.child r2) with c in Hpar3, Hch3.
  exists s1, s2, s3. split; [done|]. split; [done|]. split; [done|].
  split; [|split].
  - intros x. rewrite Hpar3, Hprev2, Hpar2, Hpar1. done.
  - intros x. rewrite Hch3, Hch1, Hprev2.
    rewrite (children_after_same s s2) by done.
    unfold children_after. case_decide as Hn; [|done].
    assert (Hidx : ChildChange.previousIndex r2
                   = indexOf c (children (cell s1 x))).
    { unfold r2, executed, getParent, getIndex. simpl. fold c. by rewrite Hc1, Hn. }
    rewrite Hidx, Hch1. unfold children_after.
    rewrite (decide_True (P := ChildChange.previous r = Some x)) by done.
    apply splice_insert_landed. by apply detached_unlisted.
  - intros x. by rewrite Ht3, Ht2, Ht1.
Qed.

(** The child lands on the requested index when that index is in
    range. *)
Lemma execute_lands n s r p :
  let c := ChildChange.child r in
  wf_tree s →
  within n s c = true →
  outside n s c (ChildChange.previous r) →
  ChildChange.previous r = Some p →
  ∃ s1, ChildChange.execute n s r = Some (s1, executed s r)
    ∧ getParent s1 c = Some p
    ∧ getChildren s1 p
      = splice_insert (detach c (getChildren s p)) (ChildChange.previousIndex r) c
    ∧ getIndex s1 p c
      = Z.of_nat (splice_start (length (detach c (getChildren s p)))
                    (ChildChange.previousIndex r)).
Proof.
  intros c Hwf Hw Hout Hprev.
  destruct (execute_once n s r Hwf Hw Hout) as (s1 & He & Hpar & Hch & _).
  fold c in Hpar, Hch.
  assert (Hl0 : (if decide (parent (cell s c) = Some p)
                 then detach c (children (cell s p)) else children (cell s p))
                = detach c (children (cell s p))).
  { case_decide as HP; [done|]. symmetry. apply detach_missing.
    intros Hin. by apply HP, (Hwf c p). }
  assert (Hchp : children (cell s1 p)
                 = splice_insert (detach c (children (cell s p)))
                     (ChildChange.previousIndex r) c).
  { rewrite Hch. unfold children_after. rewrite Hl0.
    by rewrite (decide_True (P := ChildChange.previous r = Some p)). }
  exists s1. split; [done|]. split; [|split].
  - unfold getParent. rewrite Hpar. by rewrite decide_True.
  - done.
  - unfold getIndex, getChildren. rewrite Hchp. apply indexOf_splice_insert.
    rewrite <- Hl0. by apply detached_unlisted.
Qed.

End Redo.

(** ** Child changes and the incident edges *)

Section EdgesFrame.
Implicit Types (s : Store) (c e t x z : id) (b : bool) (r : ChildChange.t).

Lemma same_links_refl s : same_links s s.
Proof. by intros x. Qed.

Lemma same_links_trans s1 s2 s3 :
  same_links s1 s2 → same_links s2 s3 → same_links s1 s3.
Proof.
  intros H12 H23 x. destruct (H12 x) as (?&?&?), (H23 x) as (?&?&?).
  repeat split; congruence.
Qed.

Lemma same_links_with_parent s c o : same_links s (update s c (with_parent o)).
Proof. intros x. rewrite cell_update. case_decide; by subst. Qed.

Lemma same_links_with_children s c l : same_links s (update s c (with_children l)).
Proof. intros x. rewrite cell_update. case_decide; by subst. Qed.

Lemma same_links_remove s p i : same_links s (remove s p i).
Proof.
  unfold remove. destruct (0 <=? i); [|apply same_links_refl].
  destruct (getChildAt s p i); [|apply same_links_refl].
  eapply same_links_trans; [apply same_links_with_children|].
  apply same_links_with_parent.
Qed.

Lemma same_links_insert s p c i : same_links s (insert s p c i).
Proof.
  unfold insert, removeFromParent.
  eapply same_links_trans; [|apply same_links_with_children].
  eapply same_links_trans; [|apply same_links_with_parent].
  destruct (getParent s c); [apply same_links_remove|apply same_links_refl].
Qed.

(** Reparenting touches no terminal, no incident edge, no flag and no
    geometry. *)
Lemma parentForCellChanged_links s c o i :
  same_links s (parentForCellChanged s c o i).1.
Proof.
  unfold parentForCellChanged. simpl. destruct o as [p|].
  - destruct (_ || _); [apply same_links_insert|apply same_links_refl].
  - destruct (getParent s c); [apply same_links_remove|apply same_links_refl].
Qed.

(** The cascade changes the listing of the cells it visits only. *)
Lemma connect_outside n : ∀ s c b s' tr z x,
  ChildChange.connect n s c b = Some (s', tr) →
  z ∉ tr →
  z ∈ edges (cell s' x) ↔ z ∈ edges (cell s x).
Proof.
  induction n as [|n IH]; intros s c b s' tr z x Hc Hz; [done|].
  rewrite connect_S in Hc.
  set (s0 := ChildChange.connect_terminals s c b) in *.
  assert (Hloop : ∀ idx s1 s2 l,
            ChildChange.for_each
              (connect_child (λ s1 ch, ChildChange.connect n s1 ch b) c) idx s1
            = Some (s2, l) →
            z ∉ l → z ∈ edges (cell s2 x) ↔ z ∈ edges (cell s1 x)).
  { induction idx as [|i idx IHidx]; intros s1 s2 l Hfe Hl.
    - simpl in Hfe. by simplify_eq.
    - rewrite for_each_cons in Hfe.
      destruct (connect_child _ c s1 i) as [[s1' l1]|] eqn:E1; [|done].
      simpl in Hfe.
      destruct (ChildChange.for_each _ idx s1') as [[s2' l2]|] eqn:E2; [|done].
      simpl in Hfe. simplify_eq.
      unfold connect_child in E1.
      destruct (getChildAt s1 c (Z.of_nat i)) as [ch|]; [|done]. simpl in E1.
      rewrite elem_of_app in Hl.
      rewrite (IHidx _ _ _ E2) by tauto.
      apply (IH _ _ _ _ _ _ _ E1). tauto. }
  destruct (ChildChange.for_each _ _ s0) as [[s2 l]|] eqn:E; [|done].
  simpl in Hc. simplify_eq.
  rewrite elem_of_cons in Hz.
  rewrite (Hloop _ _ _ _ E) by tauto.
  apply connect_terminals_ne. intros ->. tauto.
Qed.

(** [insertEdge] with the terminal the edge already has keeps the
    incident-edge lists free of duplicates. *)
Lemma insertEdge_wf_edges s t e b :
  wf_edges s → getTerminal s e b = Some t → wf_edges (insertEdge s t e b).
Proof.
  intros Hwf Hb. unfold insertEdge, removeFromTerminal. rewrite Hb.
  set (s2 := setTerminal (removeEdge s t e b) e (Some t) b).
  assert (He2 : ∀ y, edges (cell s2 y)
                     = if decide (y = t) then edges_less s t e b else edges (cell s y)).
  { intros y. unfold s2. by rewrite setTerminal_edges, removeEdge_edges. }
  assert (Hwf2 : wf_edges s2).
  { intros y. rewrite He2. case_decide; [|apply Hwf].
    eapply sublist_NoDup; [apply Hwf|apply edges_less_sublist]. }
  destruct (bool_decide _ || negb _ || (getEdgeIndex s2 t e <? 0)) eqn:Hc; [|done].
  intros y. rewrite cell_update. destruct (decide (y = t)) as [->|Hy]; [|apply Hwf2]. simpl.
  unfold push. apply NoDup_app. split; [apply Hwf2|]. split; [|apply NoDup_singleton].
  intros y Hy ->%list_elem_of_singleton. revert Hy.
  destruct (decide (getTerminal s e (negb b) = Some t)) as [Hother|Hother].
  - (* the other end is [t] too: the edge is pushed only when unlisted *)
    assert (Ho2 : getTerminal s2 e (negb b) = Some t).
    { rewrite <- Hother. unfold s2. rewrite !getTerminal_terminal_of, setTerminal_cell.
      rewrite decide_True by done. rewrite terminal_of_with_terminal.
      rewrite decide_False by (by destruct b). rewrite removeEdge_terminal.
      rewrite decide_False; [done|]. intros [_ ?]. by destruct b. }
    rewrite Ho2 in Hc. rewrite (bool_decide_eq_true_2 _ eq_refl) in Hc. simpl in Hc.
    rewrite orb_false_r in Hc. apply orb_true_iff in Hc as [Hc|Hc].
    + apply bool_decide_eq_true in Hc. apply nil_length_inv in Hc. rewrite Hc.
      apply not_elem_of_nil.
    + apply Z.ltb_lt in Hc. unfold getEdgeIndex in Hc. intros Hin.
      apply indexOf_nonneg in Hin. lia.
  - rewrite He2, decide_True by done. unfold edges_less.
    rewrite decide_False by done. apply detach_NoDup, Hwf.
Qed.

Lemma connect_terminals_wf_edges s c b :
  wf_edges s → wf_edges (ChildChange.connect_terminals s c b).
Proof.
  intros Hwf. destruct b.
  - intros y. rewrite connect_terminals_edges. revert y.
    change (wf_edges (after_terminal_changes s c true)).
    unfold after_terminal_changes.
    destruct (getTerminal s c true) as [src|] eqn:Es.
    + assert (H1 : wf_edges (insertEdge s src c true)) by by apply insertEdge_wf_edges.
      destruct (getTerminal s c false) as [tgt|] eqn:Et; [|done].
      apply insertEdge_wf_edges; [done|].
      rewrite getTerminal_terminal_of, insertEdge_terminal.
      rewrite decide_False by (intros [_ ?]; done). done.
    + destruct (getTerminal s c false) as [tgt|] eqn:Et; [|done].
      by apply insertEdge_wf_edges.
  - intros y. eapply sublist_NoDup; [apply Hwf|apply disconnect_terminals_sublist].
Qed.

Lemma connect_wf_edges n s c b s' tr :
  wf_edges s → ChildChange.connect n s c b = Some (s', tr) → wf_edges s'.
Proof.
  intros Hwf Hc.
  apply (connect_visited b wf_edges (λ _ _, True)) in Hc as [H _];
    [done| |done|done|done].
  intros s1 c1. apply connect_terminals_wf_edges.
Qed.

(** The structure of a successful [execute]. *)
Lemma execute_inv n s r s1 r1 :
  ChildChange.execute n s r = Some (s1, r1) →
  (ChildChange.previous r = None
   ∧ ∃ s0 tr, ChildChange.connect n s (ChildChange.child r) false = Some (s0, tr)
              ∧ s1 = (parentForCellChanged s0 (ChildChange.child r) None
                        (ChildChange.previousIndex r)).1)
  ∨ (∃ p tr, ChildChange.previous r = Some p
             ∧ ChildChange.connect n
                 (parentForCellChanged s (ChildChange.child r) (Some p)
                    (ChildChange.previousIndex r)).1
                 (ChildChange.child r) true = Some (s1, tr)).
Proof.
  unfold ChildChange.execute. destruct (ChildChange.previous r) as [p|].
  - cbn [mbind option_bind].
    destruct (parentForCellChanged s _ (Some p) _) as [s2 tmp] eqn:Epf.
    destruct (ChildChange.connect n s2 _ true) as [[s3 tr]|] eqn:Ec; [|done].
    cbn [fmap option_fmap option_map mbind option_bind fst].
    intros [= <- <-]. right. exists p, tr. split; [done|]. by rewrite Epf.
  - destruct (ChildChange.connect n s _ false) as [[s0 tr]|] eqn:Ec; [|done].
    cbn [fmap option_fmap option_map mbind option_bind fst].
    destruct (parentForCellChanged s0 _ None _) as [s2 tmp] eqn:Epf.
    intros [= <- <-]. left. split; [done|]. exists s0, tr. split; [done|].
    by rewrite Epf.
Qed.

(** One [execute]: the incident-edge lists stay free of duplicates, and
    the listing of a cell outside the moved subtree is unchanged. *)
Lemma execute_edges n s r :
  let c := ChildChange.child r in
  wf_tree s →
  within n s c = true →
  outside n s c (ChildChange.previous r) →
  ∃ s1, ChildChange.execute n s r = Some (s1, executed s r)
    ∧ (wf_edges s → wf_edges s1)
    ∧ (∀ z x, z ∉ preorder n s c → z ∈ edges (cell s1 x) ↔ z ∈ edges (cell s x)).
Proof.
  intros c Hwf Hw Hout.
  destruct (execute_once n s r Hwf Hw Hout)
    as (s1 & He & _ & _ & _ & _ & Hw1 & Hp1 & _).
  fold c in Hw1, Hp1. exists s1. split; [done|].
  destruct (execute_inv n s r s1 _ He) as [(Hprev & s0 & tr & Hc & ->)|(p & tr & Hprev & Hc)];
    fold c in Hc |- *.
  - destruct (connect_total n s c false Hw) as (s0' & Hc' & _).
    rewrite Hc in Hc'. injection Hc' as <- ->.
    pose proof (parentForCellChanged_links s0 c None (ChildChange.previousIndex r)) as Hl.
    split.
    + intros Hwfe y. destruct (Hl y) as (-> & _).
      by apply (connect_wf_edges n s c false s0 _ Hwfe Hc).
    + intros z x Hz. destruct (Hl x) as (-> & _).
      by apply (connect_outside n s c false s0 _ z x Hc).
  - set (s2 := (parentForCellChanged s c (Some p) (ChildChange.previousIndex r)).1) in *.
    pose proof (parentForCellChanged_links s c (Some p) (ChildChange.previousIndex r)) as Hl.
    fold s2 in Hl.
    pose proof (connect_same_fields n s2 c true s1 tr Hc) as Hsame.
    assert (Hch : ∀ y, children (cell s1 y) = children (cell s2 y))
      by (intros; by apply same_fields_children).
    assert (Hw2 : within n s2 c = true) by (by rewrite <- (within_ext n s2 s1)).
    destruct (connect_total n s2 c true Hw2) as (s1' & Hc' & _).
    rewrite Hc in Hc'. injection Hc' as <- ->.
    rewrite <- (preorder_ext n s2 s1), Hp1 in Hc by done.
    split.
    + intros Hwfe. refine (connect_wf_edges n s2 c true s1 _ _ Hc).
      intros y. destruct (Hl y) as (-> & _). apply Hwfe.
    + intros z x Hz. rewrite (connect_outside n s2 c true s1 _ z x Hc Hz).
      by destruct (Hl x) as (-> & _).
Qed.

End EdgesFrame.

(** ** Edge lists over two executions *)

Section EdgesTwice.
Implicit Types (s : Store) (c e t x z : id) (b : bool).

(** [insertEdge] writes the incident edges of the new terminal and of
    the terminal the edge had, and of no other cell. *)
Lemma insertEdge_foreign s t e b x :
  x ≠ t → getTerminal s e b ≠ Some x →
  edges (cell (insertEdge s t e b) x) = edges (cell s x).
Proof.
  intros Hxt Hx. unfold insertEdge.
  set (s2 := setTerminal (removeFromTerminal s e b) e (Some t) b).
  assert (H2 : edges (cell s2 x) = edges (cell s x)).
  { unfold s2. rewrite setTerminal_edges. unfold removeFromTerminal.
    destruct (getTerminal s e b) as [q|]; [|done].
    rewrite removeEdge_edges. rewrite decide_False; [done|]. intros ->. done. }
  match goal with |- context [if ?g then _ else _] => destruct g end; [|done].
  by rewrite cell_update_ne.
Qed.

(** One step of the cascade writes the incident edges of the terminals
    of the cell, and of no other cell. *)
Lemma connect_terminals_foreign s c b x :
  getTerminal s c true ≠ Some x → getTerminal s c false ≠ Some x →
  edges (cell (ChildChange.connect_terminals s c b) x) = edges (cell s x).
Proof.
  intros Hs Ht. rewrite connect_terminals_edges. unfold after_terminal_changes.
  destruct (getTerminal s c true) as [src|] eqn:Es.
  - assert (Hx : x ≠ src) by congruence.
    set (s1 := if b then insertEdge s src c true else removeEdge s src c true).
    assert (H1 : edges (cell s1 x) = edges (cell s x)).
    { unfold s1. destruct b.
      - apply insertEdge_foreign; [done|]. by rewrite Es.
      - rewrite removeEdge_edges. by rewrite decide_False. }
    destruct (getTerminal s c false) as [tgt|] eqn:Et; [|done].
    assert (Hx' : x ≠ tgt) by congruence.
    rewrite <- H1. unfold s1. destruct b.
    + apply insertEdge_foreign; [done|].
      rewrite getTerminal_terminal_of, insertEdge_terminal.
      rewrite decide_False by (intros [_ ?]; done).
      rewrite <- getTerminal_terminal_of, Et. congruence.
    + rewrite removeEdge_edges. by rewrite decide_False.
  - destruct (getTerminal s c false) as [tgt|] eqn:Et; [|done].
    assert (Hx' : x ≠ tgt) by congruence.
    destruct b.
    + apply insertEdge_foreign; [done|]. by rewrite Et.
    + rewrite removeEdge_edges. by rewrite decide_False.
Qed.

(** The cascade lists a cell with, or takes it from, its own terminals
    only. *)
Lemma connect_foreign n : ∀ s c b s' tr z x,
  ChildChange.connect n s c b = Some (s', tr) →
  getTerminal s z true ≠ Some x → getTerminal s z false ≠ Some x →
  z ∈ edges (cell s' x) ↔ z ∈ edges (cell s x).
Proof.
  induction n as [|n IH]; intros s c b s' tr z x Hc Hs Ht; [done|].
  rewrite connect_S in Hc.
  pose proof (connect_terminals_same s c b) as Hsame0.
  set (s0 := ChildChange.connect_terminals s c b) in *.
  assert (Hloop : ∀ idx s1 s2 l,
            ChildChange.for_each
              (connect_child (λ s1 ch, ChildChange.connect n s1 ch b) c) idx s1
            = Some (s2, l) →
            getTerminal s1 z true ≠ Some x → getTerminal s1 z false ≠ Some x →
            z ∈ edges (cell s2 x) ↔ z ∈ edges (cell s1 x)).
  { induction idx as [|i idx IHidx]; intros s1 s2 l Hfe Hs1 Ht1.
    - simpl in Hfe. by simplify_eq.
    - rewrite for_each_cons in Hfe.
      destruct (connect_child _ c s1 i) as [[s1' l1]|] eqn:E1; [|done].
      simpl in Hfe.
      destruct (ChildChange.for_each _ idx s1') as [[s2' l2]|] eqn:E2; [|done].
      simpl in Hfe. simplify_eq.
      unfold connect_child in E1.
      destruct (getChildAt s1 c (Z.of_nat i)) as [ch|]; [|done]. simpl in E1.
      pose proof (connect_same_fields n s1 ch b s1' l1 E1) as Hsame.
      rewrite (IHidx _ _ _ E2).
      + by apply (IH _ _ _ _ _ _ _ E1).
      + by rewrite (same_fields_terminal s1 s1').
      + by rewrite (same_fields_terminal s1 s1'). }
  destruct (ChildChange.for_each _ _ s0) as [[s2 l]|] eqn:E; [|done].
  simpl in Hc. simplify_eq.
  rewrite (Hloop _ _ _ _ E).
  - destruct (decide (z = c)) as [->|Hne].
    + unfold s0. by rewrite connect_terminals_foreign.
    + by apply connect_terminals_ne.
  - by rewrite (same_fields_terminal s s0).
  - by rewrite (same_fields_terminal s s0).
Qed.

Lemma execute_foreign n s r s1 r1 z x :
  ChildChange.execute n s r = Some (s1, r1) →
  getTerminal s z true ≠ Some x → getTerminal s z false ≠ Some x →
  z ∈ edges (cell s1 x) ↔ z ∈ edges (cell s x).
Proof.
  intros He Hs Ht.
  destruct (execute_inv n s r s1 r1 He)
    as [(Hprev & s0 & tr & Hc & ->)|(p & tr & Hprev & Hc)].
  - pose proof (parentForCellChanged_links s0 (ChildChange.child r) None
                  (ChildChange.previousIndex r)) as Hl.
    destruct (Hl x) as (-> & _).
    by apply (connect_foreign n s _ false s0 tr z x Hc).
  - pose proof (parentForCellChanged_links s (ChildChange.child r) (Some p)
                  (ChildChange.previousIndex r)) as Hl.
    set (s2 := (parentForCellChanged s (ChildChange.child r) (Some p)
                  (ChildChange.previousIndex r)).1) in *.
    assert (Hterm : ∀ b, getTerminal s2 z b = getTerminal s z b).
    { intros b. destruct (Hl z) as (_ & Hz & _). unfold getTerminal.
      inversion Hz. by destruct b. }
    rewrite (connect_foreign n s2 _ true s1 tr z x Hc) by (by rewrite Hterm).
    by destruct (Hl x) as (-> & _).
Qed.

(** Two executions and the incident-edge lists: a cell outside the
    moved subtree stays listed where it was; when the moved cell was
    attached and every cell of the moved subtree was listed with each
    of its terminals, every list holds the cells it held. *)
Lemma execute_twice_edges n s r :
  let c := ChildChange.child r in
  wf_tree s →
  within n s c = true →
  outside n s c (ChildChange.previous r) →
  ∃ s1 s2,
    ChildChange.execute n s r = Some (s1, executed s r)
    ∧ ChildChange.execute n s1 (executed s r) = Some (s2, executed s1 (executed s r))
    ∧ (∀ z x, z ∉ preorder n s c → z ∈ edges (cell s2 x) ↔ z ∈ edges (cell s x))
    ∧ (wf_edges s → wf_edges s2)
    ∧ (getParent s c ≠ None →
       (∀ z b t, z ∈ preorder n s c → getTerminal s z b = Some t →
                 z ∈ edges (cell s t)) →
       ∀ z x, z ∈ edges (cell s2 x) ↔ z ∈ edges (cell s x)).
Proof.
  intros c Hwf Hw Hout.
  destruct (execute_twice n s r Hwf Hw Hout)
    as (s1 & s2 & He1 & He2 & _ & _ & _ & Ht1 & _ & _ & _ & Hlisted).
  destruct (execute_once n s r Hwf Hw Hout)
    as (s1' & He1' & _ & _ & _ & _ & Hw1 & Hp1 & Hwf1).
  rewrite He1 in He1'. injection He1' as <-.
  destruct (execute_edges n s r Hwf Hw Hout) as (s1' & He1' & Hwfe1 & Hout1).
  rewrite He1 in He1'. injection He1' as <-.
  fold c in Hw1, Hp1, Hout1, Hlisted.
  destruct (execute_edges n s1 (executed s r) Hwf1) as (s2' & He2' & Hwfe2 & Hout2).
  { exact Hw1. }
  { change (outside n s1 c (getParent s c)). intros q Hq. rewrite Hp1.
    by apply (parent_outside n s c Hwf Hw). }
  rewrite He2 in He2'. injection He2' as <-.
  change (ChildChange.child (executed s r)) with c in Hout2.
  rewrite Hp1 in Hout2.
  assert (Hterm1 : ∀ z b, getTerminal s1 z b = getTerminal s z b).
  { intros z b. unfold getTerminal. specialize (Ht1 z). inversion Ht1. by destruct b. }
  exists s1, s2. split; [done|]. split; [done|]. split; [|split].
  - intros z x Hz. by rewrite Hout2, Hout1.
  - intros Hwfe. by apply Hwfe2, Hwfe1.
  - intros Hatt Hcons z x.
    destruct (decide (z ∈ preorder n s c)) as [Hz|Hz]; [|by rewrite Hout2, Hout1].
    destruct (decide (getTerminal s z true = Some x)) as [Hs|Hs].
    { split; intros _; [by apply (Hcons z true x)|by apply (Hlisted Hatt z true x)]. }
    destruct (decide (getTerminal s z false = Some x)) as [Ht|Ht].
    { split; intros _; [by apply (Hcons z false x)|by apply (Hlisted Hatt z false x)]. }
    rewrite (execute_foreign n s1 _ s2 _ z x He2) by (by rewrite Hterm1).
    by apply (execute_foreign n s r s1 _ z x He1).
Qed.

End EdgesTwice.

(** * The claims *)

(** ** ChildChange *)

(** Claim C1, as stated, fails: the incident-edge lists are among what
    [execute] writes, and two calls do not restore them. In a
    consistent document, detaching the edge E = 5 and executing again
    leaves the lists of its terminals B = 3 and C = 4 in another order.
    In the state a detach of B leaves, where E has its terminal fields
    but is listed with neither terminal, moving E under C and executing
    again leaves E listed with C. *)
Lemma ChildChange_execute_twice_edge_lists_differ :
  (getEdges two_edge_store 3%nat, getEdges two_edge_store 4%nat)
  = ([5%nat; 6%nat], [5%nat; 6%nat])
  ∧ (ChildChange.execute 3 two_edge_store (ChildChange.new None 5%nat None)
     ≫= λ '(s1, r1), ChildChange.execute 3 s1 r1
     ≫= λ '(s2, _), Some (getEdges s2 3%nat, getEdges s2 4%nat))
    = Some ([6%nat; 5%nat], [6%nat; 5%nat])
  ∧ (ChildChange.execute 3 example_store (ChildChange.new None 3%nat None)
     ≫= λ '(s, _), ChildChange.execute 3 s (ChildChange.new (Some 4%nat) 5%nat (Some 0))
     ≫= λ '(s1, r1), ChildChange.execute 3 s1 r1
     ≫= λ '(s2, _), Some (getEdges s 4%nat, getEdges s2 4%nat))
    = Some ([], [5%nat]).
Proof. vm_compute. repeat split; reflexivity. Qed.

(** Claim C1, amended. For a child change [r] on a well-formed document
    whose target parent lies outside the moved subtree, two [execute]
    calls in a row both return and leave every parent link, every list
    of children (hence every child index) and every terminal field as it
    was before the first call. Of the incident-edge lists only this is
    restored: a cell outside the moved subtree stays listed exactly
    where it was, and when the moved cell was attached and every cell of
    the moved subtree was listed with each of its terminals, every list
    holds the cells it held, in an order that may differ. *)
Theorem ChildChange_execute_twice_restores (n : nat) (s : Store) (r : ChildChange.t) :
  wf_tree s →
  within n s (ChildChange.child r) = true →
  outside n s (ChildChange.child r) (ChildChange.previous r) →
  ∃ s1 r1 s2 r2,
    ChildChange.execute n s r = Some (s1, r1)
    ∧ ChildChange.execute n s1 r1 = Some (s2, r2)
    ∧ (∀ x, getParent s2 x = getParent s x)
    ∧ (∀ x, getChildren s2 x = getChildren s x)
    ∧ (∀ x y, getIndex s2 x y = getIndex s x y)
    ∧ (∀ x b, getTerminal s2 x b = getTerminal s x b)
    ∧ (∀ z x, z ∉ preorder n s (ChildChange.child r) →
              z ∈ getEdges s2 x ↔ z ∈ getEdges s x)
    ∧ (getParent s (ChildChange.child r) ≠ None →
       (∀ z b t, z ∈ preorder n s (ChildChange.child r) →
                 getTerminal s z b = Some t → z ∈ getEdges s t) →
       (∀ z x, z ∈ getEdges s2 x ↔ z ∈ getEdges s x)
       ∧ (wf_edges s → ∀ x, getEdges s2 x ≡ₚ getEdges s x)).
Proof.
  intros Hwf Hw Hout.
  destruct (execute_twice n s r Hwf Hw Hout)
    as (s1 & s2 & He1 & He2 & _ & Hpar & Hch & _ & Ht & _).
  destruct (execute_twice_edges n s r Hwf Hw Hout)
    as (s1' & s2' & He1' & He2' & Hout2 & Hwfe & Hmem).
  rewrite He1 in He1'. injection He1' as <-.
  rewrite He2 in He2'. injection He2' as <-.
  exists s1, (executed s r), s2, (executed s1 (executed s r)).
  split; [done|]. split; [done|]. split; [done|]. split; [done|].
  split; [|split; [|split]].
  - intros x y. unfold getIndex. by rewrite Hch.
  - intros x b. unfold getTerminal. specialize (Ht x). inversion Ht. by destruct b.
  - exact Hout2.
  - intros Hatt Hcons. split; [by apply Hmem|].
    intros Hwfe0 x. apply NoDup_Permutation.
    + by apply Hwfe.
    + apply Hwfe0.
    + intros z. by apply Hmem.
Qed.

Lemma ChildChange_execute_twice_restores_witness :
  ∃ s1 r1 s2 r2,
    ChildChange.execute 3 two_edge_store (ChildChange.new None 5%nat None) = Some (s1, r1)
    ∧ ChildChange.execute 3 s1 r1 = Some (s2, r2)
    ∧ (∀ x, getParent s2 x = getParent two_edge_store x)
    ∧ (∀ x, getChildren s2 x = getChildren two_edge_store x)
    ∧ (∀ x y, getIndex s2 x y = getIndex two_edge_store x y)
    ∧ (∀ x b, getTerminal s2 x b = getTerminal two_edge_store x b)
    ∧ (∀ z x, z ∉ preorder 3 two_edge_store 5%nat →
              z ∈ getEdges s2 x ↔ z ∈ getEdges two_edge_store x)
    ∧ (∀ z x, z ∈ getEdges s2 x ↔ z ∈ getEdges two_edge_store x)
    ∧ (∀ x, getEdges s2 x ≡ₚ getEdges two_edge_store x).
Proof.
  destruct (ChildChange_execute_twice_restores 3 two_edge_store
              (ChildChange.new None 5%nat None))
    as (s1 & r1 & s2 & r2 & He1 & He2 & Hp & Hc & Hi & Ht & Ho & Hm).
  - apply wf_treeb_correct. vm_compute. reflexivity.
  - vm_compute. reflexivity.
  - intros q [=].
  - exists s1, r1, s2, r2.
    split; [exact He1|]. split; [exact He2|]. split; [exact Hp|]. split; [exact Hc|].
    split; [exact Hi|]. split; [exact Ht|]. split; [exact Ho|].
    destruct Hm as [Hmem Hperm].
    + vm_compute. discriminate.
    + intros z b t Hz Hb.
      change (preorder 3 two_edge_store 5%nat) with [5%nat] in Hz.
      apply list_elem_of_singleton in Hz. subst z.
      destruct b; vm_compute in Hb; injection Hb as <-; vm_compute; constructor.
    + split; [exact Hmem|]. apply Hperm.
      apply wf_edgesb_correct. vm_compute. reflexivity.
Defined.

(** Claim C2, as stated, fails: after the detaching [execute] the edge
    E = 5 inside the removed subtree still has both terminal fields set,
    they are not null. *)
Lemma ChildChange_detach_terminals_not_null :
  (λ '(s1, _), (getTerminal s1 5%nat true, getTerminal s1 5%nat false))
    <$> ChildChange.execute 3 example_store (ChildChange.new None 3%nat None)
  = Some (Some 3%nat, Some 4%nat).
Proof. vm_compute. reflexivity. Qed.

(** Claim C2, amended. When a child change detaches an attached cell
    (new parent null), the cell and every descendant is taken out of the
    incident-edge list of each of its terminals while its terminal
    fields keep their values; when the same record then reattaches the
    cell, each of them is listed again with each of its terminals, and
    the terminal fields are still the original ones. *)
Theorem ChildChange_detach_reattach_edge_lists (n : nat) (s : Store) (r : ChildChange.t)
    (p : id) :
  wf_tree s → wf_edges s →
  within n s (ChildChange.child r) = true →
  getParent s (ChildChange.child r) = Some p →
  ChildChange.previous r = None →
  ∃ s1 r1 s2 r2,
    ChildChange.execute n s r = Some (s1, r1)
    ∧ ChildChange.execute n s1 r1 = Some (s2, r2)
    ∧ getParent s1 (ChildChange.child r) = None
    ∧ getParent s2 (ChildChange.child r) = Some p
    ∧ ∀ x b t, x ∈ preorder n s (ChildChange.child r) → getTerminal s x b = Some t →
        (x ∉ getEdges s1 t) ∧ getTerminal s1 x b = Some t
        ∧ (x ∈ getEdges s2 t) ∧ getTerminal s2 x b = Some t.
Proof.
  intros Hwf Hwfe Hw Hp Hprev.
  assert (Hout : outside n s (ChildChange.child r) (ChildChange.previous r))
    by (rewrite Hprev; by intros q).
  destruct (execute_twice n s r Hwf Hw Hout)
    as (s1 & s2 & He1 & He2 & Hpar1 & Hpar2 & _ & Ht1 & Ht2 & Hsev & _ & Hlst).
  exists s1, (executed s r), s2, (executed s1 (executed s r)).
  split; [done|]. split; [done|]. split; [|split].
  - unfold getParent. rewrite Hpar1. by rewrite decide_True.
  - unfold getParent. by rewrite Hpar2.
  - intros x b t Hx Hb.
    assert (Hf : ∀ s', terminals (cell s' x) = terminals (cell s x) →
              getTerminal s' x b = Some t).
    { intros s' E. rewrite <- Hb. unfold getTerminal. inversion E. by destruct b. }
    split; [by apply (Hsev Hprev Hwfe x b t)|]. split; [by apply Hf|].
    split; [|by apply Hf]. apply (Hlst (ltac:(congruence)) x b t Hx Hb).
Qed.

Lemma ChildChange_detach_reattach_edge_lists_witness :
  ∃ s1 r1 s2 r2,
    ChildChange.execute 3 example_store (ChildChange.new None 3%nat None) = Some (s1, r1)
    ∧ ChildChange.execute 3 s1 r1 = Some (s2, r2)
    ∧ getParent s1 3%nat = None
    ∧ getParent s2 3%nat = Some 2%nat
    ∧ ∀ x b t, x ∈ preorder 3 example_store 3%nat → getTerminal example_store x b = Some t →
        (x ∉ getEdges s1 t) ∧ getTerminal s1 x b = Some t
        ∧ (x ∈ getEdges s2 t) ∧ getTerminal s2 x b = Some t.
Proof.
  apply (ChildChange_detach_reattach_edge_lists 3 example_store
           (ChildChange.new None 3%nat None) 2%nat).
  - apply wf_treeb_correct. vm_compute. reflexivity.
  - apply wf_edgesb_correct. vm_compute. reflexivity.
  - vm_compute. reflexivity.
  - vm_compute. reflexivity.
  - reflexivity.
Defined.

(** Claim C3, as stated, fails: as constructed the record holds the new
    parent and index in [previous] and [previousIndex], not the parent
    (A = 2) and index (0) the child B = 3 has at that moment. *)
Lemma ChildChange_new_holds_target :
  ChildChange.previous (ChildChange.new (Some 4%nat) 3%nat (Some 1)) = Some 4%nat
  ∧ getParent example_store 3%nat = Some 2%nat
  ∧ ChildChange.previous (ChildChange.new (Some 4%nat) 3%nat (Some 1))
    ≠ getParent example_store 3%nat
  ∧ ChildChange.previousIndex (ChildChange.new (Some 4%nat) 3%nat (Some 1)) = 1
  ∧ getIndex example_store 2%nat 3%nat = 0.
Proof. vm_compute. repeat split; done. Qed.

(** Claim C3, amended. As constructed, a child change holds the new
    parent and the new index in both [parent]/[previous] and
    [index]/[previousIndex]. The first [execute] reads the parent and
    the index the child has at that moment, moves the child and leaves
    them in [previous]/[previousIndex]; the next [execute] therefore
    moves the child back to that parent and index. *)
Theorem ChildChange_execute_captures_previous (n : nat) (s : Store)
    (parent : option id) (child : id) (index : option Z) :
  wf_tree s →
  within n s child = true →
  outside n s child parent →
  ChildChange.previous (ChildChange.new parent child index) = parent
  ∧ ChildChange.previousIndex (ChildChange.new parent child index) = default 0 index
  ∧ ∃ s1 r1 s2 r2,
      ChildChange.execute n s (ChildChange.new parent child index) = Some (s1, r1)
      ∧ ChildChange.previous r1 = getParent s child
      ∧ ChildChange.previousIndex r1
        = match getParent s child with
          | Some p => getIndex s p child
          | None => 0
          end
      ∧ ChildChange.parent r1 = parent
      ∧ ChildChange.index r1 = default 0 index
      ∧ getParent s1 child = parent
      ∧ ChildChange.execute n s1 r1 = Some (s2, r2)
      ∧ getParent s2 child = getParent s child
      ∧ ∀ p, getIndex s2 p child = getIndex s p child.
Proof.
  intros Hwf Hw Hout. split; [done|]. split; [done|].
  destruct (execute_twice n s (ChildChange.new parent child index) Hwf Hw Hout)
    as (s1 & s2 & He1 & He2 & Hpar1 & Hpar2 & Hch & _).
  simpl in Hpar1.
  exists s1, (executed s (ChildChange.new parent child index)),
         s2, (executed s1 (executed s (ChildChange.new parent child index))).
  split; [done|]. repeat (split; [done|]). split; [|split; [done|split]].
  - unfold getParent. rewrite Hpar1. by rewrite decide_True.
  - unfold getParent. by rewrite Hpar2.
  - intros p. unfold getIndex. by rewrite Hch.
Qed.

Lemma ChildChange_execute_captures_previous_witness :
  ChildChange.previous (ChildChange.new (Some 4%nat) 3%nat (Some 1)) = Some 4%nat
  ∧ ChildChange.previousIndex (ChildChange.new (Some 4%nat) 3%nat (Some 1)) = 1
  ∧ ∃ s1 r1 s2 r2,
      ChildChange.execute 3 example_store (ChildChange.new (Some 4%nat) 3%nat (Some 1))
      = Some (s1, r1)
      ∧ ChildChange.previous r1 = getParent example_store 3%nat
      ∧ ChildChange.previousIndex r1
        = match getParent example_store 3%nat with
          | Some p => getIndex example_store p 3%nat
          | None => 0
          end
      ∧ ChildChange.parent r1 = Some 4%nat
      ∧ ChildChange.index r1 = 1
      ∧ getParent s1 3%nat = Some 4%nat
      ∧ ChildChange.execute 3 s1 r1 = Some (s2, r2)
      ∧ getParent s2 3%nat = getParent example_store 3%nat
      ∧ ∀ p, getIndex s2 p 3%nat = getIndex example_store p 3%nat.
Proof.
  apply (ChildChange_execute_captures_previous 3 example_store (Some 4%nat) 3%nat (Some 1)).
  - apply wf_treeb_correct. vm_compute. reflexivity.
  - vm_compute. reflexivity.
  - intros q [= <-]. apply (bool_decide_unpack _). vm_compute. exact I.
Defined.

(** Claim C4. The cascade visits the cell and its descendants in
    preorder, the children of every cell in the order of their list
    (their index order); a disconnecting pass and the connecting pass
    that follows it, or any two passes in a row, visit the same cells in
    the same sequence. *)
Theorem ChildChange_connect_visits_in_index_order (n : nat) (s : Store) (c : id)
    (isConnect isConnect' : bool) :
  within n s c = true →
  ∃ s1 s2,
    ChildChange.connect n s c isConnect = Some (s1, preorder n s c)
    ∧ ChildChange.connect n s1 c isConnect' = Some (s2, preorder n s c)
    ∧ ∀ x, getChildren s2 x = getChildren s x.
Proof.
  intros Hw.
  destruct (connect_total n s c isConnect Hw) as (s1 & Hc1 & H1).
  assert (Hch1 : ∀ x, children (cell s1 x) = children (cell s x))
    by (intros; by apply same_fields_children).
  assert (Hw1 : within n s1 c = true) by (by rewrite (within_ext n s s1)).
  destruct (connect_total n s1 c isConnect' Hw1) as (s2 & Hc2 & H2).
  exists s1, s2. split; [done|]. split.
  - by rewrite Hc2, (preorder_ext n s s1).
  - intros x. unfold getChildren. by rewrite (same_fields_children s1 s2), Hch1.
Qed.

Lemma ChildChange_connect_visits_in_index_order_witness :
  ∃ s1 s2,
    ChildChange.connect 4 example_store 1%nat false
    = Some (s1, preorder 4 example_store 1%nat)
    ∧ ChildChange.connect 4 s1 1%nat true = Some (s2, preorder 4 example_store 1%nat)
    ∧ ∀ x, getChildren s2 x = getChildren example_store x.
Proof.
  apply (ChildChange_connect_visits_in_index_order 4 example_store 1%nat false true).
  vm_compute. reflexivity.
Defined.

(** Claim C8. After the disconnecting pass [connect(cell, false)] the
    terminal fields of every cell, in particular of the cell and of the
    descendants the cascade visited, are what they were before the call,
    although each visited cell is gone from the incident-edge lists of
    its terminals; the connecting pass finds the terminals in those
    fields and lists the cells again. *)
Theorem ChildChange_disconnect_keeps_terminal_fields (n : nat) (s : Store) (c : id) :
  wf_edges s →
  within n s c = true →
  ∃ s' visited,
    ChildChange.connect n s c false = Some (s', visited)
    ∧ c ∈ visited
    ∧ (∀ x b, getTerminal s' x b = getTerminal s x b)
    ∧ (∀ x b t, x ∈ visited → getTerminal s x b = Some t → x ∉ getEdges s' t)
    ∧ ∃ s'',
        ChildChange.connect n s' c true = Some (s'', visited)
        ∧ (∀ x b, getTerminal s'' x b = getTerminal s x b)
        ∧ (∀ x b t, x ∈ visited → getTerminal s x b = Some t → x ∈ getEdges s'' t).
Proof.
  intros Hwfe Hw.
  destruct (connect_total n s c false Hw) as (s1 & Hc1 & H1).
  assert (Hch1 : ∀ x, children (cell s1 x) = children (cell s x))
    by (intros; by apply same_fields_children).
  assert (Hw1 : within n s1 c = true) by (by rewrite (within_ext n s s1)).
  destruct (connect_total n s1 c true Hw1) as (s2 & Hc2 & H2).
  rewrite (preorder_ext n s s1) in Hc2 by done.
  exists s1, (preorder n s c). split; [done|]. split; [by apply preorder_head|].
  split; [intros; by apply same_fields_terminal|]. split.
  - intros x b t Hx Hb. by apply (proj2 (disconnect_severed n s c s1 _ Hwfe Hc1) x b t).
  - exists s2. split; [done|]. split.
    + intros x b. by rewrite (same_fields_terminal s1 s2), (same_fields_terminal s s1).
    + intros x b t Hx Hb. apply (connect_listed n s1 c s2 _ Hc2 x b t Hx).
      by rewrite (same_fields_terminal s s1).
Qed.

Lemma ChildChange_disconnect_keeps_terminal_fields_witness :
  ∃ s' visited,
    ChildChange.connect 3 example_store 3%nat false = Some (s', visited)
    ∧ 3%nat ∈ visited
    ∧ (∀ x b, getTerminal s' x b = getTerminal example_store x b)
    ∧ (∀ x b t, x ∈ visited → getTerminal example_store x b = Some t → x ∉ getEdges s' t)
    ∧ ∃ s'',
        ChildChange.connect 3 s' 3%nat true = Some (s'', visited)
        ∧ (∀ x b, getTerminal s'' x b = getTerminal example_store x b)
        ∧ (∀ x b t, x ∈ visited → getTerminal example_store x b = Some t →
                    x ∈ getEdges s'' t).
Proof.
  apply (ChildChange_disconnect_keeps_terminal_fields 3 example_store 3%nat).
  - apply wf_edgesb_correct. vm_compute. reflexivity.
  - vm_compute. reflexivity.
Defined.

(** ** Folding *)



(** The mixed call of the witness, run: A = 2, its descendants and the
    root are folded, and C = 4 keeps its fields while no record is
    about it. *)
Example cellsFolded_mixed_example :
  (λ g', (cell (store g') 4%nat, isCollapsed (store g') 2%nat,
          isCollapsed (store g') 1%nat, records g'))
    <$> FoldingMixin.cellsFolded (H := Number_Z) (H0 := plain_graph)
          5 mixed_graph (Some [2%nat; 4%nat; 1%nat]) true true false
  = Some (cell (store mixed_graph) 4%nat, true, true,
          [CollapseChange 2%nat false; GeometryChange 2%nat (Some 0%nat);
           CollapseChange 3%nat false; CollapseChange 5%nat false;
           CollapseChange 1%nat false]).
Proof. vm_compute. reflexivity. Qed.

(** Claim C6. [swapBounds] on a cell without geometry leaves the graph
    as it is. On a cell with a geometry object it creates exactly one
    change record, the geometry change of that cell made by its one
    [setGeometry] call. The geometry set is a new object that holds the
    swap of a copy of the cell's geometry, the copy's alternate bounds
    updated first and of the size of those the cell had, if any. No
    geometry object that existed before, the cell's previous one
    included, is written; of the cells only the geometry field of the
    given cell changes; and no Rectangle object is written except the
    one [getPreferredSizeForCell] returned. *)
Theorem swapBounds_one_setGeometry_on_clone {num : Type} `{Number num} `{PartialGraph num}
    (g : Graph num) (c : id) (willCollapse : bool) :
  (getGeometry (store g) c = None → FoldingMixin.swapBounds g c willCollapse = g)
  ∧ (∀ r0 geo0,
       getGeometry (store g) c = Some r0 → heap g !! r0 = Some geo0 →
       ∃ r' ab,
         heap g !! r' = None
         ∧ getGeometry (store (FoldingMixin.swapBounds g c willCollapse)) c = Some r'
         ∧ heap (FoldingMixin.swapBounds g c willCollapse) !! r'
           = Some (Geometry.swap (Geometry.with_alternateBounds (Some ab) geo0))
         ∧ (∀ ab0, Geometry.alternateBounds geo0 = Some ab0 → size_of ab = size_of ab0)
         ∧ records (FoldingMixin.swapBounds g c willCollapse)
           = records g ++ [GeometryChange c (Some r0)]
         ∧ heap (FoldingMixin.swapBounds g c willCollapse) !! r0 = Some geo0
         ∧ (∀ r, r ≠ r' →
              heap (FoldingMixin.swapBounds g c willCollapse) !! r = heap g !! r)
         ∧ (∀ x, cell (store (FoldingMixin.swapBounds g c willCollapse)) x
                 = if decide (x = c)
                   then with_geometry (Some r') (cell (store g) c)
                   else cell (store g) x)
         ∧ (∀ t, getPreferredSizeForCell (FoldingMixin.clone g geo0).1 c ≠ Some t →
                 rectangles (FoldingMixin.swapBounds g c willCollapse) !! t
                 = rectangles g !! t)).
Proof.
  split; [apply swapBounds_no_geometry|].
  intros r0 geo0 Hgeo Hobj.
  destruct (swapBounds_clone g c willCollapse r0 geo0 Hgeo Hobj)
    as (r' & ab & Hfresh & Hset & Hnew & Hsize & Hrec & Hheap & Hcell & Hrect).
  exists r', ab. repeat (split; [done|]). split; [|done].
  rewrite Hheap by congruence. done.
Qed.

Lemma swapBounds_one_setGeometry_on_clone_witness :
  FoldingMixin.swapBounds (H := Number_Z) (H0 := plain_graph) example_graph 4%nat true
  = example_graph
  ∧ ∃ r' ab,
      heap example_graph !! r' = None
      ∧ getGeometry (store (FoldingMixin.swapBounds (H := Number_Z) (H0 := plain_graph)
                              example_graph 2%nat true)) 2%nat = Some r'
      ∧ heap (FoldingMixin.swapBounds (H := Number_Z) (H0 := plain_graph)
                example_graph 2%nat true) !! r'
        = Some (Geometry.swap
                  (Geometry.with_alternateBounds (Some ab)
                     (Geometry.mk 10 20 100 50 None)))
      ∧ (∀ ab0, Geometry.alternateBounds (Geometry.mk 10 20 100 50 None) = Some ab0 →
                size_of ab = size_of ab0)
      ∧ records (FoldingMixin.swapBounds (H := Number_Z) (H0 := plain_graph)
                   example_graph 2%nat true)
        = records example_graph ++ [GeometryChange 2%nat (Some 0%nat)]
      ∧ heap (FoldingMixin.swapBounds (H := Number_Z) (H0 := plain_graph)
                example_graph 2%nat true) !! 0%nat
        = Some (Geometry.mk 10 20 100 50 None)
      ∧ (∀ r, r ≠ r' →
           heap (FoldingMixin.swapBounds (H := Number_Z) (H0 := plain_graph)
                   example_graph 2%nat true) !! r = heap example_graph !! r)
      ∧ (∀ x, cell (store (FoldingMixin.swapBounds (H := Number_Z) (H0 := plain_graph)
                             example_graph 2%nat true)) x
              = if decide (x = 2%nat)
                then with_geometry (Some r') (cell (store example_graph) 2%nat)
                else cell (store example_graph) x)
      ∧ (∀ t, getPreferredSizeForCell (PartialGraph := plain_graph)
                (FoldingMixin.clone example_graph (Geometry.mk 10 20 100 50 None)).1
                2%nat ≠ Some t →
              rectangles (FoldingMixin.swapBounds (H := Number_Z) (H0 := plain_graph)
                            example_graph 2%nat true) !! t
              = rectangles example_graph !! t).
Proof.
  split.
  - apply (proj1 (swapBounds_one_setGeometry_on_clone (H := Number_Z) (H0 := plain_graph)
                    example_graph 4%nat true)).
    vm_compute. reflexivity.
  - apply (proj2 (swapBounds_one_setGeometry_on_clone (H := Number_Z) (H0 := plain_graph)
                    example_graph 2%nat true) 0%nat (Geometry.mk 10 20 100 50 None)).
    + vm_compute. reflexivity.
    + vm_compute. reflexivity.
Defined.

(** Claim C7. [getFoldableCells] returns the cells of its input for
    which [isCellFoldable] holds, in the order of the input: the result
    is a subsequence of the input and contains a cell exactly when the
    input contains it and it is foldable. The input is a value and is
    not changed. *)
Theorem getFoldableCells_filters_in_order {num : Type} `{Number num} `{PartialGraph num}
    (g : Graph num) (cells : list id) (collapse : bool) :
  sublist (FoldingMixin.getFoldableCells g cells collapse) cells
  ∧ Forall (λ c, FoldingMixin.isCellFoldable g c collapse = true)
      (FoldingMixin.getFoldableCells g cells collapse)
  ∧ Forall (λ c, FoldingMixin.isCellFoldable g c collapse = true
                 ↔ c ∈ FoldingMixin.getFoldableCells g cells collapse) cells.
Proof.
  unfold FoldingMixin.getFoldableCells, filterCells.
  split; [|split].
  - induction cells as [|c cells IH]; simpl; [done|].
    destruct (FoldingMixin.isCellFoldable g c collapse).
    + by apply sublist_skip.
    + by apply sublist_cons.
  - apply Forall_forall. intros c Hc. apply list_elem_of_In, filter_In in Hc. tauto.
  - apply Forall_forall. intros c Hc. split.
    + intros Hf. apply list_elem_of_In, filter_In. split; [by apply list_elem_of_In|done].
    + intros Hin. apply list_elem_of_In, filter_In in Hin. tauto.
Qed.

(** ** Editing *)

(** Claim C9. [isCellEditable] returns [false] for every cell whose
    resolved style does not set [editable] to a truthy value, whatever
    [cellsEditable] and the lock say; it returns [true] exactly when
    [isCellsEditable()] holds, the cell is not locked and
    [style.editable] is truthy. *)
Theorem isCellEditable_needs_editable_style {num : Type} `{PartialGraph num}
    (g : Graph num) (c : id) :
  (editable (getCurrentCellStyle g c) ≠ Some true →
   EditingMixin.isCellEditable g c = false)
  ∧ (EditingMixin.isCellEditable g c = true
     ↔ EditingMixin.isCellsEditable g = true
       ∧ isCellLocked g c = false
       ∧ editable (getCurrentCellStyle g c) = Some true).
Proof.
  unfold EditingMixin.isCellEditable.
  destruct (EditingMixin.isCellsEditable g), (isCellLocked g c),
    (editable (getCurrentCellStyle g c)) as [[|]|]; simpl; split; try done;
    try (split; [done|intros (?&?&?); done]).
Qed.

Lemma isCellEditable_needs_editable_style_witness :
  EditingMixin.isCellsEditable example_graph = true
  ∧ isCellLocked (PartialGraph := plain_graph) example_graph 2%nat = false
  ∧ EditingMixin.isCellEditable (H := plain_graph) example_graph 2%nat = false.
Proof.
  split; [reflexivity|]. split; [reflexivity|].
  apply (proj1 (isCellEditable_needs_editable_style (H := plain_graph) example_graph 2%nat)).
  vm_compute. discriminate.
Defined.

(** ** Terminals *)

(** Claim C10. Whatever visible terminals the view reports, the list
    [getOpposites] returns has no duplicates and does not contain the
    given terminal. *)
Theorem getOpposites_no_duplicates_no_terminal {CellState : Type}
    `{TerminalMixin.View CellState}
    (edges : list id) (terminal : option id) (includeSources includeTargets : bool) :
  NoDup (TerminalMixin.getOpposites edges terminal includeSources includeTargets)
  ∧ Forall (λ x, Some x ≠ terminal)
      (TerminalMixin.getOpposites edges terminal includeSources includeTargets).
Proof.
  destruct (getOpposites_inv edges terminal includeSources includeTargets)
    as (Hnd & _ & Ht).
  split; [done|]. by apply Forall_forall.
Qed.

(** ** Evaluations on the example document *)

Example getOpposites_example :
  TerminalMixin.getOpposites (H := example_view) [5%nat; 5%nat] (Some 3%nat) true true
  = [4%nat].
Proof. vm_compute. reflexivity. Qed.

Example getFoldableCells_example :
  FoldingMixin.getFoldableCells (H0 := plain_graph)
    example_graph [5%nat; 3%nat; 4%nat; 2%nat] false
  = [3%nat; 2%nat].
Proof. vm_compute. reflexivity. Qed.

Example cellsFolded_example :
  (λ g', (isCollapsed (store g') 2%nat, isCollapsed (store g') 3%nat,
          records g', events g'))
    <$> FoldingMixin.cellsFolded (H := Number_Z) (H0 := plain_graph)
          4 example_graph (Some [2%nat; 4%nat]) true true false
  = Some (true, true,
          [CollapseChange 2%nat false; GeometryChange 2%nat (Some 0%nat);
           CollapseChange 3%nat false; CollapseChange 5%nat false;
           CollapseChange 4%nat false],
          [CELLS_FOLDED [5%nat] true true; CELLS_FOLDED [3%nat] true true;
           CELLS_FOLDED [2%nat; 4%nat] true true;
           CHANGE [CollapseChange 2%nat false; GeometryChange 2%nat (Some 0%nat);
                   CollapseChange 3%nat false; CollapseChange 5%nat false;
                   CollapseChange 4%nat false]]).
Proof. vm_compute. reflexivity. Qed.

(** * Further properties of the modelled code *)

(** ** Properties of [ChildChange.execute] *)

(** Property X1. [execute] keeps the document a well-formed forest:
    afterwards parent links and lists of children still agree and no
    list of children has a duplicate. *)
Theorem ChildChange_execute_keeps_forest (n : nat) (s : Store) (r : ChildChange.t) :
  wf_tree s →
  within n s (ChildChange.child r) = true →
  outside n s (ChildChange.child r) (ChildChange.previous r) →
  ∃ s1 r1, ChildChange.execute n s r = Some (s1, r1) ∧ wf_tree s1.
Proof.
  intros Hwf Hw Hout.
  destruct (execute_once n s r Hwf Hw Hout) as (s1 & He & _ & _ & _ & _ & _ & _ & Hwf1).
  by exists s1, (executed s r).
Qed.

Lemma ChildChange_execute_keeps_forest_witness :
  ∃ s1 r1,
    ChildChange.execute 3 example_store (ChildChange.new (Some 4%nat) 3%nat (Some 0))
    = Some (s1, r1) ∧ wf_tree s1.
Proof.
  apply (ChildChange_execute_keeps_forest 3 example_store
           (ChildChange.new (Some 4%nat) 3%nat (Some 0))).
  - apply wf_treeb_correct. vm_compute. reflexivity.
  - vm_compute. reflexivity.
  - intros q [= <-]. apply (bool_decide_unpack _). vm_compute. exact I.
Defined.

(** Property X2. [execute] keeps the incident-edge lists free of
    duplicates. *)
Theorem ChildChange_execute_keeps_edge_lists (n : nat) (s : Store) (r : ChildChange.t) :
  wf_tree s → wf_edges s →
  within n s (ChildChange.child r) = true →
  outside n s (ChildChange.child r) (ChildChange.previous r) →
  ∃ s1 r1, ChildChange.execute n s r = Some (s1, r1) ∧ wf_edges s1.
Proof.
  intros Hwf Hwfe Hw Hout.
  destruct (execute_edges n s r Hwf Hw Hout) as (s1 & He & Hwf1 & _).
  exists s1, (executed s r). split; [done|]. by apply Hwf1.
Qed.

Lemma ChildChange_execute_keeps_edge_lists_witness :
  ∃ s1 r1,
    ChildChange.execute 3 example_store (ChildChange.new (Some 4%nat) 3%nat (Some 0))
    = Some (s1, r1) ∧ wf_edges s1.
Proof.
  apply (ChildChange_execute_keeps_edge_lists 3 example_store
           (ChildChange.new (Some 4%nat) 3%nat (Some 0))).
  - apply wf_treeb_correct. vm_compute. reflexivity.
  - apply wf_edgesb_correct. vm_compute. reflexivity.
  - vm_compute. reflexivity.
  - intros q [= <-]. apply (bool_decide_unpack _). vm_compute. exact I.
Defined.

(** Property X3. Redo: of three [execute] calls in a row the third
    repeats the first. After it every parent link, every list of
    children and every terminal field is as it was after the first
    call. *)
Theorem ChildChange_execute_redo (n : nat) (s : Store) (r : ChildChange.t) :
  wf_tree s →
  within n s (ChildChange.child r) = true →
  outside n s (ChildChange.child r) (ChildChange.previous r) →
  ∃ s1 r1 s2 r2 s3 r3,
    ChildChange.execute n s r = Some (s1, r1)
    ∧ ChildChange.execute n s1 r1 = Some (s2, r2)
    ∧ ChildChange.execute n s2 r2 = Some (s3, r3)
    ∧ (∀ x, getParent s3 x = getParent s1 x)
    ∧ (∀ x, getChildren s3 x = getChildren s1 x)
    ∧ (∀ x b, getTerminal s3 x b = getTerminal s1 x b).
Proof.
  intros Hwf Hw Hout.
  destruct (execute_thrice n s r Hwf Hw Hout)
    as (s1 & s2 & s3 & He1 & He2 & He3 & Hpar & Hch & Ht).
  exists s1, (executed s r), s2, (executed s1 (executed s r)),
         s3, (executed s2 (executed s1 (executed s r))).
  repeat (split; [done|]).
  intros x b. unfold getTerminal. specialize (Ht x). inversion Ht. by destruct b.
Qed.

Lemma ChildChange_execute_redo_witness :
  ∃ s1 r1 s2 r2 s3 r3,
    ChildChange.execute 3 example_store (ChildChange.new (Some 1%nat) 3%nat (Some 7))
    = Some (s1, r1)
    ∧ ChildChange.execute 3 s1 r1 = Some (s2, r2)
    ∧ ChildChange.execute 3 s2 r2 = Some (s3, r3)
    ∧ (∀ x, getParent s3 x = getParent s1 x)
    ∧ (∀ x, getChildren s3 x = getChildren s1 x)
    ∧ (∀ x b, getTerminal s3 x b = getTerminal s1 x b).
Proof.
  apply (ChildChange_execute_redo 3 example_store
           (ChildChange.new (Some 1%nat) 3%nat (Some 7))).
  - apply wf_treeb_correct. vm_compute. reflexivity.
  - vm_compute. reflexivity.
  - intros q [= <-]. apply (bool_decide_unpack _). vm_compute. exact I.
Defined.

(** Property X4. An attaching [execute] makes the new parent the parent
    of the child and splices the child into the other children of that
    parent at the requested index: for an index from 0 up to the number
    of the other children the child ends up at exactly that index, for a
    larger one at the end. *)
Theorem ChildChange_execute_lands_at_index (n : nat) (s : Store) (r : ChildChange.t)
    (p : id) :
  wf_tree s →
  within n s (ChildChange.child r) = true →
  outside n s (ChildChange.child r) (ChildChange.previous r) →
  ChildChange.previous r = Some p →
  0 ≤ ChildChange.previousIndex r →
  ∃ s1 r1,
    ChildChange.execute n s r = Some (s1, r1)
    ∧ getParent s1 (ChildChange.child r) = Some p
    ∧ getIndex s1 p (ChildChange.child r)
      = Z.min (ChildChange.previousIndex r)
          (Z.of_nat (length (detach (ChildChange.child r) (getChildren s p))))
    ∧ detach (ChildChange.child r) (getChildren s1 p)
      = detach (ChildChange.child r) (getChildren s p).
Proof.
  intros Hwf Hw Hout Hprev Hidx.
  destruct (execute_lands n s r p Hwf Hw Hout Hprev) as (s1 & He & Hpar & Hch & Hi).
  exists s1, (executed s r). split; [done|]. split; [done|]. split.
  - rewrite Hi. unfold splice_start.
    destruct (Z.ltb_spec (ChildChange.previousIndex r) 0); lia.
  - rewrite Hch. apply detach_splice_insert.
    destruct (Hwf (ChildChange.child r) p) as [_ Hnd]. by apply detach_NoDup.
Qed.

Lemma ChildChange_execute_lands_at_index_witness :
  ∃ s1 r1,
    ChildChange.execute 3 example_store (ChildChange.new (Some 1%nat) 3%nat (Some 1))
    = Some (s1, r1)
    ∧ getParent s1 3%nat = Some 1%nat
    ∧ getIndex s1 1%nat 3%nat
      = Z.min 1 (Z.of_nat (length (detach 3%nat (getChildren example_store 1%nat))))
    ∧ detach 3%nat (getChildren s1 1%nat) = detach 3%nat (getChildren example_store 1%nat).
Proof.
  apply (ChildChange_execute_lands_at_index 3 example_store
           (ChildChange.new (Some 1%nat) 3%nat (Some 1)) 1%nat).
  - apply wf_treeb_correct. vm_compute. reflexivity.
  - vm_compute. reflexivity.
  - intros q [= <-]. apply (bool_decide_unpack _). vm_compute. exact I.
  - reflexivity.
  - vm_compute. discriminate.
Defined.

(** Property X5. After an attaching [execute] the moved cell and each of
    its descendants is listed among the incident edges of each of its
    terminals, whether or not it was listed before. *)
Theorem ChildChange_execute_attach_lists_subtree (n : nat) (s : Store) (r : ChildChange.t)
    (p : id) :
  wf_tree s →
  within n s (ChildChange.child r) = true →
  outside n s (ChildChange.child r) (ChildChange.previous r) →
  ChildChange.previous r = Some p →
  ∃ s1 r1,
    ChildChange.execute n s r = Some (s1, r1)
    ∧ ∀ x b t, x ∈ preorder n s (ChildChange.child r) → getTerminal s x b = Some t →
        getTerminal s1 x b = Some t ∧ x ∈ getEdges s1 t.
Proof.
  intros Hwf Hw Hout Hprev.
  destruct (execute_twice n s r Hwf Hw Hout)
    as (s1 & s2 & He1 & _ & _ & _ & _ & Ht1 & _ & _ & Hlst & _).
  exists s1, (executed s r). split; [done|].
  intros x b t Hx Hb. split.
  - rewrite <- Hb. unfold getTerminal. specialize (Ht1 x). inversion Ht1. by destruct b.
  - apply (Hlst (ltac:(congruence)) x b t Hx Hb).
Qed.

Lemma ChildChange_execute_attach_lists_subtree_witness :
  ∃ s1 r1,
    ChildChange.execute 3 example_store (ChildChange.new (Some 4%nat) 3%nat (Some 0))
    = Some (s1, r1)
    ∧ ∀ x b t,
        x ∈ preorder 3 example_store 3%nat →
        getTerminal example_store x b = Some t →
        getTerminal s1 x b = Some t ∧ x ∈ getEdges s1 t.
Proof.
  apply (ChildChange_execute_attach_lists_subtree 3 example_store
           (ChildChange.new (Some 4%nat) 3%nat (Some 0)) 4%nat).
  - apply wf_treeb_correct. vm_compute. reflexivity.
  - vm_compute. reflexivity.
  - intros q [= <-]. apply (bool_decide_unpack _). vm_compute. exact I.
  - reflexivity.
Defined.

(** Property X6. [execute] moves the child and nothing else: no other
    cell changes its parent, only the old and the new parent change
    their children, no cell changes its collapsed flag or geometry, and a
    cell outside the moved subtree is listed among the incident edges
    of exactly the cells it was listed with before. *)
Theorem ChildChange_execute_frame (n : nat) (s : Store) (r : ChildChange.t) :
  wf_tree s →
  within n s (ChildChange.child r) = true →
  outside n s (ChildChange.child r) (ChildChange.previous r) →
  ∃ s1 r1,
    ChildChange.execute n s r = Some (s1, r1)
    ∧ (∀ x, x ≠ ChildChange.child r → getParent s1 x = getParent s x)
    ∧ (∀ x, getParent s (ChildChange.child r) ≠ Some x →
            ChildChange.previous r ≠ Some x →
            getChildren s1 x = getChildren s x)
    ∧ (∀ x, isCollapsed s1 x = isCollapsed s x ∧ getGeometry s1 x = getGeometry s x)
    ∧ (∀ z x, z ∉ preorder n s (ChildChange.child r) →
              z ∈ getEdges s1 x ↔ z ∈ getEdges s x).
Proof.
  intros Hwf Hw Hout.
  destruct (execute_once n s r Hwf Hw Hout) as (s1 & He & Hpar & Hch & _ & Hl & _).
  destruct (execute_edges n s r Hwf Hw Hout) as (s1' & He' & _ & Hedges).
  rewrite He in He'. injection He' as <-.
  exists s1, (executed s r). split; [done|]. split; [|split; [|split]].
  - intros x Hx. unfold getParent. rewrite Hpar. by rewrite decide_False.
  - intros x H1 H2. unfold getChildren. rewrite Hch.
    by apply children_after_unrelated.
  - intros x. specialize (Hl x). unfold isCollapsed, getGeometry. by inversion Hl.
  - done.
Qed.

Lemma ChildChange_execute_frame_witness :
  ∃ s1 r1,
    ChildChange.execute 3 example_store (ChildChange.new None 3%nat None) = Some (s1, r1)
    ∧ (∀ x, x ≠ 3%nat → getParent s1 x = getParent example_store x)
    ∧ (∀ x, getParent example_store 3%nat ≠ Some x → None ≠ Some x →
            getChildren s1 x = getChildren example_store x)
    ∧ (∀ x, isCollapsed s1 x = isCollapsed example_store x
            ∧ getGeometry s1 x = getGeometry example_store x)
    ∧ (∀ z x, z ∉ preorder 3 example_store 3%nat →
              z ∈ getEdges s1 x ↔ z ∈ getEdges example_store x).
Proof.
  apply (ChildChange_execute_frame 3 example_store (ChildChange.new None 3%nat None)).
  - apply wf_treeb_correct. vm_compute. reflexivity.
  - vm_compute. reflexivity.
  - intros q [=].
Defined.

Section SwapContent.
Context {num : Type} `{Number num} `{PartialGraph num}.
Implicit Types (g : Graph num) (c : id) (r : ref).

(** The geometry of the cell after [swapBounds]: the swap of the old
    geometry with alternate bounds [ab]. *)
Lemma swapBounds_object g c w geo0 :
  geometry_of g c = Some geo0 →
  ∃ ab,
    geometry_of (FoldingMixin.swapBounds g c w) c
    = Some (Geometry.mk (Rectangle.x ab) (Rectangle.y ab)
              (Rectangle.width ab) (Rectangle.height ab) (Some (bounds_of geo0)))
    ∧ (∀ ab0, Geometry.alternateBounds geo0 = Some ab0 → size_of ab = size_of ab0)
    ∧ (Geometry.alternateBounds geo0 = None → collapseToPreferredSize g = false →
       size_of ab = size_of (bounds_of geo0))
    ∧ (unrotated c → Rectangle.x ab = Geometry.x geo0 ∧ Rectangle.y ab = Geometry.y geo0).
Proof.
  unfold geometry_of. intros Hg.
  destruct (getGeometry (store g) c) as [r0|] eqn:Hgeo; [|done]. simpl in Hg.
  unfold FoldingMixin.swapBounds. rewrite Hgeo, Hg. unfold FoldingMixin.clone.
  set (r' := fresh (dom (heap g))).
  assert (Hfresh : heap g !! r' = None) by (apply not_elem_of_dom, is_fresh).
  assert (Hne : r' ≠ r0) by congruence.
  set (g1 := with_heap (<[r' := geo0]> (heap g)) g).
  assert (H1 : heap g1 !! r' = Some geo0) by apply lookup_insert_eq.
  destruct (updateAlternateBounds_object g1 c r' w geo0 H1)
    as (ab & Hab & Hsize & Hown & _ & Hpos).
  destruct (updateAlternateBounds_frame g1 (Some c) r' w) as (Hs2 & _ & _).
  set (g2 := FoldingMixin.updateAlternateBounds g1 (Some c) (Some r') w) in *.
  set (g3 := FoldingMixin.swap_at g2 r').
  assert (Hstore3 : store g3 = store g) by (unfold g3; simpl; by rewrite Hs2).
  exists ab. split; [|split; [done|split; [done|]]].
  - unfold setGeometry. rewrite Hstore3, Hgeo. rewrite decide_False by congruence.
    rewrite store_record_change, heap_record_change.
    unfold apply_change, getGeometry. simpl. rewrite cell_update_eq. simpl.
    rewrite lookup_alter_eq, Hab. simpl. done.
  - intros Hun. apply Hpos, Hun.
Qed.

End SwapContent.

(** ** Properties of the folding functions *)

(** Property X7. [updateAlternateBounds] on a geometry object leaves the
    object's own bounds alone and gives it alternate bounds: of the size
    of the alternate bounds it already had, or of its own size when it
    had none and the preferred size is not used, and at the position of
    the geometry when the cell is not rotated. It writes no other
    geometry object and no cell, creates no change record, and ignores
    [willCollapse]. The one other object it can write is the Rectangle
    that [getPreferredSizeForCell] returned: when the geometry has no
    alternate bounds, the preferred size is used and the start size is
    positive, the height of that Rectangle is raised to the start
    size. *)
Theorem updateAlternateBounds_keeps_own_bounds {num : Type} `{Number num}
    `{PartialGraph num} (g : Graph num) (c : id) (r : ref) (willCollapse : bool)
    (geo : Geometry.t num) :
  heap g !! r = Some geo →
  (∃ ab,
     heap (FoldingMixin.updateAlternateBounds g (Some c) (Some r) willCollapse) !! r
     = Some (Geometry.with_alternateBounds (Some ab) geo)
     ∧ (∀ ab0, Geometry.alternateBounds geo = Some ab0 → size_of ab = size_of ab0)
     ∧ (Geometry.alternateBounds geo = None → collapseToPreferredSize g = false →
        size_of ab = size_of (bounds_of geo))
     ∧ (num_is_zero (toRadians (default num_zero (rotation (getCurrentCellStyle g c))))
        = true →
        Rectangle.x ab = Geometry.x geo ∧ Rectangle.y ab = Geometry.y geo))
  ∧ store (FoldingMixin.updateAlternateBounds g (Some c) (Some r) willCollapse) = store g
  ∧ records (FoldingMixin.updateAlternateBounds g (Some c) (Some r) willCollapse)
    = records g
  ∧ (∀ r', r' ≠ r →
       heap (FoldingMixin.updateAlternateBounds g (Some c) (Some r) willCollapse) !! r'
       = heap g !! r')
  ∧ (rectangles (FoldingMixin.updateAlternateBounds g (Some c) (Some r) willCollapse)
     = rectangles g
     ∨ ∃ t tmp size,
         Geometry.alternateBounds geo = None
         ∧ collapseToPreferredSize g = true
         ∧ getPreferredSizeForCell g c = Some t
         ∧ rectangles g !! t = Some tmp
         ∧ startSize (getCurrentCellStyle g c) = Some size
         ∧ num_positive size = true
         ∧ rectangles (FoldingMixin.updateAlternateBounds g (Some c) (Some r)
                         willCollapse)
           = <[t := Rectangle.with_height (num_max (Rectangle.height tmp) size) tmp]>
               (rectangles g))
  ∧ FoldingMixin.updateAlternateBounds g (Some c) (Some r) willCollapse
    = FoldingMixin.updateAlternateBounds g (Some c) (Some r) (negb willCollapse).
Proof.
  intros Hr.
  destruct (updateAlternateBounds_object g c r willCollapse geo Hr)
    as (ab & Hab & Hsize & Hown & _ & Hpos).
  destruct (updateAlternateBounds_frame g (Some c) r willCollapse) as (Hs & Hrec & Hh).
  split; [by exists ab|]. split; [done|]. split; [done|]. split; [done|].
  split; [|done].
  unfold FoldingMixin.updateAlternateBounds. rewrite Hr.
  repeat case_match; simplify_eq; try (by left);
    right; do 3 eexists; repeat split; done.
Qed.

Lemma updateAlternateBounds_keeps_own_bounds_witness :
  (∃ ab,
     heap (FoldingMixin.updateAlternateBounds (H := Number_Z) (H0 := sized_graph)
             sized_example_graph (Some 2%nat) (Some 0%nat) true) !! 0%nat
     = Some (Geometry.with_alternateBounds (Some ab) (Geometry.mk 10 20 100 50 None))
     ∧ (∀ ab0, Geometry.alternateBounds (Geometry.mk 10 20 100 50 None) = Some ab0 →
               size_of ab = size_of ab0)
     ∧ (Geometry.alternateBounds (Geometry.mk 10 20 100 50 None) = None →
        collapseToPreferredSize sized_example_graph = false →
        size_of ab = size_of (bounds_of (Geometry.mk 10 20 100 50 None)))
     ∧ (num_is_zero (Number := Number_Z)
          (toRadians (Number := Number_Z) (default (num_zero (Number := Number_Z))
             (rotation (getCurrentCellStyle (PartialGraph := sized_graph)
                          sized_example_graph 2%nat)))) = true →
        Rectangle.x ab = 10 ∧ Rectangle.y ab = 20))
  ∧ store (FoldingMixin.updateAlternateBounds (H := Number_Z) (H0 := sized_graph)
             sized_example_graph (Some 2%nat) (Some 0%nat) true)
    = store sized_example_graph
  ∧ records (FoldingMixin.updateAlternateBounds (H := Number_Z) (H0 := sized_graph)
               sized_example_graph (Some 2%nat) (Some 0%nat) true)
    = records sized_example_graph
  ∧ (∀ r', r' ≠ 0%nat →
       heap (FoldingMixin.updateAlternateBounds (H := Number_Z) (H0 := sized_graph)
               sized_example_graph (Some 2%nat) (Some 0%nat) true) !! r'
       = heap sized_example_graph !! r')
  ∧ (rectangles (FoldingMixin.updateAlternateBounds (H := Number_Z) (H0 := sized_graph)
                   sized_example_graph (Some 2%nat) (Some 0%nat) true)
     = rectangles sized_example_graph
     ∨ ∃ t tmp size,
         Geometry.alternateBounds (Geometry.mk 10 20 100 50 None) = None
         ∧ collapseToPreferredSize sized_example_graph = true
         ∧ getPreferredSizeForCell (PartialGraph := sized_graph)
             sized_example_graph 2%nat = Some t
         ∧ rectangles sized_example_graph !! t = Some tmp
         ∧ startSize (getCurrentCellStyle (PartialGraph := sized_graph)
                        sized_example_graph 2%nat) = Some size
         ∧ num_positive (Number := Number_Z) size = true
         ∧ rectangles (FoldingMixin.updateAlternateBounds (H := Number_Z)
                         (H0 := sized_graph)
                         sized_example_graph (Some 2%nat) (Some 0%nat) true)
           = <[t := Rectangle.with_height
                      (num_max (Number := Number_Z) (Rectangle.height tmp) size) tmp]>
               (rectangles sized_example_graph))
  ∧ FoldingMixin.updateAlternateBounds (H := Number_Z) (H0 := sized_graph)
      sized_example_graph (Some 2%nat) (Some 0%nat) true
    = FoldingMixin.updateAlternateBounds (H := Number_Z) (H0 := sized_graph)
        sized_example_graph (Some 2%nat) (Some 0%nat) (negb true).
Proof.
  apply (updateAlternateBounds_keeps_own_bounds (H := Number_Z) (H0 := sized_graph)
           sized_example_graph 2%nat 0%nat true (Geometry.mk 10 20 100 50 None)).
  vm_compute. reflexivity.
Defined.

(** The call of the witness, run: the alternate bounds take the width of
    the preferred size and the start size as height, and the height of
    the Rectangle object 7 is raised from 20 to 30. *)
Example updateAlternateBounds_example :
  (λ g', (Geometry.alternateBounds <$> heap g' !! 0%nat, rectangles g' !! 7%nat))
    (FoldingMixin.updateAlternateBounds (H := Number_Z) (H0 := sized_graph)
       sized_example_graph (Some 2%nat) (Some 0%nat) true)
  = (Some (Some (Rectangle.mk 10 20 80 30)), Some (Rectangle.mk 0 0 80 30)).
Proof. vm_compute. reflexivity. Qed.

(** Property X8. [swapBounds] on a cell with a geometry gives the cell
    a geometry whose alternate bounds are the bounds the cell had, and
    whose size is that of the alternate bounds the cell had, if any; for
    a cell that is not rotated the position stays. *)
Theorem swapBounds_exchanges_bounds {num : Type} `{Number num} `{PartialGraph num}
    (g : Graph num) (c : id) (willCollapse : bool) (geo0 : Geometry.t num) :
  geometry_of g c = Some geo0 →
  ∃ geo1,
    geometry_of (FoldingMixin.swapBounds g c willCollapse) c = Some geo1
    ∧ Geometry.alternateBounds geo1 = Some (bounds_of geo0)
    ∧ (∀ ab0, Geometry.alternateBounds geo0 = Some ab0 →
         size_of (bounds_of geo1) = size_of ab0)
    ∧ (Geometry.alternateBounds geo0 = None → collapseToPreferredSize g = false →
         size_of (bounds_of geo1) = size_of (bounds_of geo0))
    ∧ (unrotated c →
         Geometry.x geo1 = Geometry.x geo0 ∧ Geometry.y geo1 = Geometry.y geo0).
Proof.
  intros Hg.
  destruct (swapBounds_object g c willCollapse geo0 Hg) as (ab & Hgeo & Hsize & Hown & Hpos).
  eexists. split; [exact Hgeo|]. split; [done|]. split; [|split].
  - intros ab0 Hab0. by rewrite <- (Hsize ab0 Hab0).
  - intros Hnone Hpref. by rewrite <- (Hown Hnone Hpref).
  - intros Hun. by apply Hpos.
Qed.

Lemma swapBounds_exchanges_bounds_witness :
  ∃ geo1,
    geometry_of (FoldingMixin.swapBounds (H := Number_Z) (H0 := plain_graph)
                   example_graph 2%nat true) 2%nat = Some geo1
    ∧ Geometry.alternateBounds geo1 = Some (bounds_of (Geometry.mk 10 20 100 50 None))
    ∧ (∀ ab0, Geometry.alternateBounds (Geometry.mk 10 20 100 50 None) = Some ab0 →
         size_of (bounds_of geo1) = size_of ab0)
    ∧ (Geometry.alternateBounds (Geometry.mk 10 20 100 50 None) = None →
       collapseToPreferredSize example_graph = false →
         size_of (bounds_of geo1) = size_of (bounds_of (Geometry.mk 10 20 100 50 None)))
    ∧ (unrotated (H := Number_Z) (H0 := plain_graph) 2%nat →
         Geometry.x geo1 = 10 ∧ Geometry.y geo1 = 20).
Proof.
  apply (swapBounds_exchanges_bounds (H := Number_Z) (H0 := plain_graph)
           example_graph 2%nat true (Geometry.mk 10 20 100 50 None)).
  vm_compute. reflexivity.
Defined.

(** Property X9. Collapsing and expanding again restores the bounds:
    after two [swapBounds] on a cell that is not rotated the geometry of
    the cell has the bounds it started with, and a third [swapBounds]
    gives the geometry the first one gave. *)
Theorem swapBounds_twice_restores_bounds {num : Type} `{Number num} `{PartialGraph num}
    (g : Graph num) (c : id) (w1 w2 w3 : bool) (geo0 : Geometry.t num) :
  unrotated c →
  geometry_of g c = Some geo0 →
  ∃ geo1 geo2,
    geometry_of (FoldingMixin.swapBounds g c w1) c = Some geo1
    ∧ geometry_of (FoldingMixin.swapBounds (FoldingMixin.swapBounds g c w1) c w2) c
      = Some geo2
    ∧ bounds_of geo2 = bounds_of geo0
    ∧ Geometry.alternateBounds geo2 = Some (bounds_of geo1)
    ∧ geometry_of (FoldingMixin.swapBounds
                     (FoldingMixin.swapBounds (FoldingMixin.swapBounds g c w1) c w2) c w3) c
      = Some geo1.
Proof.
  intros Hun Hg.
  destruct (swapBounds_object g c w1 geo0 Hg) as (ab1 & Hg1 & _ & _ & Hpos1).
  destruct (Hpos1 Hun) as [Hx1 Hy1].
  set (g1 := FoldingMixin.swapBounds g c w1) in *.
  destruct (swapBounds_object g1 c w2 _ Hg1) as (ab2 & Hg2 & Hsize2 & _ & Hpos2).
  destruct (Hpos2 Hun) as [Hx2 Hy2].
  specialize (Hsize2 _ eq_refl).
  set (g2 := FoldingMixin.swapBounds g1 c w2) in *.
  destruct (swapBounds_object g2 c w3 _ Hg2) as (ab3 & Hg3 & Hsize3 & _ & Hpos3).
  destruct (Hpos3 Hun) as [Hx3 Hy3].
  specialize (Hsize3 _ eq_refl).
  do 2 eexists. split; [exact Hg1|]. split; [exact Hg2|].
  destruct geo0 as [x0 y0 wd0 ht0 alt0], ab1 as [x1 y1 wd1 ht1], ab2 as [x2 y2 wd2 ht2],
    ab3 as [x3 y3 wd3 ht3].
  unfold size_of, bounds_of in *. simpl in *.
  simplify_eq. split; [done|]. split; [done|]. exact Hg3.
Qed.

Lemma swapBounds_twice_restores_bounds_witness :
  ∃ geo1 geo2,
    geometry_of (FoldingMixin.swapBounds (H := Number_Z) (H0 := plain_graph)
                   example_graph 2%nat true) 2%nat = Some geo1
    ∧ geometry_of (FoldingMixin.swapBounds (H := Number_Z) (H0 := plain_graph)
                     (FoldingMixin.swapBounds (H := Number_Z) (H0 := plain_graph)
                        example_graph 2%nat true) 2%nat false) 2%nat = Some geo2
    ∧ bounds_of geo2 = bounds_of (Geometry.mk 10 20 100 50 None)
    ∧ Geometry.alternateBounds geo2 = Some (bounds_of geo1)
    ∧ geometry_of (FoldingMixin.swapBounds (H := Number_Z) (H0 := plain_graph)
                     (FoldingMixin.swapBounds (H := Number_Z) (H0 := plain_graph)
                        (FoldingMixin.swapBounds (H := Number_Z) (H0 := plain_graph)
                           example_graph 2%nat true) 2%nat false) 2%nat true) 2%nat
      = Some geo1.
Proof.
  apply (swapBounds_twice_restores_bounds (H := Number_Z) (H0 := plain_graph)
           example_graph 2%nat true false true (Geometry.mk 10 20 100 50 None)).
  - intros g. reflexivity.
  - vm_compute. reflexivity.
Defined.

(** ** What [cellsFolded] establishes *)

Section FoldPost.
Context {num : Type} `{Number num} `{PartialGraph num}.
Implicit Types (g : Graph num) (c x : id).

Hypothesis Hext : ∀ g c x,
  isCollapsed (store (extendParent g c)) x = isCollapsed (store g) x.
Hypothesis Hcon : ∀ g c x,
  isCollapsed (store (constrainChild g c)) x = isCollapsed (store g) x.

Variables collapse recurse : bool.

Lemma fold_cell_sets rec c g g' :
  (∀ g1 l g2, isCollapsed (store g1) c = collapse → rec g1 l = Some g2 →
              isCollapsed (store g2) c = collapse) →
  FoldingMixin.fold_cell rec collapse recurse false g c = Some g' →
  isCollapsed (store g') c = collapse.
Proof.
  intros Hrec Hf.
  destruct (decide (isCollapsed (store g) c = collapse)) as [Hc|Hc].
  { exact (fold_cell_keeps Hext Hcon collapse recurse rec false c g c g' Hrec Hc Hf). }
  unfold FoldingMixin.fold_cell in Hf. cbn [negb orb andb] in Hf.
  destruct (eqb collapse (isCollapsed (store g) c)) eqn:E.
  { apply eqb_prop in E. congruence. }
  cbn [negb] in Hf.
  set (g1 := setCollapsed g c collapse) in *.
  set (g2 := FoldingMixin.swapBounds g1 c collapse) in *.
  set (g3 := if isExtendParent g2 c then extendParent g2 c else g2) in *.
  assert (H3 : isCollapsed (store g3) c = collapse).
  { assert (H2 : isCollapsed (store g2) c = collapse).
    { unfold g2. rewrite isCollapsed_swapBounds. unfold g1.
      rewrite isCollapsed_setCollapsed. by rewrite decide_True. }
    unfold g3. destruct (isExtendParent g2 c); [|done]. by rewrite Hext. }
  destruct recurse.
  - destruct (rec g3 _) as [g4|] eqn:E4; [|done]. simpl in Hf. injection Hf as <-.
    rewrite Hcon. by eapply Hrec.
  - simpl in Hf. injection Hf as <-. by rewrite Hcon.
Qed.

Lemma fold_loop_sets rec l : ∀ g g',
  (∀ c g1 l g2, isCollapsed (store g1) c = collapse → rec g1 l = Some g2 →
                isCollapsed (store g2) c = collapse) →
  FoldingMixin.fold_loop rec collapse recurse false l g = Some g' →
  ∀ x, x ∈ l → isCollapsed (store g') x = collapse.
Proof.
  induction l as [|y l IH]; intros g g' Hrec Hl x Hx; [by apply elem_of_nil in Hx|].
  simpl in Hl.
  destruct (FoldingMixin.fold_cell rec collapse recurse false g y) as [g1|] eqn:E; [|done].
  simpl in Hl.
  destruct (decide (x = y)) as [->|Hne].
  - eapply (fold_loop_keeps Hext Hcon collapse recurse rec false y l g1 g');
      [apply Hrec| |exact Hl].
    eapply fold_cell_sets; [apply Hrec|exact E].
  - apply elem_of_cons in Hx as [?|Hx]; [done|]. by eapply IH.
Qed.

Lemma cellsFolded_sets fuel g cs g' :
  FoldingMixin.cellsFolded fuel g (Some cs) collapse recurse false = Some g' →
  ∀ x, x ∈ cs → isCollapsed (store g') x = collapse.
Proof.
  intros Hf x Hx. destruct fuel as [|fuel]; [done|].
  rewrite cellsFolded_S in Hf.
  case_bool_decide as Hlen; [|destruct cs; [by apply elem_of_nil in Hx|simpl in Hlen; lia]].
  unfold batchUpdate in Hf.
  match type of Hf with
  | context [FoldingMixin.fold_loop ?r _ _ _ _ _] =>
      destruct (FoldingMixin.fold_loop r collapse recurse false cs (beginUpdate g))
        as [g2|] eqn:E; [|done]
  end.
  simpl in Hf. injection Hf as <-. rewrite store_endUpdate. simpl.
  eapply fold_loop_sets; [|exact E|exact Hx].
  intros c g1 l1 g3 Hg1 Hr.
  exact (cellsFolded_keeps Hext Hcon collapse recurse c fuel g1 (Some l1) false g3 Hg1 Hr).
Qed.

Hypothesis Hextc : ∀ g c x,
  children (cell (store (extendParent g c)) x) = children (cell (store g) x).
Hypothesis Hconc : ∀ g c x,
  children (cell (store (constrainChild g c)) x) = children (cell (store g) x).

(** [cellsFolded] changes collapsed flags only in the subtrees of the
    listed cells. *)
Lemma cellsFolded_frame fuel : ∀ g cs chk g',
  forallb (within fuel (store g)) cs = true →
  FoldingMixin.cellsFolded (S fuel) g (Some cs) collapse recurse chk = Some g' →
  ∀ x, (∀ c, c ∈ cs → x ∉ preorder fuel (store g) c) →
       isCollapsed (store g') x = isCollapsed (store g) x.
Proof.
  induction fuel as [|fuel IH]; intros g cs chk g' Hw Hf x Hx.
  { destruct cs; [|done]. by injection Hf as <-. }
  rewrite cellsFolded_S in Hf.
  case_bool_decide; [|by injection Hf as <-].
  unfold batchUpdate in Hf.
  set (rec := λ g' children,
         FoldingMixin.cellsFolded (S fuel) g' (Some children) collapse recurse false) in *.
  assert (Hcell : ∀ g1 y g2,
            within (S fuel) (store g1) y = true →
            FoldingMixin.fold_cell rec collapse recurse chk g1 y = Some g2 →
            (∀ z, children (cell (store g2) z) = children (cell (store g1) z))
            ∧ (∀ z, z ∉ preorder (S fuel) (store g1) y →
                    isCollapsed (store g2) z = isCollapsed (store g1) z)).
  { intros g1 y g2 Hy Hc. unfold FoldingMixin.fold_cell in Hc.
    destruct (_ && _); [|by injection Hc as <-].
    set (ga := setCollapsed g1 y collapse) in *.
    set (gb := FoldingMixin.swapBounds ga y collapse) in *.
    set (gc := if isExtendParent gb y then extendParent gb y else gb) in *.
    assert (Hch : ∀ z, children (cell (store gc) z) = children (cell (store g1) z)).
    { intros z. unfold gc. destruct (isExtendParent gb y).
      - rewrite Hextc. unfold gb, ga.
        by rewrite children_swapBounds, children_setCollapsed.
      - unfold gb, ga. by rewrite children_swapBounds, children_setCollapsed. }
    assert (Hfl : ∀ z, z ≠ y → isCollapsed (store gc) z = isCollapsed (store g1) z).
    { intros z Hz.
      assert (isCollapsed (store gb) z = isCollapsed (store g1) z) as Hb.
      { unfold gb, ga. rewrite isCollapsed_swapBounds, isCollapsed_setCollapsed.
        by rewrite decide_False. }
      unfold gc. destruct (isExtendParent gb y); [by rewrite Hext|done]. }
    destruct recurse.
    - destruct (rec gc (getChildren (store gc) y)) as [gd|] eqn:Ed; [|done].
      simpl in Hc. injection Hc as <-.
      assert (Hwc : forallb (within fuel (store gc)) (getChildren (store gc) y) = true).
      { unfold getChildren. rewrite Hch.
        by rewrite (forallb_within_ext fuel (store g1) (store gc)). }
      destruct (cellsFolded_total Hextc Hconc collapse true fuel gc
                  (getChildren (store gc) y) false Hwc) as (gd' & Hd' & Hdc).
      unfold rec in Ed. rewrite Hd' in Ed. injection Ed as ->.
      split.
      + intros z. by rewrite Hconc, Hdc.
      + intros z Hz. rewrite Hcon.
        change (preorder (S fuel) (store g1) y)
          with (y :: flat_map (preorder fuel (store g1)) (children (cell (store g1) y))) in Hz.
        apply not_elem_of_cons in Hz as [Hzy Hz].
        rewrite (IH gc (getChildren (store gc) y) false gd Hwc Hd' z); [by apply Hfl|].
        intros ch Hchd Hin. apply Hz. apply list_elem_of_In, in_flat_map.
        exists ch. split.
        * apply list_elem_of_In. unfold getChildren in Hchd. by rewrite <- Hch.
        * apply list_elem_of_In. by rewrite <- (preorder_ext fuel (store g1) (store gc)).
    - simpl in Hc. injection Hc as <-. split.
      + intros z. by rewrite Hconc.
      + intros z Hz. rewrite Hcon. apply Hfl.
        intros ->. apply Hz.
        change (preorder (S fuel) (store g1) y)
          with (y :: flat_map (preorder fuel (store g1)) (children (cell (store g1) y))).
        left. }
  assert (Hloop : ∀ l g1 g2,
            forallb (within (S fuel) (store g1)) l = true →
            FoldingMixin.fold_loop rec collapse recurse chk l g1 = Some g2 →
            ∀ z, (∀ c, c ∈ l → z ∉ preorder (S fuel) (store g1) c) →
                 isCollapsed (store g2) z = isCollapsed (store g1) z).
  { induction l as [|y l IHl]; intros g1 g2 Hl Hg z Hz; [by injection Hg as <-|].
    simpl in Hl. apply andb_prop in Hl as [Hy Hl]. simpl in Hg.
    destruct (FoldingMixin.fold_cell rec collapse recurse chk g1 y) as [ga|] eqn:Ea; [|done].
    simpl in Hg. destruct (Hcell g1 y ga Hy Ea) as [Hch Hfl].
    rewrite (IHl ga g2).
    - apply Hfl, Hz. left.
    - by rewrite (forallb_within_ext (S fuel) (store g1) (store ga)).
    - done.
    - intros c Hc. rewrite (preorder_ext (S fuel) (store g1) (store ga)) by done.
      apply Hz. by right. }
  destruct (FoldingMixin.fold_loop rec collapse recurse chk cs (beginUpdate g))
    as [g2|] eqn:E; [|done].
  simpl in Hf. injection Hf as <-. rewrite store_endUpdate. simpl.
  by apply (Hloop cs (beginUpdate g) g2 Hw E x).
Qed.

End FoldPost.

(** Property X10. Without the foldable check, [cellsFolded] returns on
    a finite document with every listed cell's collapsed flag at the
    requested value; whatever the check, it changes the flag of no cell
    outside the subtrees of the listed cells and changes no list of
    children. *)
Theorem cellsFolded_sets_listed_cells {num : Type} `{Number num} `{PartialGraph num}
    (fuel : nat) (g : Graph num) (cs : list id) (collapse recurse checkFoldable : bool) :
  (∀ g c x, isCollapsed (store (extendParent g c)) x = isCollapsed (store g) x) →
  (∀ g c x, isCollapsed (store (constrainChild g c)) x = isCollapsed (store g) x) →
  (∀ g c x, children (cell (store (extendParent g c)) x) = children (cell (store g) x)) →
  (∀ g c x, children (cell (store (constrainChild g c)) x) = children (cell (store g) x)) →
  forallb (within fuel (store g)) cs = true →
  ∃ g',
    FoldingMixin.cellsFolded (S fuel) g (Some cs) collapse recurse checkFoldable = Some g'
    ∧ (checkFoldable = false → ∀ x, x ∈ cs → isCollapsed (store g') x = collapse)
    ∧ (∀ x, (∀ c, c ∈ cs → x ∉ preorder fuel (store g) c) →
            isCollapsed (store g') x = isCollapsed (store g) x)
    ∧ (∀ x, getChildren (store g') x = getChildren (store g) x).
Proof.
  intros Hext Hcon Hextc Hconc Hw.
  destruct (cellsFolded_total Hextc Hconc collapse recurse fuel g cs checkFoldable Hw)
    as (g' & Hg' & Hch).
  exists g'. split; [done|]. split; [|split].
  - intros -> x Hx.
    exact (cellsFolded_sets Hext Hcon collapse recurse (S fuel) g cs g' Hg' x Hx).
  - exact (cellsFolded_frame Hext Hcon collapse recurse Hextc Hconc fuel g cs
             checkFoldable g' Hw Hg').
  - done.
Qed.

Lemma cellsFolded_sets_listed_cells_witness :
  ∃ g',
    FoldingMixin.cellsFolded (H := Number_Z) (H0 := plain_graph)
      5 example_graph (Some [2%nat]) true true false = Some g'
    ∧ (false = false → ∀ x, x ∈ [2%nat] → isCollapsed (store g') x = true)
    ∧ (∀ x, (∀ c, c ∈ [2%nat] → x ∉ preorder 4 (store example_graph) c) →
            isCollapsed (store g') x = isCollapsed (store example_graph) x)
    ∧ (∀ x, getChildren (store g') x = getChildren (store example_graph) x).
Proof.
  apply (cellsFolded_sets_listed_cells (H := Number_Z) (H0 := plain_graph)
           4 example_graph [2%nat] true true false).
  - reflexivity.
  - reflexivity.
  - reflexivity.
  - reflexivity.
  - vm_compute. reflexivity.
Defined.

(** Property X11. [cellsFolded] without the foldable check is
    idempotent on the document: a second call with the same cells and
    the same flag creates no change record and writes no cell and no
    geometry object. *)
Theorem cellsFolded_again_changes_nothing {num : Type} `{Number num} `{PartialGraph num}
    (fuel : nat) (g : Graph num) (cs : list id) (collapse recurse checkFoldable : bool) :
  (∀ g c x, isCollapsed (store (extendParent g c)) x = isCollapsed (store g) x) →
  (∀ g c x, isCollapsed (store (constrainChild g c)) x = isCollapsed (store g) x) →
  (∀ g c x, children (cell (store (extendParent g c)) x) = children (cell (store g) x)) →
  (∀ g c x, children (cell (store (constrainChild g c)) x) = children (cell (store g) x)) →
  forallb (within fuel (store g)) cs = true →
  ∃ g1 g2,
    FoldingMixin.cellsFolded (S fuel) g (Some cs) collapse recurse false = Some g1
    ∧ FoldingMixin.cellsFolded (S fuel) g1 (Some cs) collapse recurse checkFoldable
      = Some g2
    ∧ records g2 = records g1 ∧ store g2 = store g1 ∧ heap g2 = heap g1.
Proof.
  intros Hext Hcon Hextc Hconc Hw.
  destruct (cellsFolded_total Hextc Hconc collapse recurse fuel g cs false Hw)
    as (g1 & Hg1 & _).
  exists g1. destruct cs as [|c cs].
  - exists g1. rewrite cellsFolded_S in Hg1 |- *. cbn in Hg1 |- *.
    by injection Hg1 as <-.
  - eexists. split; [done|]. split.
    + apply cellsFolded_settled; [done|].
      exact (cellsFolded_sets Hext Hcon collapse recurse (S fuel) g (c :: cs) g1 Hg1).
    + split; [|split].
      * apply records_begin_fire_end.
      * by rewrite store_endUpdate.
      * by rewrite heap_endUpdate.
Qed.

Lemma cellsFolded_again_changes_nothing_witness :
  ∃ g1 g2,
    FoldingMixin.cellsFolded (H := Number_Z) (H0 := plain_graph)
      5 example_graph (Some [2%nat; 4%nat]) true false false = Some g1
    ∧ FoldingMixin.cellsFolded (H := Number_Z) (H0 := plain_graph)
        5 g1 (Some [2%nat; 4%nat]) true false true = Some g2
    ∧ records g2 = records g1 ∧ store g2 = store g1 ∧ heap g2 = heap g1.
Proof.
  apply (cellsFolded_again_changes_nothing (H := Number_Z) (H0 := plain_graph)
           4 example_graph [2%nat; 4%nat] true false true).
  - reflexivity.
  - reflexivity.
  - reflexivity.
  - reflexivity.
  - vm_compute. reflexivity.
Defined.

(** ** [cellsFolded] and the open transaction *)

Section FoldTransactions.
Context {num : Type} `{Number num} `{PartialGraph num}.
Implicit Types (g : Graph num) (c x : id).

(** What the proofs need of the two collaborators: they change no
    collapsed flag and, called inside an update scope, leave the scope
    open, commit nothing and only add records. *)
Hypothesis Hext : ∀ g c x,
  isCollapsed (store (extendParent g c)) x = isCollapsed (store g) x.
Hypothesis Hcon : ∀ g c x,
  isCollapsed (store (constrainChild g c)) x = isCollapsed (store g) x.
Hypothesis Hext_tx : ∀ g c, (0 < updateLevel g)%nat →
  updateLevel (extendParent g c) = updateLevel g
  ∧ edits (extendParent g c) = edits g
  ∧ ∃ news, currentEdit (extendParent g c) = currentEdit g ++ news.
Hypothesis Hcon_tx : ∀ g c, (0 < updateLevel g)%nat →
  updateLevel (constrainChild g c) = updateLevel g
  ∧ edits (constrainChild g c) = edits g
  ∧ ∃ news, currentEdit (constrainChild g c) = currentEdit g ++ news.

Variables collapse recurse : bool.

Lemma scoped_refl g : scoped g g.
Proof. split; [done|]. split; [done|]. exists []. by rewrite app_nil_r. Qed.

Lemma scoped_trans g1 g2 g3 : scoped g1 g2 → scoped g2 g3 → scoped g1 g3.
Proof.
  intros (Hl1 & He1 & n1 & Hc1 & Hf1) (Hl2 & He2 & n2 & Hc2 & Hf2).
  split; [congruence|]. split; [congruence|].
  exists (n1 ++ n2). split; [by rewrite Hc2, Hc1, app_assoc|].
  intros Hn x. apply app_eq_nil in Hn as [-> ->]. by rewrite Hf2, Hf1.
Qed.

Lemma scoped_level g g' : scoped g g' → updateLevel g' = updateLevel g.
Proof. by intros (? & _). Qed.

Lemma scoped_record_change g ch :
  (0 < updateLevel g)%nat →
  updateLevel (record_change g ch) = updateLevel g
  ∧ edits (record_change g ch) = edits g
  ∧ currentEdit (record_change g ch) = currentEdit g ++ [ch].
Proof.
  intros Hl. unfold record_change, endUpdate, beginUpdate. simpl.
  destruct (updateLevel g); [lia|done].
Qed.

Lemma scoped_setCollapsed g c v : (0 < updateLevel g)%nat → scoped g (setCollapsed g c v).
Proof.
  intros Hl. unfold setCollapsed. destruct (eqb v _); [apply scoped_refl|].
  destruct (scoped_record_change (apply_change g c (with_collapsed v))
              (CollapseChange c (isCollapsed (store g) c)) Hl) as (H1 & H2 & H3).
  split; [exact H1|]. split; [exact H2|]. eexists. split; [exact H3|]. done.
Qed.

Lemma scoped_updateAlternateBounds g oc or w :
  updateLevel (FoldingMixin.updateAlternateBounds g oc or w) = updateLevel g
  ∧ edits (FoldingMixin.updateAlternateBounds g oc or w) = edits g
  ∧ currentEdit (FoldingMixin.updateAlternateBounds g oc or w) = currentEdit g.
Proof.
  unfold FoldingMixin.updateAlternateBounds.
  repeat case_match; simplify_eq; done.
Qed.

Lemma scoped_swapBounds g c w :
  (0 < updateLevel g)%nat → scoped g (FoldingMixin.swapBounds g c w).
Proof.
  intros Hl.
  assert (Hflags : ∀ x, isCollapsed (store (FoldingMixin.swapBounds g c w)) x
                        = isCollapsed (store g) x)
    by (intros; apply isCollapsed_swapBounds).
  revert Hflags. unfold FoldingMixin.swapBounds.
  destruct (getGeometry (store g) c) as [r0|]; [|intros; apply scoped_refl].
  destruct (heap g !! r0) as [geo0|]; [|intros; apply scoped_refl].
  unfold FoldingMixin.clone.
  set (r' := fresh (dom (heap g))).
  set (g1 := with_heap _ g).
  destruct (scoped_updateAlternateBounds g1 (Some c) (Some r') w) as (Hl2 & He2 & Hc2).
  set (g2 := FoldingMixin.updateAlternateBounds g1 _ _ w) in *.
  set (g3 := FoldingMixin.swap_at g2 r').
  intros Hflags. unfold setGeometry in *. case_decide.
  - split; [exact Hl2|]. split; [exact He2|]. exists [].
    split; [by rewrite app_nil_r|done].
  - destruct (scoped_record_change (apply_change g3 c (with_geometry (Some r')))
                (GeometryChange c (getGeometry (store g3) c))) as (R1 & R2 & R3).
    { simpl. rewrite Hl2. exact Hl. }
    split; [by rewrite R1; simpl; rewrite Hl2|].
    split; [by rewrite R2; simpl; rewrite He2|]. eexists.
    split; [rewrite R3; simpl; by rewrite Hc2|done].
Qed.

Lemma scoped_collaborator (f : Graph num → id → Graph num) g c :
  (∀ g c x, isCollapsed (store (f g c)) x = isCollapsed (store g) x) →
  (∀ g c, (0 < updateLevel g)%nat →
     updateLevel (f g c) = updateLevel g ∧ edits (f g c) = edits g
     ∧ ∃ news, currentEdit (f g c) = currentEdit g ++ news) →
  (0 < updateLevel g)%nat → scoped g (f g c).
Proof.
  intros Hf Htx Hl. destruct (Htx g c Hl) as (Hl' & He' & news & Hc').
  split; [done|]. split; [done|]. exists news. split; [done|]. intros _ x. apply Hf.
Qed.

Lemma scoped_fold_cell rec chk g c g' :
  (∀ g1 l g2, (0 < updateLevel g1)%nat → rec g1 l = Some g2 → scoped g1 g2) →
  (0 < updateLevel g)%nat →
  FoldingMixin.fold_cell rec collapse recurse chk g c = Some g' →
  scoped g g'.
Proof.
  intros Hrec Hl Hf. unfold FoldingMixin.fold_cell in Hf.
  destruct (_ && _); [|injection Hf as <-; apply scoped_refl].
  pose proof (scoped_setCollapsed g c collapse Hl) as S1.
  set (g1 := setCollapsed g c collapse) in *.
  assert (Hl1 : (0 < updateLevel g1)%nat) by (rewrite (scoped_level g g1); done).
  pose proof (scoped_swapBounds g1 c collapse Hl1) as S2.
  set (g2 := FoldingMixin.swapBounds g1 c collapse) in *.
  assert (Hl2 : (0 < updateLevel g2)%nat) by (rewrite (scoped_level g1 g2); done).
  set (g3 := if isExtendParent g2 c then extendParent g2 c else g2) in *.
  assert (S3 : scoped g2 g3).
  { unfold g3. destruct (isExtendParent g2 c); [|apply scoped_refl].
    by apply (scoped_collaborator extendParent). }
  assert (Hl3 : (0 < updateLevel g3)%nat) by (rewrite (scoped_level g2 g3); done).
  assert (S03 : scoped g g3).
  { apply (scoped_trans _ g1); [done|]. by apply (scoped_trans _ g2). }
  destruct recurse.
  - destruct (rec g3 _) as [g4|] eqn:E4; [|done]. simpl in Hf. injection Hf as <-.
    pose proof (Hrec g3 _ g4 Hl3 E4) as S4.
    apply (scoped_trans _ g3); [done|]. apply (scoped_trans _ g4); [done|].
    apply (scoped_collaborator constrainChild); [done|done|].
    by rewrite (scoped_level g3 g4).
  - simpl in Hf. injection Hf as <-.
    apply (scoped_trans _ g3); [done|].
    by apply (scoped_collaborator constrainChild).
Qed.

Lemma scoped_fold_loop rec chk l : ∀ g g',
  (∀ g1 l g2, (0 < updateLevel g1)%nat → rec g1 l = Some g2 → scoped g1 g2) →
  (0 < updateLevel g)%nat →
  FoldingMixin.fold_loop rec collapse recurse chk l g = Some g' →
  scoped g g'.
Proof.
  induction l as [|y l IH]; intros g g' Hrec Hl Hf; simpl in Hf.
  { injection Hf as <-. apply scoped_refl. }
  destruct (FoldingMixin.fold_cell rec collapse recurse chk g y) as [g1|] eqn:E; [|done].
  simpl in Hf. pose proof (scoped_fold_cell rec chk g y g1 Hrec Hl E) as S1.
  apply (scoped_trans _ g1); [done|].
  apply IH; [done| |done]. by rewrite (scoped_level g g1).
Qed.

(** Inside an update scope [cellsFolded] commits nothing. *)
Lemma scoped_cellsFolded fuel : ∀ g cells chk g',
  (0 < updateLevel g)%nat →
  FoldingMixin.cellsFolded fuel g cells collapse recurse chk = Some g' →
  scoped g g'.
Proof.
  induction fuel as [|fuel IH]; intros g cells chk g' Hl Hf; [done|].
  rewrite cellsFolded_S in Hf.
  destruct cells as [cs|]; [|injection Hf as <-; apply scoped_refl].
  case_bool_decide; [|injection Hf as <-; apply scoped_refl].
  unfold batchUpdate in Hf.
  match type of Hf with
  | context [FoldingMixin.fold_loop ?r _ _ _ _ _] =>
      destruct (FoldingMixin.fold_loop r collapse recurse chk cs (beginUpdate g))
        as [g2|] eqn:E; [|done]
  end.
  simpl in Hf. injection Hf as <-.
  apply scoped_fold_loop in E as (Hl2 & He2 & news & Hc2 & Hf2); [| |simpl; lia].
  - simpl in Hl2, He2, Hc2, Hf2.
    unfold scoped, endUpdate. simpl. rewrite Hl2. simpl.
    destruct (updateLevel g) as [|l] eqn:El; [lia|]. simpl.
    split; [done|]. split; [done|]. exists news. split; [done|]. exact Hf2.
  - intros g1 l1 g3 Hl1 Hr. exact (IH g1 (Some l1) false g3 Hl1 Hr).
Qed.

(** Outside any update scope [cellsFolded] commits the records it
    made, as one edit, when it made any. *)
Lemma cellsFolded_top fuel g cs chk g' :
  updateLevel g = 0%nat → currentEdit g = [] →
  FoldingMixin.cellsFolded fuel g (Some cs) collapse recurse chk = Some g' →
  updateLevel g' = 0%nat ∧ currentEdit g' = []
  ∧ ∃ news, edits g' = (if decide (news = []) then edits g else edits g ++ [news])
            ∧ (news = [] → ∀ x, isCollapsed (store g') x = isCollapsed (store g) x).
Proof.
  intros Hl Hcur Hf. destruct fuel as [|fuel]; [done|].
  rewrite cellsFolded_S in Hf.
  case_bool_decide.
  2:{ injection Hf as <-. split; [done|]. split; [done|]. exists []. by rewrite decide_True. }
  unfold batchUpdate in Hf.
  match type of Hf with
  | context [FoldingMixin.fold_loop ?r _ _ _ _ _] =>
      destruct (FoldingMixin.fold_loop r collapse recurse chk cs (beginUpdate g))
        as [g2|] eqn:E; [|done]
  end.
  simpl in Hf. injection Hf as <-.
  apply scoped_fold_loop in E as (Hl2 & He2 & news & Hc2 & Hf2); [| |simpl; lia].
  - simpl in Hl2, He2, Hc2, Hf2. rewrite Hcur in Hc2. simpl in Hc2.
    unfold endUpdate. simpl. rewrite Hl2, Hl, Hc2. simpl.
    destruct news as [|ch news]; simpl.
    + split; [done|]. split; [done|]. exists []. by rewrite decide_True, He2.
    + split; [done|]. split; [done|]. exists (ch :: news).
      by rewrite decide_False, He2.
  - intros g1 l1 g3 Hl1 Hr. exact (scoped_cellsFolded fuel g1 (Some l1) false g3 Hl1 Hr).
Qed.

End FoldTransactions.

(** Property X12. [cellsFolded] is at most one undoable step. Called
    outside any update scope, with no record pending, it leaves no scope
    open and no record pending and commits either nothing or exactly
    one edit, which is not empty: nothing when every listed cell has the
    requested flag already, one edit when, without the foldable check,
    some listed cell has not. Called inside a scope it commits nothing
    and leaves the nesting as it found it. *)
Theorem cellsFolded_commits_one_edit {num : Type} `{Number num} `{PartialGraph num}
    (fuel : nat) (g : Graph num) (cs : list id) (collapse recurse checkFoldable : bool) :
  (∀ g c x, isCollapsed (store (extendParent g c)) x = isCollapsed (store g) x) →
  (∀ g c x, isCollapsed (store (constrainChild g c)) x = isCollapsed (store g) x) →
  (∀ g c x, children (cell (store (extendParent g c)) x) = children (cell (store g) x)) →
  (∀ g c x, children (cell (store (constrainChild g c)) x) = children (cell (store g) x)) →
  (∀ g c, (0 < updateLevel g)%nat →
     updateLevel (extendParent g c) = updateLevel g
     ∧ edits (extendParent g c) = edits g
     ∧ ∃ news, currentEdit (extendParent g c) = currentEdit g ++ news) →
  (∀ g c, (0 < updateLevel g)%nat →
     updateLevel (constrainChild g c) = updateLevel g
     ∧ edits (constrainChild g c) = edits g
     ∧ ∃ news, currentEdit (constrainChild g c) = currentEdit g ++ news) →
  forallb (within fuel (store g)) cs = true →
  ∃ g',
    FoldingMixin.cellsFolded (S fuel) g (Some cs) collapse recurse checkFoldable = Some g'
    ∧ updateLevel g' = updateLevel g
    ∧ ((0 < updateLevel g)%nat → edits g' = edits g)
    ∧ (updateLevel g = 0%nat → currentEdit g = [] →
       currentEdit g' = []
       ∧ (edits g' = edits g ∨ ∃ e, e ≠ [] ∧ edits g' = edits g ++ [e])
       ∧ ((∀ x, x ∈ cs → isCollapsed (store g) x = collapse) → edits g' = edits g)
       ∧ (checkFoldable = false →
          (∃ x, x ∈ cs ∧ isCollapsed (store g) x ≠ collapse) →
          ∃ e, e ≠ [] ∧ edits g' = edits g ++ [e])).
Proof.
  intros Hext Hcon Hextc Hconc Hext_tx Hcon_tx Hw.
  destruct (cellsFolded_total Hextc Hconc collapse recurse fuel g cs checkFoldable Hw)
    as (g' & Hg' & _).
  exists g'. split; [done|].
  assert (Hin : (0 < updateLevel g)%nat → scoped g g').
  { intros Hl.
    exact (scoped_cellsFolded Hext Hcon Hext_tx Hcon_tx collapse recurse (S fuel) g
             (Some cs) checkFoldable g' Hl Hg'). }
  assert (Htop : updateLevel g = 0%nat → currentEdit g = [] →
            updateLevel g' = 0%nat ∧ currentEdit g' = []
            ∧ ∃ news, edits g' = (if decide (news = []) then edits g
                                  else edits g ++ [news])
                      ∧ (news = [] →
                         ∀ x, isCollapsed (store g') x = isCollapsed (store g) x)).
  { intros Hl Hcur.
    exact (cellsFolded_top Hext Hcon Hext_tx Hcon_tx collapse recurse (S fuel) g cs
             checkFoldable g' Hl Hcur Hg'). }
  split; [|split].
  - destruct (updateLevel g) as [|l] eqn:El.
    + destruct cs as [|c cs].
      * rewrite cellsFolded_S in Hg'. cbn in Hg'. injection Hg' as <-. done.
      * rewrite cellsFolded_S in Hg'.
        rewrite bool_decide_eq_true_2 in Hg' by (simpl; lia).
        unfold batchUpdate in Hg'.
        match type of Hg' with
        | context [FoldingMixin.fold_loop ?r _ _ _ _ _] =>
            destruct (FoldingMixin.fold_loop r collapse recurse checkFoldable (c :: cs)
                        (beginUpdate g)) as [g2|] eqn:E; [|done]
        end.
        simpl in Hg'. injection Hg' as <-.
        apply (scoped_fold_loop Hext Hcon Hext_tx Hcon_tx) in E as (Hl2 & _);
          [| |simpl; lia].
        -- simpl in Hl2. unfold endUpdate. simpl. rewrite Hl2, El. simpl.
           by destruct (currentEdit g2).
        -- intros g1 l1 g3 Hl1 Hr.
           exact (scoped_cellsFolded Hext Hcon Hext_tx Hcon_tx collapse recurse fuel g1
                    (Some l1) false g3 Hl1 Hr).
    + destruct Hin as (Hl' & _); [lia|]. by rewrite Hl', El.
  - intros Hl. by destruct (Hin Hl) as (_ & ? & _).
  - intros Hl Hcur. destruct (Htop Hl Hcur) as (_ & Hcur' & news & Hed & Hfl).
    split; [done|]. split; [|split].
    + destruct (decide (news = [])) as [->|Hn]; [by left|].
      right. by exists news.
    + intros Hall. destruct cs as [|c cs].
      * rewrite cellsFolded_S in Hg'. cbn in Hg'. by injection Hg' as <-.
      * rewrite (cellsFolded_settled collapse recurse fuel checkFoldable g (c :: cs))
          in Hg' by done.
        injection Hg' as <-. unfold endUpdate, beginUpdate, FoldingMixin.fireEvent.
        simpl. rewrite Hl, Hcur. done.
    + intros -> (x & Hx & Hne).
      destruct (decide (news = [])) as [->|Hn]; [|by exists news].
      exfalso. apply Hne. rewrite <- (Hfl eq_refl x).
      exact (cellsFolded_sets Hext Hcon collapse recurse (S fuel) g cs g' Hg' x Hx).
Qed.

Lemma cellsFolded_commits_one_edit_witness :
  ∃ g',
    FoldingMixin.cellsFolded (H := Number_Z) (H0 := plain_graph)
      5 mixed_graph (Some [2%nat; 4%nat]) true true false = Some g'
    ∧ updateLevel g' = updateLevel mixed_graph
    ∧ ((0 < updateLevel mixed_graph)%nat → edits g' = edits mixed_graph)
    ∧ (updateLevel mixed_graph = 0%nat → currentEdit mixed_graph = [] →
       currentEdit g' = []
       ∧ (edits g' = edits mixed_graph
          ∨ ∃ e, e ≠ [] ∧ edits g' = edits mixed_graph ++ [e])
       ∧ ((∀ x, x ∈ [2%nat; 4%nat] → isCollapsed (store mixed_graph) x = true) →
          edits g' = edits mixed_graph)
       ∧ (false = false →
          (∃ x, x ∈ [2%nat; 4%nat] ∧ isCollapsed (store mixed_graph) x ≠ true) →
          ∃ e, e ≠ [] ∧ edits g' = edits mixed_graph ++ [e])).
Proof.
  apply (cellsFolded_commits_one_edit (H := Number_Z) (H0 := plain_graph)
           4 mixed_graph [2%nat; 4%nat] true true false).
  - reflexivity.
  - reflexivity.
  - reflexivity.
  - reflexivity.
  - intros g c Hl. split; [reflexivity|]. split; [reflexivity|].
    exists []. symmetry. apply app_nil_r.
  - intros g c Hl. split; [reflexivity|]. split; [reflexivity|].
    exists []. symmetry. apply app_nil_r.
  - vm_compute. reflexivity.
Defined.

(** Two calls run outside any scope: the first folds A = 2 and its
    descendants and commits one edit, the second finds every listed
    cell folded and commits none. *)
Example cellsFolded_edits_example :
  (FoldingMixin.cellsFolded (H := Number_Z) (H0 := plain_graph)
     5 mixed_graph (Some [2%nat; 4%nat]) true true false
   ≫= λ g1, FoldingMixin.cellsFolded (H := Number_Z) (H0 := plain_graph)
              5 g1 (Some [2%nat; 4%nat]) true true false
   ≫= λ g2, Some (edits g1, edits g2, currentEdit g2, updateLevel g2))
  = Some ([[CollapseChange 2%nat false; GeometryChange 2%nat (Some 0%nat);
            CollapseChange 3%nat false; CollapseChange 5%nat false]],
          [[CollapseChange 2%nat false; GeometryChange 2%nat (Some 0%nat);
            CollapseChange 3%nat false; CollapseChange 5%nat false]],
          [], 0%nat).
Proof. vm_compute. reflexivity. Qed.

(** Property X13. [getFoldableCells] does not depend on [collapse],
    never returns a cell without children or one whose style says it
    is not foldable, returns its own result unchanged when applied to
    it, and treats a concatenated list part by part. *)
Theorem getFoldableCells_ignores_collapse {num : Type} `{Number num} `{PartialGraph num}
    (g : Graph num) (cells cells' : list id) (collapse collapse' : bool) :
  FoldingMixin.getFoldableCells g cells collapse
  = FoldingMixin.getFoldableCells g cells collapse'
  ∧ Forall (λ c, getChildren (store g) c ≠ []
                 ∧ foldable (getCurrentCellStyle g c) ≠ Some false)
      (FoldingMixin.getFoldableCells g cells collapse)
  ∧ FoldingMixin.getFoldableCells g (FoldingMixin.getFoldableCells g cells collapse)
      collapse'
    = FoldingMixin.getFoldableCells g cells collapse
  ∧ FoldingMixin.getFoldableCells g (cells ++ cells') collapse
    = FoldingMixin.getFoldableCells g cells collapse
      ++ FoldingMixin.getFoldableCells g cells' collapse.
Proof.
  unfold FoldingMixin.getFoldableCells, filterCells, FoldingMixin.isCellFoldable.
  split; [done|]. split; [|split].
  - apply Forall_forall. intros c Hc.
    apply list_elem_of_In, filter_In in Hc as [_ Hc].
    apply andb_prop in Hc as [Hn Hf]. split.
    + unfold getChildCount in Hn. intros Hnil. unfold getChildren in Hnil.
      rewrite Hnil in Hn. done.
    + intros Hs. by rewrite Hs in Hf.
  - induction cells as [|c cells IH]; [done|]. simpl.
    destruct (_ && _) eqn:E; [|done]. simpl. rewrite E. by rewrite IH.
  - apply List.filter_app.
Qed.

(** Property X14. [getFoldingImage] returns an image exactly for the
    state of a cell that is not an edge, has a child and whose style
    does not say it is not foldable, and only while folding is enabled;
    the image is the collapsed image for a collapsed cell and the
    expanded image otherwise. *)
Theorem getFoldingImage_only_for_foldable_vertices {num : Type} `{Number num}
    `{PartialGraph num} {Image : Type} (isEdge : id → bool)
    (options : FoldingImages.Options Image) (g : Graph num) (state : option id)
    (img : Image) :
  FoldingImages.getFoldingImage isEdge options g state = Some img
  ↔ ∃ c, state = Some c
         ∧ FoldingImages.isFoldingEnabled options = true
         ∧ isEdge c = false
         ∧ getChildren (store g) c ≠ []
         ∧ foldable (getCurrentCellStyle g c) ≠ Some false
         ∧ img = (if isCollapsed (store g) c
                  then FoldingImages.collapsedImage options
                  else FoldingImages.expandedImage options).
Proof.
  unfold FoldingImages.getFoldingImage, FoldingMixin.isCellFoldable, getChildCount,
    getChildren.
  split.
  - destruct state as [c|]; [|done].
    destruct (FoldingImages.isFoldingEnabled options); [|done].
    destruct (isEdge c) eqn:Ee; [done|]. cbn [negb andb].
    destruct (children (cell (store g) c)) as [|ch l] eqn:Ec; [done|].
    destruct (foldable (getCurrentCellStyle g c)) as [[]|] eqn:Ef; cbn; intros Hi;
      try done; injection Hi as <-; exists c; rewrite Ec, Ef; repeat split; done.
  - intros (c & -> & -> & -> & Hch & Hf & ->). cbn [negb andb].
    destruct (children (cell (store g) c)) as [|ch l]; [done|].
    destruct (foldable (getCurrentCellStyle g c)) as [[]|]; cbn; done.
Qed.

(** ** Membership in the result of [getOpposites] *)

Section OppositesMembership.
Context {CellState : Type} `{TerminalMixin.View CellState}.

Lemma opposites_dict_push ts (d : gmap id bool) y :
  opposites_dict (ts, d) →
  let acc := if negb (default false (d !! y))
             then (push ts y, <[y := true]> d) else (ts, d) in
  opposites_dict acc ∧ ∀ x, x ∈ acc.1 ↔ x ∈ ts ∨ x = y.
Proof.
  intros Hd. cbn zeta. destruct (default false (d !! y)) eqn:E; cbn [negb].
  - split; [done|]. intros x. split; [by left|].
    intros [Hx| ->]; [done|]. by apply Hd.
  - unfold push. split.
    + intros x. cbn [fst snd]. rewrite elem_of_app, list_elem_of_singleton.
      destruct (decide (x = y)) as [->|Hne].
      * rewrite lookup_insert_eq. cbn. split; [by right|done].
      * rewrite lookup_insert_ne by done. rewrite (Hd x). cbn [fst].
        split; [by left|]. by intros [?|?].
    + intros x. cbn [fst]. by rewrite elem_of_app, list_elem_of_singleton.
Qed.

Lemma opposite_step_membership terminal incS incT acc e :
  opposites_dict acc →
  opposites_dict (TerminalMixin.opposite_step terminal incS incT acc e)
  ∧ ∀ x, x ∈ (TerminalMixin.opposite_step terminal incS incT acc e).1
         ↔ x ∈ acc.1 ∨ opposite_via terminal incS incT e x.
Proof.
  intros Hd. destruct acc as [ts d].
  unfold TerminalMixin.opposite_step, opposite_via, visible_terminal.
  set (source := match TerminalMixin.getState e with
                 | Some st => TerminalMixin.state_getVisibleTerminal st true
                 | None => TerminalMixin.view_getVisibleTerminal e true end).
  set (target := match TerminalMixin.getState e with
                 | Some st => TerminalMixin.state_getVisibleTerminal st false
                 | None => TerminalMixin.view_getVisibleTerminal e false end).
  clearbody source target.
  destruct (bool_decide (source = terminal) && bool_decide (is_Some target)
            && negb (bool_decide (target = terminal)) && incT) eqn:E1.
  - apply andb_prop in E1 as [E1 ->]. apply andb_prop in E1 as [E1 Hnt].
    apply andb_prop in E1 as [Hs Hsome].
    apply negb_true_iff, bool_decide_eq_false in Hnt.
    apply bool_decide_eq_true in Hs. apply bool_decide_eq_true in Hsome.
    destruct target as [tgt|]; [|by destruct Hsome].
    destruct (opposites_dict_push ts d tgt Hd) as [Hd' Hm]. split; [exact Hd'|].
    intros x. rewrite Hm. split.
    + intros [Hx| ->]; [by left|]. right. split; [done|]. by left.
    + intros [Hx|[Hx [(_ & [= ->] & _)|(Ht & _)]]]; [by left|by right|done].
  - destruct (bool_decide (target = terminal) && bool_decide (is_Some source)
              && negb (bool_decide (source = terminal)) && incS) eqn:E2.
    + apply andb_prop in E2 as [E2 ->]. apply andb_prop in E2 as [E2 Hns].
      apply andb_prop in E2 as [Ht Hsome].
      apply negb_true_iff, bool_decide_eq_false in Hns.
      apply bool_decide_eq_true in Ht. apply bool_decide_eq_true in Hsome.
      destruct source as [src|]; [|by destruct Hsome].
      destruct (opposites_dict_push ts d src Hd) as [Hd' Hm]. split; [exact Hd'|].
      intros x. rewrite Hm. split.
      * intros [Hx| ->]; [by left|]. right. split; [done|]. by right.
      * intros [Hx|[Hx [(Hs & _)|(_ & [= ->] & _)]]]; [by left|done|by right].
    + split; [done|]. intros x. cbn [fst]. split; [by left|].
      intros [Hx|[Hx [(Hs & Ht & ->)|(Ht & Hs & ->)]]]; [done| |].
      * exfalso. rewrite Hs, Ht in E1.
        rewrite bool_decide_eq_true_2 in E1 by done.
        rewrite bool_decide_eq_true_2 in E1 by done.
        rewrite bool_decide_eq_false_2 in E1 by done. done.
      * exfalso. rewrite Hs, Ht in E2.
        rewrite bool_decide_eq_true_2 in E2 by done.
        rewrite bool_decide_eq_true_2 in E2 by done.
        rewrite bool_decide_eq_false_2 in E2 by done. done.
Qed.

Lemma foldl_opposite_step_membership terminal incS incT edges : ∀ acc,
  opposites_dict acc →
  ∀ x, x ∈ (foldl (TerminalMixin.opposite_step terminal incS incT) acc edges).1
       ↔ x ∈ acc.1 ∨ ∃ e, e ∈ edges ∧ opposite_via terminal incS incT e x.
Proof.
  induction edges as [|e edges IH]; intros acc Hd x; simpl.
  - split; [by left|]. intros [?|(e & He & _)]; [done|]. by apply elem_of_nil in He.
  - destruct (opposite_step_membership terminal incS incT acc e Hd) as [Hd' Hm].
    rewrite (IH _ Hd' x), Hm. split.
    + intros [[?|Hv]|(e' & He' & Hv)].
      * by left.
      * right. exists e. split; [left|done].
      * right. exists e'. split; [by right|done].
    + intros [?|(e' & He' & Hv)]; [by left; left|].
      apply elem_of_cons in He' as [->|He'].
      * left. by right.
      * right. by exists e'.
Qed.

End OppositesMembership.

(** ** Properties of the terminal and editing functions *)

(** Property X15. A cell is among the opposites exactly when one of the
    given edges contributes it: the cell is not the given terminal and
    it is the visible target of an edge whose visible source is the
    terminal, with targets included, or the visible source of an edge
    whose visible target is the terminal, with sources included. *)
Theorem getOpposites_membership {CellState : Type} `{TerminalMixin.View CellState}
    (edges : list id) (terminal : option id) (includeSources includeTargets : bool)
    (x : id) :
  x ∈ TerminalMixin.getOpposites edges terminal includeSources includeTargets
  ↔ ∃ e, e ∈ edges ∧ opposite_via terminal includeSources includeTargets e x.
Proof.
  unfold TerminalMixin.getOpposites.
  rewrite foldl_opposite_step_membership.
  - split; [|by right]. intros [Hx|?]; [|done]. by apply elem_of_nil in Hx.
  - intros y. cbn. rewrite lookup_empty. cbn. split; [done|].
    intros Hy. by apply elem_of_nil in Hy.
Qed.

(** Property X16. [startEditing] starts nothing: whatever the event,
    the selection cell and its editability, it fires no event and does
    not call the editor handler. *)
Theorem startEditing_does_nothing {num : Type} `{PartialGraph num}
    {Handler MouseEvent : Type} `{CellEditing.CellEditorHandler Handler MouseEvent}
    (g : Graph num) (ed : CellEditing.Editor Handler MouseEvent)
    (evt : option MouseEvent) :
  CellEditing.startEditing g ed evt = ed.
Proof.
  unfold CellEditing.startEditing, CellEditing.startEditingAtCell.
  destruct evt as [e|]; [|done]. by destruct (CellEditing.isMultiTouchEvent e).
Qed.

(** Property X17. [isEditing] answers for at most one cell: it holds
    without a cell exactly when it holds for some cell, it holds for no
    two different cells, and it never holds when the editor handler is
    not registered. *)
Theorem isEditing_at_most_one_cell {Handler MouseEvent : Type}
    `{CellEditing.CellEditorHandler Handler MouseEvent}
    (ed : CellEditing.Editor Handler MouseEvent) :
  (CellEditing.isEditing ed None = true
   ↔ ∃ c, CellEditing.isEditing ed (Some c) = true)
  ∧ (∀ c d, CellEditing.isEditing ed (Some c) = true →
            CellEditing.isEditing ed (Some d) = true → c = d)
  ∧ (CellEditing.plugin ed = None → ∀ cell, CellEditing.isEditing ed cell = false).
Proof.
  unfold CellEditing.isEditing. split; [|split].
  - rewrite bool_decide_eq_true. split.
    + intros [c Hc]. exists c. by rewrite Hc, bool_decide_eq_true.
    + intros [c Hc]. apply bool_decide_eq_true in Hc. by rewrite <- Hc.
  - intros c d Hc Hd. apply bool_decide_eq_true in Hc, Hd. congruence.
  - intros -> [c|]; cbn; first [done | apply bool_decide_eq_false; by intros [? ?]].
Qed.

(** Property X18. [setCellsEditable] sets what [isCellsEditable]
    returns and nothing else, and after [setCellsEditable(false)] no
    cell is editable, whatever its style and lock. *)
Theorem setCellsEditable_false_disables_editing {num : Type} `{PartialGraph num}
    (g : Graph num) (value : bool) (c : id) :
  EditingMixin.isCellsEditable (EditingMixin.setCellsEditable g value) = value
  ∧ EditingMixin.isCellEditable (EditingMixin.setCellsEditable g false) c = false
  ∧ store (EditingMixin.setCellsEditable g value) = store g
  ∧ heap (EditingMixin.setCellsEditable g value) = heap g
  ∧ records (EditingMixin.setCellsEditable g value) = records g
  ∧ events (EditingMixin.setCellsEditable g value) = events g.
Proof. by repeat split. Qed.
